(** * Olive node I/O rows: connection graph and keyframe navigation

    A shallow embedding of [NodeIO] (src/nodes/nodeio.cpp): the row of an
    effect node that is classified as an input or an output, is linked to
    other rows by edges, and carries the keyframed fields of a parameter.

    Conventions of the embedding:
    - a pointer ([NodeIO*], [NodeEdgePtr], [EffectField*]) is a handle into a
      finite map or an index into the owning vector;
    - a failed [Q_ASSERT] aborts the call: the operation returns [None];
    - a Qt signal ([emit ...]) is appended to a log of emitted signals;
    - [long] is the 64-bit signed integer, arithmetic wraps around. *)

From stdpp Require Import gmap list strings sorting.
From Stdlib Require Import ZArith Lia.

Local Open Scope Z_scope.

(** ** Collaborator types declared outside nodeio.cpp *)

(** [olive::nodes::DataType]: the code only tells [kInvalid] from the other
    enumerators, which are numbered here. *)
Inductive DataType :=
| kInvalid
| kDataType (tag : nat).

#[global] Instance DataType_eq_dec : EqDecision DataType.
Proof. solve_decision. Defined.

(** The value of [OldEffectNode::type()]: the code only tells
    [EFFECT_TYPE_TRANSITION] from the other values. *)
Inductive EffectType :=
| EFFECT_TYPE_TRANSITION
| EFFECT_TYPE_OTHER (tag : nat).

#[global] Instance EffectType_eq_dec : EqDecision EffectType.
Proof. solve_decision. Defined.

(** A [QVariant] payload; nothing in this file looks inside one. *)
Definition QVariant := Z.

(** [EffectKeyframe]: a sample of a field at a clip-local frame. *)
Record EffectKeyframe := mkKeyframe {
  time : Z;
  data : QVariant
}.

#[global] Instance EffectKeyframe_eq_dec : EqDecision EffectKeyframe.
Proof. solve_decision. Defined.

(** [EffectField]: the part of the field that nodeio.cpp reads and writes. *)
Record EffectField := mkField {
  keyframes : list EffectKeyframe;
  persistent_data : QVariant;
  field_enabled : bool
}.

#[global] Instance EffectField_eq_dec : EqDecision EffectField.
Proof. solve_decision. Defined.

(** [Clip], with [c->track()->sequence()->playhead] flattened into it. *)
Record Clip := mkClip {
  timeline_in : Z;
  clip_in : Z;
  playhead : Z
}.

(** [OldEffectNode]: what a row asks of its parent effect through
    [GetParentEffect()]: [type()], [parent_clip] and [Now()], the current
    time of the node, taken as a frame index as the spec has it. *)
Record OldEffectNode := mkEffect {
  type : EffectType;
  parent_clip : Clip;
  Now : Z
}.

(** Handles standing for [NodeIO*] and [NodeEdgePtr]. *)
Definition NodeIOPtr := nat.
Definition NodeEdgePtr := nat.

(** [NodeEdge(output, input)]. *)
Record NodeEdge := mkEdge {
  output : NodeIOPtr;
  input : NodeIOPtr
}.

#[global] Instance NodeEdge_eq_dec : EqDecision NodeEdge.
Proof. solve_decision. Defined.

(** ** The row *)

(** The members of [NodeIO]. The parent effect is reached through a pointer
    that no method of the row changes; it is kept by value. *)

Record NodeIO := mkNodeIO {
  parent : OldEffectNode;
  id_ : string;
  name_ : string;
  keyframable_ : bool;
  keyframing_ : bool;
  savable_ : bool;
  output_type_ : DataType;
  accepted_inputs_ : list DataType;
  node_edges_ : list NodeEdgePtr;
  fields_ : list EffectField
}.

(** The constructor [NodeIO::NodeIO]; the registration of the row with its
    parent ([parent->AddRow(this)]) is the parent's state. *)
Definition NodeIO_new (p : OldEffectNode) (id name : string)
    (savable keyframable : bool) : NodeIO :=
  {| parent := p; id_ := id; name_ := name;
     keyframable_ := keyframable; keyframing_ := false; savable_ := savable;
     output_type_ := kInvalid; accepted_inputs_ := [];
     node_edges_ := []; fields_ := [] |}.

Definition set_output_type (t : DataType) (r : NodeIO) : NodeIO :=
  {| parent := parent r; id_ := id_ r; name_ := name_ r;
     keyframable_ := keyframable_ r; keyframing_ := keyframing_ r;
     savable_ := savable_ r;
     output_type_ := t; accepted_inputs_ := accepted_inputs_ r;
     node_edges_ := node_edges_ r; fields_ := fields_ r |}.

Definition set_accepted_inputs (l : list DataType) (r : NodeIO) : NodeIO :=
  {| parent := parent r; id_ := id_ r; name_ := name_ r;
     keyframable_ := keyframable_ r; keyframing_ := keyframing_ r;
     savable_ := savable_ r;
     output_type_ := output_type_ r; accepted_inputs_ := l;
     node_edges_ := node_edges_ r; fields_ := fields_ r |}.

Definition set_node_edges (l : list NodeEdgePtr) (r : NodeIO) : NodeIO :=
  {| parent := parent r; id_ := id_ r; name_ := name_ r;
     keyframable_ := keyframable_ r; keyframing_ := keyframing_ r;
     savable_ := savable_ r;
     output_type_ := output_type_ r; accepted_inputs_ := accepted_inputs_ r;
     node_edges_ := l; fields_ := fields_ r |}.

Definition set_keyframing (b : bool) (r : NodeIO) : NodeIO :=
  {| parent := parent r; id_ := id_ r; name_ := name_ r;
     keyframable_ := keyframable_ r; keyframing_ := b;
     savable_ := savable_ r;
     output_type_ := output_type_ r; accepted_inputs_ := accepted_inputs_ r;
     node_edges_ := node_edges_ r; fields_ := fields_ r |}.

Definition set_fields (l : list EffectField) (r : NodeIO) : NodeIO :=
  {| parent := parent r; id_ := id_ r; name_ := name_ r;
     keyframable_ := keyframable_ r; keyframing_ := keyframing_ r;
     savable_ := savable_ r;
     output_type_ := output_type_ r; accepted_inputs_ := accepted_inputs_ r;
     node_edges_ := node_edges_ r; fields_ := l |}.

(** [Q_ASSERT(cond); rest]. *)
Definition Q_ASSERT {A} (cond : bool) (rest : option A) : option A :=
  if cond then rest else None.

(** *** Classification *)

Definition IsNodeInput (r : NodeIO) : bool :=
  negb (bool_decide (accepted_inputs_ r = [])).

Definition IsNodeOutput (r : NodeIO) : bool :=
  negb (bool_decide (output_type_ r = kInvalid)).

Definition AddAcceptedNodeInput (t : DataType) (r : NodeIO) : option NodeIO :=
  Q_ASSERT (bool_decide (output_type_ r = kInvalid))
    (Some (set_accepted_inputs (accepted_inputs_ r ++ [t]) r)).

Definition SetOutputDataType (t : DataType) (r : NodeIO) : option NodeIO :=
  Q_ASSERT (bool_decide (accepted_inputs_ r = []))
    (Some (set_output_type t r)).

Definition CanAcceptDataType (t : DataType) (r : NodeIO) : bool :=
  if negb (IsNodeInput r) then false
  else bool_decide (t ∈ accepted_inputs_ r).

Definition OutputDataType (r : NodeIO) : DataType := output_type_ r.

(** A call of one of the two classifying methods. *)
Inductive ClassifyCall :=
| CallAddAcceptedNodeInput (t : DataType)
| CallSetOutputDataType (t : DataType).

Definition classify (c : ClassifyCall) (r : NodeIO) : option NodeIO :=
  match c with
  | CallAddAcceptedNodeInput t => AddAcceptedNodeInput t r
  | CallSetOutputDataType t => SetOutputDataType t r
  end.

(** The calls of [cs] in order; [None] as soon as one of them aborts. *)
Fixpoint classify_all (cs : list ClassifyCall) (r : NodeIO) : option NodeIO :=
  match cs with
  | [] => Some r
  | c :: cs' =>
      match classify c r with
      | Some r' => classify_all cs' r'
      | None => None
      end
  end.


(** A row is never both an input and an output. *)
Definition exclusive (r : NodeIO) : Prop :=
  ¬ (IsNodeInput r = true ∧ IsNodeOutput r = true).

(** ** The connection graph *)

(** The signals that nodeio.cpp emits itself; [EdgesChanged] carries the
    emitting row. [Clicked] and [Changed], which a row only relays from its
    fields, are not in the log. *)
Inductive Signal :=
| EdgesChanged (sender : NodeIOPtr)
| KeyframingSetChanged (b : bool).

#[global] Instance Signal_eq_dec : EqDecision Signal.
Proof. solve_decision. Defined.

(** The objects [ConnectEdge] and [DisconnectEdge] reach through pointers:
    the rows, the [NodeEdge] objects allocated so far, and the signals
    emitted so far (oldest first). *)
Record Graph := mkGraph {
  rows : gmap NodeIOPtr NodeIO;
  edges : gmap NodeEdgePtr NodeEdge;
  emitted : list Signal
}.

(** [QVector::removeAll]. *)
Definition removeAll (e : NodeEdgePtr) (l : list NodeEdgePtr) : list NodeEdgePtr :=
  filter (λ x, x ≠ e) l.

(** [p->node_edges_.removeAll(e)]. *)
Definition remove_edge (p : NodeIOPtr) (e : NodeEdgePtr) (g : Graph) : option Graph :=
  r ← rows g !! p;
  Some {| rows := <[p := set_node_edges (removeAll e (node_edges_ r)) r]> (rows g);
          edges := edges g; emitted := emitted g |}.

(** [p->node_edges_.append(e)]. *)
Definition append_edge (p : NodeIOPtr) (e : NodeEdgePtr) (g : Graph) : option Graph :=
  r ← rows g !! p;
  Some {| rows := <[p := set_node_edges (node_edges_ r ++ [e]) r]> (rows g);
          edges := edges g; emitted := emitted g |}.

(** [emit p->EdgesChanged()]. *)
Definition emit_EdgesChanged (p : NodeIOPtr) (g : Graph) : Graph :=
  {| rows := rows g; edges := edges g;
     emitted := emitted g ++ [EdgesChanged p] |}.

(** [std::make_shared<NodeEdge>(out, inp)]: a new object at an address no
    edge allocated so far has. *)
Definition make_shared (out inp : NodeIOPtr) (g : Graph) : NodeEdgePtr * Graph :=
  let edge := fresh (dom (edges g)) in
  (edge, {| rows := rows g;
            edges := <[edge := mkEdge out inp]> (edges g);
            emitted := emitted g |}).

Definition DisconnectEdge (edge : NodeEdgePtr) (g : Graph) : option Graph :=
  ed ← edges g !! edge;
  let out := output ed in
  let inp := input ed in
  g1 ← remove_edge out edge g;
  g2 ← remove_edge inp edge g1;
  Some (emit_EdgesChanged out g2).

(** [ConnectEdge(output, input)]; the two arguments are [output0] and
    [input0], and [out], [inp] are the two local variables after the swap. *)
Definition ConnectEdge (output0 input0 : NodeIOPtr) (g : Graph) : option Graph :=
  o ← rows g !! output0;
  i ← rows g !! input0;
  (* Make sure one is an output and one is an input *)
  Q_ASSERT (negb (eqb (IsNodeInput o) (IsNodeInput i)))
    (* Swap them if necessary *)
    (let '(out, inp) :=
       if IsNodeOutput i then (input0, output0) else (output0, input0) in
     ri ← rows g !! inp;
     (* Inputs can only have one edge, so we disconnect it here if there is one *)
     g1 ← match node_edges_ ri with
          | first :: _ => DisconnectEdge first g
          | [] => Some g
          end;
     let '(edge, g2) := make_shared out inp g1 in
     g3 ← append_edge out edge g2;
     g4 ← append_edge inp edge g3;
     Some (emit_EdgesChanged out g4)).

(** A call of one of the two graph methods. *)
Inductive GraphCall :=
| CallConnectEdge (output0 input0 : NodeIOPtr)
| CallDisconnectEdge (edge : NodeEdgePtr).

Definition graph_call (c : GraphCall) (g : Graph) : option Graph :=
  match c with
  | CallConnectEdge a b => ConnectEdge a b g
  | CallDisconnectEdge e => DisconnectEdge e g
  end.

Fixpoint graph_calls (cs : list GraphCall) (g : Graph) : option Graph :=
  match cs with
  | [] => Some g
  | c :: cs' =>
      match graph_call c g with
      | Some g' => graph_calls cs' g'
      | None => None
      end
  end.

(** The edges registered on row [p] ([p->edges()]); empty for an unknown row. *)
Definition edges_of (p : NodeIOPtr) (g : Graph) : list NodeEdgePtr :=
  match rows g !! p with
  | Some r => node_edges_ r
  | None => []
  end.

(** The signal of the edge that [ConnectEdge] replaces, when the row that
    ends up as the input already has one. *)
Definition replaced_signal (inp : NodeIOPtr) (g : Graph) : list Signal :=
  match edges_of inp g with
  | first :: _ =>
      match edges g !! first with
      | Some ed => [EdgesChanged (output ed)]
      | None => []
      end
  | [] => []
  end.

(** A row is classified when it is an input or an output, and not both. *)
Definition classified (r : NodeIO) : Prop :=
  IsNodeInput r = negb (IsNodeOutput r).

(** The state of a graph all of whose rows are classified: every edge a row
    has registered is an allocated edge with that row as an endpoint, and an
    input row has at most one edge. *)
Record single_input (g : Graph) : Prop := {
  rows_classified : ∀ p r, rows g !! p = Some r → classified r;
  edges_incident : ∀ p r e,
    rows g !! p = Some r → e ∈ node_edges_ r →
    ∃ ed, edges g !! e = Some ed ∧ (output ed = p ∨ input ed = p);
  input_single : ∀ p r,
    rows g !! p = Some r → IsNodeInput r = true →
    (length (node_edges_ r) ≤ 1)%nat
}.

(** The rows after [DisconnectEdge]: the two endpoints lose the edge, the
    other rows are as before. *)
Definition disconnected (e : NodeEdgePtr) (ed : NodeEdge) (p : NodeIOPtr)
    (r : NodeIO) : NodeIO :=
  if decide (p = output ed ∨ p = input ed)
  then set_node_edges (removeAll e (node_edges_ r)) r
  else r.


(** ** [long] arithmetic *)

Module Long.

Definition LONG_MIN : Z := - 2 ^ 63.
Definition LONG_MAX : Z := 2 ^ 63 - 1.

(** The 64-bit two's complement value of [z]. *)
Definition wrap (z : Z) : Z := (z + 2 ^ 63) mod 2 ^ 64 - 2 ^ 63.

Definition add (a b : Z) : Z := wrap (a + b).
Definition sub (a b : Z) : Z := wrap (a - b).

End Long.

(** ** Jumping to the neighbouring keyframe *)

(** The argument of [panel_sequence_viewer->seek], when the method calls it. *)
Definition SeekRequest := option Z.

(** The body of the inner loop of [GoToPreviousKeyframe], over the keyframes
    of one field. *)
Definition previous_in_field (time_adjustment sequence_playhead : Z)
    (key : Z) (f : EffectField) : Z :=
  fold_left (λ key k,
      let comp := Long.add (time k) time_adjustment in
      if comp <? sequence_playhead then Z.max comp key else key)
    (keyframes f) key.

Definition GoToPreviousKeyframe (r : NodeIO) : SeekRequest :=
  let c := parent_clip (parent r) in
  let sequence_playhead := playhead c in
  let time_adjustment := Long.sub (timeline_in c) (clip_in c) in
  let key :=
    fold_left (previous_in_field time_adjustment sequence_playhead)
      (fields_ r) Long.LONG_MIN in
  if negb (key =? Long.LONG_MIN) then Some key else None.

Definition next_in_field (c : Clip) (key : Z) (f : EffectField) : Z :=
  fold_left (λ key k,
      let comp := Long.add (Long.sub (time k) (clip_in c)) (timeline_in c) in
      if comp >? playhead c then Z.min comp key else key)
    (keyframes f) key.

Definition GoToNextKeyframe (r : NodeIO) : SeekRequest :=
  let c := parent_clip (parent r) in
  let key := fold_left (next_in_field c) (fields_ r) Long.LONG_MAX in
  if negb (key =? Long.LONG_MAX) then Some key else None.

(** The sequence frame of a keyframe stored at clip frame [t]: what both
    methods compute in [comp]. *)
Definition converted (c : Clip) (t : Z) : Z :=
  Long.add t (Long.sub (timeline_in c) (clip_in c)).

(** The converted times of all keyframes of all fields of the row. *)
Definition converted_times (r : NodeIO) : list Z :=
  flat_map (λ f, map (λ k, converted (parent_clip (parent r)) (time k))
                     (keyframes f))
           (fields_ r).

(** One round of each search, on a converted time. *)
Definition previous_step (ph key comp : Z) : Z :=
  if comp <? ph then Z.max comp key else key.

Definition next_step (ph key comp : Z) : Z :=
  if comp >? ph then Z.min comp key else key.

(** ** The undo journal *)

(** The commands that end up in the transactions of nodeio.cpp. A field is
    named by its index in [fields_]. [KeyframeDataChange] holds the keyframes
    of the field when the command was made and when [SetNewKeyframes] was
    called. [KeyframingConversion] stands for the undoable step that
    [EffectField::PrepareDataForKeyframing] records, with the field before
    and after the conversion. *)
Inductive UndoCommand :=
| SetIsKeyframing (b : bool)
| KeyframeDelete (field : nat) (index : nat)
| KeyframeDataChange (field : nat) (old_keys new_keys : list EffectKeyframe)
| KeyframingConversion (field : nat) (before after : EffectField).

Definition ComboAction := list UndoCommand.

(** A row together with [olive::undo_stack] (oldest transaction first) and
    the signals the row has emitted. *)
Record World := mkWorld {
  row : NodeIO;
  undo_stack : list ComboAction;
  signals : list Signal
}.

Definition with_row (r : NodeIO) (w : World) : World :=
  {| row := r; undo_stack := undo_stack w; signals := signals w |}.

Definition SetKeyframingInternal (b : bool) (w : World) : World :=
  if negb (bool_decide (type (parent (row w)) = EFFECT_TYPE_TRANSITION)) then
    {| row := set_keyframing b (row w);
       undo_stack := undo_stack w;
       signals := signals w ++ [KeyframingSetChanged b] |}
  else w.

Definition IsKeyframing (r : NodeIO) : bool := keyframing_ r.
Definition IsKeyframable (r : NodeIO) : bool := keyframable_ r.
Definition IsSavable (r : NodeIO) : bool := savable_ r.
Definition FieldCount (r : NodeIO) : nat := length (fields_ r).

Definition set_keyframes (ks : list EffectKeyframe) (f : EffectField) : EffectField :=
  {| keyframes := ks; persistent_data := persistent_data f;
     field_enabled := field_enabled f |}.

(** [QVector::removeAt(i)]; the index must be in range. *)
Definition removeAt {A} (i : nat) (l : list A) : option (list A) :=
  if bool_decide (i < length l)%nat then Some (delete i l) else None.

(** Modelled from the spec: the apply-step of each command, which is part of
    undo/undo.h and not of nodeio.cpp. [SetIsKeyframing] flips the flag of
    the row through [SetKeyframingInternal], [KeyframeDelete] removes the
    keyframe at its index, the two data changes leave the field as it was
    recorded after the change. *)
Definition redo (cmd : UndoCommand) (w : World) : option World :=
  match cmd with
  | SetIsKeyframing b => Some (SetKeyframingInternal b w)
  | KeyframeDelete field index =>
      f ← fields_ (row w) !! field;
      ks ← removeAt index (keyframes f);
      Some (with_row (set_fields (<[field := set_keyframes ks f]> (fields_ (row w)))
                                 (row w)) w)
  | KeyframeDataChange field _ new_keys =>
      f ← fields_ (row w) !! field;
      Some (with_row (set_fields (<[field := set_keyframes new_keys f]> (fields_ (row w)))
                                 (row w)) w)
  | KeyframingConversion field _ after =>
      _ ← fields_ (row w) !! field;
      Some (with_row (set_fields (<[field := after]> (fields_ (row w))) (row w)) w)
  end.

Fixpoint redo_all (ca : ComboAction) (w : World) : option World :=
  match ca with
  | [] => Some w
  | cmd :: ca' =>
      match redo cmd w with
      | Some w' => redo_all ca' w'
      | None => None
      end
  end.

(** Modelled from the spec: [olive::undo_stack.push], part of
    undo/undostack.h. The pushed transaction is applied, its commands in
    order, and appended to the journal. *)
Definition push (ca : ComboAction) (w : World) : option World :=
  w' ← redo_all ca w;
  Some {| row := row w'; undo_stack := undo_stack w' ++ [ca];
          signals := signals w' |}.

(** ** Fields *)

Section Fields.

(** The value between two neighbouring keyframes, which is the field's own
    setting (linear, hold, ...). *)
Variable interpolate : EffectKeyframe → EffectKeyframe → Z → QVariant.

(** Modelled from the spec: the part of [EffectField::GetValueAt] after the
    first keyframe [prev], over the later keyframes [ks]. *)
Fixpoint value_after (prev : EffectKeyframe) (ks : list EffectKeyframe)
    (t : Z) : QVariant :=
  match ks with
  | [] => data prev
  | k :: ks' =>
      if t =? time k then data k
      else if t <? time k then interpolate prev k t
      else value_after k ks' t
  end.

(** Modelled from the spec: [EffectField::GetValueAt], part of
    effectfield.cpp. [keyframing] is the flag of the owning row. Without
    keyframing, or without keyframes, the static value; at a keyframe its
    value; before the first and after the last keyframe their values;
    between two keyframes the interpolated value. *)
Definition Field_GetValueAt (keyframing : bool) (f : EffectField) (t : Z) : QVariant :=
  if negb keyframing then persistent_data f
  else match keyframes f with
       | [] => persistent_data f
       | k :: ks => if t <=? time k then data k else value_after k ks t
       end.

(** Modelled from the spec: the keyframes after [EffectField::SetValueAt] on
    a keyframing row; the keyframe at [t] is overwritten in place, or a new
    one is inserted where the times stay in increasing order. *)
Fixpoint write_keyframe (t : Z) (v : QVariant) (ks : list EffectKeyframe)
    : list EffectKeyframe :=
  match ks with
  | [] => [mkKeyframe t v]
  | k :: ks' =>
      if t =? time k then mkKeyframe t v :: ks'
      else if t <? time k then mkKeyframe t v :: k :: ks'
      else k :: write_keyframe t v ks'
  end.

(** Modelled from the spec: [EffectField::SetValueAt], part of
    effectfield.cpp. Without keyframing the static value is overwritten; with
    keyframing the keyframe at [t] is inserted or overwritten. *)
Definition Field_SetValueAt (keyframing : bool) (f : EffectField) (t : Z)
    (v : QVariant) : EffectField :=
  if negb keyframing then
    {| keyframes := keyframes f; persistent_data := v;
       field_enabled := field_enabled f |}
  else set_keyframes (write_keyframe t v (keyframes f)) f.

(** Modelled from the spec: the data change of
    [EffectField::PrepareDataForKeyframing], part of effectfield.cpp. To
    start keyframing the static value becomes a single keyframe at the
    current time; to stop, the keyframes are dropped and the static value
    becomes the value at the current time. *)
Definition prepared_field (enabled keyframing : bool) (now : Z)
    (f : EffectField) : EffectField :=
  if enabled then
    set_keyframes [mkKeyframe now (persistent_data f)] f
  else
    {| keyframes := [];
       persistent_data := Field_GetValueAt keyframing f now;
       field_enabled := field_enabled f |}.

(** Modelled from the spec: what [EffectField::PrepareDataForKeyframing],
    part of effectfield.cpp, does to its field and to [ca], inside the loop
    [for i: Field(i)->PrepareDataForKeyframing(enabled, ca)] of nodeio.cpp
    over the fields from index [i] on. The field is converted as in
    [prepared_field]; the spec has the conversion recorded as an undoable
    step, taken here as one command appended to [ca]. How many commands the
    absent method really appends is not known from nodeio.cpp. *)
Fixpoint PrepareDataForKeyframing_from (enabled keyframing : bool) (now : Z)
    (i : nat) (fs : list EffectField) (ca : ComboAction)
    : list EffectField * ComboAction :=
  match fs with
  | [] => ([], ca)
  | f :: fs' =>
      let f' := prepared_field enabled keyframing now f in
      let '(rest, ca') :=
        PrepareDataForKeyframing_from enabled keyframing now (S i) fs'
          (ca ++ [KeyframingConversion i f f']) in
      (f' :: rest, ca')
  end.

(** [enabled] is the argument; [answer_yes] tells whether the question
    "Disable Keyframes" is answered with Yes, and is only looked at on the
    path that asks. The repaint request [update_ui(false)] has no effect on
    the state modelled here. *)
Definition SetKeyframingEnabled (enabled answer_yes : bool) (w : World)
    : option World :=
  let r := row w in
  if eqb enabled (keyframing_ r) then Some w
  else if enabled then
    (* Enable keyframing setting on this row *)
    let ca := [SetIsKeyframing true] in
    (* Prepare each field's data to start keyframing *)
    let '(fs, ca) :=
      PrepareDataForKeyframing_from true (keyframing_ r) (Now (parent r)) 0
        (fields_ r) ca in
    push ca (with_row (set_fields fs r) w)
  else if answer_yes then
    (* Prepare each field's data to stop keyframing *)
    let '(fs, ca) :=
      PrepareDataForKeyframing_from false (keyframing_ r) (Now (parent r)) 0
        (fields_ r) [] in
    (* Disable keyframing setting on this row *)
    let ca := ca ++ [SetIsKeyframing false] in
    push ca (with_row (set_fields fs r) w)
  else Some (SetKeyframingInternal true w).

(** The loop of [SetKeyframeOnAllFields] over the fields from index [i] on.
    [kdc] is made before the field is written and completed by
    [SetNewKeyframes] after it. The repaint request
    [panel_effect_controls->update_keyframes()] has no effect on the state
    modelled here. *)
Fixpoint SetKeyframeOnAllFields_from (keyframing : bool) (now : Z)
    (i : nat) (fs : list EffectField) (ca : ComboAction)
    : list EffectField * ComboAction :=
  match fs with
  | [] => ([], ca)
  | field :: fs' =>
      let field' :=
        Field_SetValueAt keyframing field now
          (Field_GetValueAt keyframing field now) in
      let kdc := KeyframeDataChange i (keyframes field) (keyframes field') in
      let '(rest, ca') :=
        SetKeyframeOnAllFields_from keyframing now (S i) fs' (ca ++ [kdc]) in
      (field' :: rest, ca')
  end.

Definition SetKeyframeOnAllFields (ca : ComboAction) (r : NodeIO)
    : NodeIO * ComboAction :=
  let '(fs, ca') :=
    SetKeyframeOnAllFields_from (keyframing_ r) (Now (parent r)) 0
      (fields_ r) ca in
  (set_fields fs r, ca').

(** The inner loop of the search of [ToggleKeyframe]: the keyframes of field
    [j] from index [i] on. [found] stands for the two vectors [key_fields]
    and [key_field_index], which grow together. *)
Fixpoint keys_at_playhead_in (time_adjustment sequence_playhead : Z)
    (j i : nat) (ks : list EffectKeyframe) (found : list (nat * nat))
    : list (nat * nat) :=
  match ks with
  | [] => found
  | k :: ks' =>
      let comp := Long.add (time k) time_adjustment in
      keys_at_playhead_in time_adjustment sequence_playhead j (S i) ks'
        (if comp =? sequence_playhead then found ++ [(j, i)] else found)
  end.

(** The outer loop, over the fields from index [j] on. *)
Fixpoint keys_at_playhead (time_adjustment sequence_playhead : Z)
    (j : nat) (fs : list EffectField) (found : list (nat * nat))
    : list (nat * nat) :=
  match fs with
  | [] => found
  | f :: fs' =>
      keys_at_playhead time_adjustment sequence_playhead (S j) fs'
        (keys_at_playhead_in time_adjustment sequence_playhead j 0
           (keyframes f) found)
  end.

(** One round of the sorting loop: [x] goes before the first entry with a
    smaller index, or to the end when there is none. *)
Fixpoint insert_sorted (x : nat * nat) (sorted : list (nat * nat))
    : list (nat * nat) :=
  match sorted with
  | [] => [x]
  | y :: rest =>
      if (y.2 <? x.2)%nat then x :: y :: rest
      else y :: insert_sorted x rest
  end.

Definition sort_reverse (found : list (nat * nat)) : list (nat * nat) :=
  fold_left (λ sorted x, insert_sorted x sorted) found [].

(** [ToggleKeyframe]; as in [SetKeyframingEnabled], [update_ui(false)] is
    left out. *)
Definition ToggleKeyframe (w : World) : option World :=
  let r := row w in
  let c := parent_clip (parent r) in
  let sequence_playhead := playhead c in
  let time_adjustment := Long.sub (timeline_in c) (clip_in c) in
  (* See if any keyframes on any fields are at the current time *)
  let found :=
    keys_at_playhead time_adjustment sequence_playhead 0 (fields_ r) [] in
  match found with
  | [] =>
      (* If we didn't find any current keyframes, create one for each field *)
      let '(r', ca) := SetKeyframeOnAllFields [] r in
      push ca (with_row r' w)
  | _ :: _ =>
      (* If we DID find keyframes at this time, delete them *)
      let ca := map (λ x, KeyframeDelete x.1 x.2) (sort_reverse found) in
      push ca w
  end.

(** *** The remaining methods of the row *)

(** [AddField]. The two [connect] calls, which relay the field's [Clicked]
    and [Changed] signals as signals of the row, are not modelled: the
    fields emit in code outside nodeio.cpp, and the log of signals holds
    only what nodeio.cpp emits itself. *)
Definition AddField (f : EffectField) (r : NodeIO) : NodeIO :=
  set_fields (fields_ r ++ [f]) r.

Definition GetValueAt (timecode : Z) (r : NodeIO) : option QVariant :=
  Q_ASSERT (bool_decide (FieldCount r = 1%nat))
    (f ← fields_ r !! 0%nat;
     Some (Field_GetValueAt (keyframing_ r) f timecode)).

Definition SetValueAt (timecode : Z) (value : QVariant) (r : NodeIO)
    : option NodeIO :=
  Q_ASSERT (bool_decide (FieldCount r = 1%nat))
    (f ← fields_ r !! 0%nat;
     Some (set_fields
             (<[0%nat := Field_SetValueAt (keyframing_ r) f timecode value]>
                (fields_ r)) r)).

Definition SetEnabled (enabled : bool) (r : NodeIO) : NodeIO :=
  set_fields
    (map (λ f, {| keyframes := keyframes f;
                  persistent_data := persistent_data f;
                  field_enabled := enabled |}) (fields_ r)) r.

(** A call of a method of the row that can change its fields or its
    keyframing flag. *)
Inductive RowCall :=
| CallAddField (f : EffectField)
| CallSetEnabled (enabled : bool)
| CallSetValueAt (timecode : Z) (value : QVariant)
| CallSetKeyframingInternal (b : bool)
| CallSetKeyframingEnabled (enabled answer_yes : bool)
| CallToggleKeyframe.

Definition row_call (c : RowCall) (w : World) : option World :=
  match c with
  | CallAddField f => Some (with_row (AddField f (row w)) w)
  | CallSetEnabled b => Some (with_row (SetEnabled b (row w)) w)
  | CallSetValueAt t v => r ← SetValueAt t v (row w); Some (with_row r w)
  | CallSetKeyframingInternal b => Some (SetKeyframingInternal b w)
  | CallSetKeyframingEnabled enabled answer_yes =>
      SetKeyframingEnabled enabled answer_yes w
  | CallToggleKeyframe => ToggleKeyframe w
  end.

Fixpoint row_calls (cs : list RowCall) (w : World) : option World :=
  match cs with
  | [] => Some w
  | c :: cs' =>
      match row_call c w with
      | Some w' => row_calls cs' w'
      | None => None
      end
  end.

End Fields.

(** A row as constructed, with an empty journal and no signal emitted. *)
Definition World_new (p : OldEffectNode) (id name : string)
    (savable keyframable : bool) : World :=
  {| row := NodeIO_new p id name savable keyframable;
     undo_stack := []; signals := [] |}.

(** ** Descriptions used in the statements about keyframing *)

Section FieldsDescribed.

Variable interpolate : EffectKeyframe → EffectKeyframe → Z → QVariant.

(** The commands recorded by the loop over [PrepareDataForKeyframing], for
    the fields from index [i] on. *)
Fixpoint conversions (enabled keyframing : bool) (now : Z) (i : nat)
    (fs : list EffectField) : ComboAction :=
  match fs with
  | [] => []
  | f :: fs' =>
      KeyframingConversion i f
        (prepared_field interpolate enabled keyframing now f)
      :: conversions enabled keyframing now (S i) fs'
  end.

(** A field after [SetValueAt(Now(), GetValueAt(Now()))]. *)
Definition keyed_now (keyframing : bool) (now : Z) (f : EffectField) : EffectField :=
  Field_SetValueAt keyframing f now (Field_GetValueAt interpolate keyframing f now).

(** The commands recorded by [SetKeyframeOnAllFields], for the fields from
    index [i] on. *)
Fixpoint data_changes (keyframing : bool) (now : Z) (i : nat)
    (fs : list EffectField) : ComboAction :=
  match fs with
  | [] => []
  | f :: fs' =>
      KeyframeDataChange i (keyframes f) (keyframes (keyed_now keyframing now f))
      :: data_changes keyframing now (S i) fs'
  end.

End FieldsDescribed.

(** A command that records a change the fields [fs] already show. *)
Definition recorded (fs : list EffectField) (cmd : UndoCommand) : Prop :=
  match cmd with
  | KeyframeDataChange i _ new_keys =>
      ∃ f, fs !! i = Some f ∧ keyframes f = new_keys
  | KeyframingConversion i _ after => fs !! i = Some after
  | _ => False
  end.

(** The keyframe of [ks] is at the playhead of the clip. *)
Definition at_playhead (c : Clip) (k : EffectKeyframe) : bool :=
  converted c (time k) =? playhead c.

(** The indices, counted from [i], of the keyframes of [ks] that are at the
    playhead, in increasing order. *)
Fixpoint positions_at_playhead (c : Clip) (i : nat) (ks : list EffectKeyframe)
    : list nat :=
  match ks with
  | [] => []
  | k :: ks' =>
      if at_playhead c k then i :: positions_at_playhead c (S i) ks'
      else positions_at_playhead c (S i) ks'
  end.

(** A field without its keyframes at the playhead. *)
Definition without_playhead (c : Clip) (f : EffectField) : EffectField :=
  set_keyframes (filter (λ k, at_playhead c k = false) (keyframes f)) f.

(** The indices of the commands of [ca] that delete a keyframe of field [j],
    in the order of [ca]. *)
Definition deleted_in (j : nat) (ca : ComboAction) : list nat :=
  flat_map (λ cmd, match cmd with
                   | KeyframeDelete field index =>
                       if bool_decide (field = j) then [index] else []
                   | _ => []
                   end) ca.

(** The pairs the search of [ToggleKeyframe] collects in the fields from
    index [j] on: field by field, the keyframes at the playhead. *)
Fixpoint found_from (c : Clip) (j : nat) (fs : list EffectField)
    : list (nat * nat) :=
  match fs with
  | [] => []
  | f :: fs' =>
      map (pair j) (positions_at_playhead c 0 (keyframes f))
      ++ found_from c (S j) fs'
  end.

(** The keyframe indices that the pairs [ps] hold for field [j]. *)
Definition indices_of (j : nat) (ps : list (nat * nat)) : list nat :=
  flat_map (λ x, if bool_decide (x.1 = j) then [x.2] else []) ps.

(** [removeAt] for each index of [ns] in turn. *)
Fixpoint delete_seq {A} (ns : list nat) (ks : list A) : option (list A) :=
  match ns with
  | [] => Some ks
  | i :: ns' =>
      match removeAt i ks with
      | Some ks' => delete_seq ns' ks'
      | None => None
      end
  end.

(** What applying [KeyframeDelete] for each pair of [ps] in turn does to
    the fields. *)
Fixpoint delete_keys (ps : list (nat * nat)) (fs : list EffectField)
    : option (list EffectField) :=
  match ps with
  | [] => Some fs
  | x :: ps' =>
      match fs !! x.1 with
      | Some f =>
          match removeAt x.2 (keyframes f) with
          | Some ks => delete_keys ps' (<[x.1 := set_keyframes ks f]> fs)
          | None => None
          end
      | None => None
      end
  end.

(** What no method changes: the parent and the [keyframable] flag; and the
    keyframing flag of a row of a transition. *)
Definition kept (w w' : World) : Prop :=
  parent (row w') = parent (row w) ∧
  keyframable_ (row w') = keyframable_ (row w) ∧
  (type (parent (row w)) = EFFECT_TYPE_TRANSITION →
   keyframing_ (row w') = keyframing_ (row w)).

(** ** Rows and graphs used in the examples *)

Definition example_clip : Clip :=
  {| timeline_in := 0; clip_in := 0; playhead := 10 |}.

Definition example_effect : OldEffectNode :=
  {| type := EFFECT_TYPE_OTHER 0; parent_clip := example_clip; Now := 10 |}.

Definition example_transition : OldEffectNode :=
  {| type := EFFECT_TYPE_TRANSITION; parent_clip := example_clip; Now := 10 |}.

(** A row as constructed: neither an input nor an output. *)
Definition unclassified_row : NodeIO :=
  NodeIO_new example_effect "row" "Row" true true.

(** The row after [AddAcceptedNodeInput(kDataType 0)]. *)
Definition input_row : NodeIO :=
  set_accepted_inputs [kDataType 0] unclassified_row.

(** The row after [SetOutputDataType(kDataType 0)]. *)
Definition output_row : NodeIO :=
  set_output_type (kDataType 0) unclassified_row.

(** The addresses of five rows. *)
Definition row_A : NodeIOPtr := 0%nat.
Definition row_U1 : NodeIOPtr := 1%nat.
Definition row_U2 : NodeIOPtr := 2%nat.
Definition row_B : NodeIOPtr := 3%nat.
Definition row_C : NodeIOPtr := 4%nat.

(** Row A is an input, rows U1 and U2 are unclassified, rows B and C are
    outputs; no edge yet. *)
Definition example_graph : Graph :=
  {| rows := <[row_A := input_row]> (<[row_U1 := unclassified_row]>
             (<[row_U2 := unclassified_row]> (<[row_B := output_row]>
             (<[row_C := output_row]> ∅))));
     edges := ∅;
     emitted := [] |}.

(** The interpolation that holds the value of the earlier keyframe. *)
Definition hold : EffectKeyframe → EffectKeyframe → Z → QVariant :=
  λ prev _ _, data prev.

Definition field_with_times (ts : list Z) : EffectField :=
  {| keyframes := map (λ t, mkKeyframe t 0) ts;
     persistent_data := 0; field_enabled := true |}.

(** A row on a clip at [timeline_in = 0], [clip_in = 0] whose fields hold
    keyframes at the given times, with the playhead at [ph]. *)
Definition row_with_times (ph : Z) (tss : list (list Z)) : NodeIO :=
  set_fields (map field_with_times tss)
    (NodeIO_new {| type := EFFECT_TYPE_OTHER 0;
                   parent_clip := {| timeline_in := 0; clip_in := 0;
                                     playhead := ph |};
                   Now := ph |}
                "row" "Row" true true).

(** A world whose row has one field with the static value 3 and belongs to
    the given effect, constructed with the given [keyframable] flag. *)
Definition one_field_world (p : OldEffectNode) (keyframable : bool) : World :=
  {| row := AddField {| keyframes := []; persistent_data := 3;
                        field_enabled := true |}
                     (NodeIO_new p "row" "Row" true keyframable);
     undo_stack := []; signals := [] |}.

(** ** Further accessors of the row *)

(** [Field(i)], that is [fields_.at(i)]: the index must be in range. *)
Definition Field (i : nat) (r : NodeIO) : option EffectField := fields_ r !! i.

(** [name()]. *)
Definition name (r : NodeIO) : string := name_ r.

(** [edges()]. *)
Definition edges_copy (r : NodeIO) : list NodeEdgePtr := node_edges_ r.

(** [GetParentEffect()]. *)
Definition GetParentEffect (r : NodeIO) : OldEffectNode := parent r.

(** [AddField] for each field of [fs] in turn. *)
Definition add_fields (fs : list EffectField) (r : NodeIO) : NodeIO :=
  fold_left (λ r f, AddField f r) fs r.

(** The number of [AddField] calls among [cs]. *)
Fixpoint added_fields (cs : list RowCall) : nat :=
  match cs with
  | [] => 0%nat
  | CallAddField _ :: cs' => S (added_fields cs')
  | _ :: cs' => added_fields cs'
  end.

(** ** Descriptions used in the statements about the graph *)

(** A graph on which no edge has been made yet. *)
Definition edge_free (g : Graph) : Prop :=
  edges g = ∅ ∧ ∀ p r, rows g !! p = Some r → node_edges_ r = [].

(** The bookkeeping of edges: an edge on the vector of a row is an allocated
    edge that has the row as an endpoint and is there once; an allocated edge
    is on the vector of its output exactly when it is on the vector of its
    input; no edge runs from a row to itself. *)
Record registered (g : Graph) : Prop := {
  reg_incident : ∀ p r e,
    rows g !! p = Some r → e ∈ node_edges_ r →
    ∃ ed, edges g !! e = Some ed ∧ (output ed = p ∨ input ed = p);
  reg_once : ∀ p r, rows g !! p = Some r → NoDup (node_edges_ r);
  reg_both : ∀ e ed,
    edges g !! e = Some ed →
    (e ∈ edges_of (output ed) g ↔ e ∈ edges_of (input ed) g);
  reg_no_loop : ∀ e ed, edges g !! e = Some ed → output ed ≠ input ed
}.

(** ** Descriptions used in the statements about navigation *)

(** The row with the playhead of the sequence at [ph]. *)
Definition row_at_playhead (ph : Z) (r : NodeIO) : NodeIO :=
  {| parent :=
       {| type := type (parent r);
          parent_clip :=
            {| timeline_in := timeline_in (parent_clip (parent r));
               clip_in := clip_in (parent_clip (parent r));
               playhead := ph |};
          Now := Now (parent r) |};
     id_ := id_ r; name_ := name_ r;
     keyframable_ := keyframable_ r; keyframing_ := keyframing_ r;
     savable_ := savable_ r;
     output_type_ := output_type_ r; accepted_inputs_ := accepted_inputs_ r;
     node_edges_ := node_edges_ r; fields_ := fields_ r |}.

(** The order the sorting loop of [ToggleKeyframe] produces: the keyframe
    index does not grow. *)
Definition index_ge (x y : nat * nat) : Prop := (y.2 ≤ x.2)%nat.

(** Every row of [g] is still there in [g'], with the same members except,
    possibly, its edge vector; and no row was added. *)
Definition framed (g g' : Graph) : Prop :=
  ∀ p, match rows g !! p with
       | Some r => ∃ l, rows g' !! p = Some (set_node_edges l r)
       | None => rows g' !! p = None
       end.

(** The rows [ConnectEdge(a, b)] ends up treating as the output and as the
    input, after its swap. *)
Definition output_side (a b : NodeIOPtr) (g : Graph) : NodeIOPtr :=
  match rows g !! b with
  | Some i => if IsNodeOutput i then b else a
  | None => a
  end.

Definition input_side (a b : NodeIOPtr) (g : Graph) : NodeIOPtr :=
  match rows g !! b with
  | Some i => if IsNodeOutput i then a else b
  | None => b
  end.

(** The row with its clip moved by [d] frames on the timeline, and the
    playhead moved along with it. *)
Definition moved_by (d : Z) (r : NodeIO) : NodeIO :=
  {| parent :=
       {| type := type (parent r);
          parent_clip :=
            {| timeline_in := timeline_in (parent_clip (parent r)) + d;
               clip_in := clip_in (parent_clip (parent r));
               playhead := playhead (parent_clip (parent r)) + d |};
          Now := Now (parent r) |};
     id_ := id_ r; name_ := name_ r;
     keyframable_ := keyframable_ r; keyframing_ := keyframing_ r;
     savable_ := savable_ r;
     output_type_ := output_type_ r; accepted_inputs_ := accepted_inputs_ r;
     node_edges_ := node_edges_ r; fields_ := fields_ r |}.

(** The clip frames of all keyframes of all fields of the row. *)
Definition stored_times (r : NodeIO) : list Z :=
  flat_map (λ f, map time (keyframes f)) (fields_ r).

(** The endpoints of every allocated edge are rows of the graph. *)
Definition endpoints_exist (g : Graph) : Prop :=
  ∀ e ed, edges g !! e = Some ed →
    is_Some (rows g !! output ed) ∧ is_Some (rows g !! input ed).

(** Every allocated edge runs from an output row to an input row. *)
Definition directed (g : Graph) : Prop :=
  ∀ e ed, edges g !! e = Some ed →
    ∃ ro ri, rows g !! output ed = Some ro ∧ rows g !! input ed = Some ri ∧
             IsNodeOutput ro = true ∧ IsNodeInput ri = true.

(** * Proofs *)

(** ** Classification *)

Section Classification.

Lemma exclusive_new p id name savable keyframable :
  exclusive (NodeIO_new p id name savable keyframable).
Proof. unfold exclusive, IsNodeInput; simpl. intros [H _]. done. Qed.

Lemma classify_exclusive c r r' :
  exclusive r → classify c r = Some r' → exclusive r'.
Proof.
  unfold exclusive, IsNodeInput, IsNodeOutput.
  destruct c as [t|t]; simpl;
    unfold AddAcceptedNodeInput, SetOutputDataType, Q_ASSERT;
    intros Hex Hstep; case_bool_decide as Hg; simplify_eq; simpl.
  - rewrite Hg. intros [_ H]. by rewrite bool_decide_eq_true_2 in H.
  - rewrite Hg. intros [H _]. by rewrite bool_decide_eq_true_2 in H.
Qed.

Lemma classify_all_exclusive cs : ∀ r r',
  exclusive r → classify_all cs r = Some r' → exclusive r'.
Proof.
  induction cs as [|c cs IH]; simpl; intros r r' Hex Hrun.
  - by simplify_eq.
  - destruct (classify c r) as [r1|] eqn:Hstep; [|done].
    eapply IH; [|exact Hrun]. by eapply classify_exclusive.
Qed.

End Classification.

(** C3: from construction on, whatever sequence of AddAcceptedNodeInput and
    SetOutputDataType calls a row goes through without aborting, it is never
    an input and an output at once; adding an accepted input aborts on a row
    whose output type is set, and setting the output type aborts on a row
    whose accepted inputs are not empty. *)
Theorem C3_never_input_and_output :
  (∀ p id name savable keyframable cs r,
      classify_all cs (NodeIO_new p id name savable keyframable) = Some r →
      ¬ (IsNodeInput r = true ∧ IsNodeOutput r = true))
  ∧ (∀ t r, IsNodeOutput r = true → AddAcceptedNodeInput t r = None)
  ∧ (∀ t r, IsNodeInput r = true → SetOutputDataType t r = None).
Proof.
  split; [|split].
  - intros p id name savable keyframable cs r Hrun.
    eapply classify_all_exclusive; [|exact Hrun]. apply exclusive_new.
  - intros t r. unfold IsNodeOutput, AddAcceptedNodeInput, Q_ASSERT.
    by case_bool_decide.
  - intros t r. unfold IsNodeInput, SetOutputDataType, Q_ASSERT.
    by case_bool_decide.
Qed.

Lemma C3_never_input_and_output_witness :
  classify_all [CallAddAcceptedNodeInput (kDataType 0);
                CallAddAcceptedNodeInput (kDataType 1)] unclassified_row
    = Some (set_accepted_inputs [kDataType 0; kDataType 1] unclassified_row) ∧
  ¬ (IsNodeInput (set_accepted_inputs [kDataType 0; kDataType 1] unclassified_row) = true ∧
     IsNodeOutput (set_accepted_inputs [kDataType 0; kDataType 1] unclassified_row) = true) ∧
  SetOutputDataType (kDataType 0) input_row = None.
Proof.
  split; [reflexivity|]. split.
  - apply (proj1 C3_never_input_and_output example_effect "row" "Row" true true
             [CallAddAcceptedNodeInput (kDataType 0);
              CallAddAcceptedNodeInput (kDataType 1)]).
    reflexivity.
  - apply (proj2 (proj2 C3_never_input_and_output)). reflexivity.
Defined.

(** ** The connection graph *)

Section GraphFacts.

Implicit Types (g : Graph) (p : NodeIOPtr) (e : NodeEdgePtr) (r : NodeIO).

Lemma input_row_reachable :
  AddAcceptedNodeInput (kDataType 0) unclassified_row = Some input_row.
Proof. reflexivity. Qed.

Lemma output_row_reachable :
  SetOutputDataType (kDataType 0) unclassified_row = Some output_row.
Proof. reflexivity. Qed.

(** The assertion of [ConnectEdge] rejects two inputs and two rows that are
    both not inputs. *)
Lemma ConnectEdge_same_side_aborts a b g ra rb :
  rows g !! a = Some ra → rows g !! b = Some rb →
  IsNodeInput ra = IsNodeInput rb →
  ConnectEdge a b g = None.
Proof.
  intros Ha Hb Heq. unfold ConnectEdge. rewrite Ha, Hb. simpl.
  rewrite Heq. by destruct (IsNodeInput rb).
Qed.

Lemma remove_edge_emitted p e g g' :
  remove_edge p e g = Some g' → emitted g' = emitted g ∧ edges g' = edges g.
Proof.
  unfold remove_edge. intros H.
  destruct (rows g !! p); simplify_eq/=; done.
Qed.

Lemma append_edge_emitted p e g g' :
  append_edge p e g = Some g' → emitted g' = emitted g ∧ edges g' = edges g.
Proof.
  unfold append_edge. intros H.
  destruct (rows g !! p); simplify_eq/=; done.
Qed.

Lemma DisconnectEdge_emitted e g g' :
  DisconnectEdge e g = Some g' →
  ∃ ed, edges g !! e = Some ed ∧
        emitted g' = emitted g ++ [EdgesChanged (output ed)] ∧
        edges g' = edges g.
Proof.
  unfold DisconnectEdge. intros H.
  destruct (edges g !! e) as [ed|] eqn:Hed; simplify_eq/=.
  destruct (remove_edge (output ed) e g) as [g1|] eqn:H1; simplify_eq/=.
  destruct (remove_edge (input ed) e g1) as [g2|] eqn:H2; simplify_eq/=.
  apply remove_edge_emitted in H1 as [E1 F1].
  apply remove_edge_emitted in H2 as [E2 F2].
  exists ed. split; [done|]. split; [by rewrite E2, E1 | by rewrite F2, F1].
Qed.

(** What a successful [ConnectEdge] leaves behind: one new edge between the
    two arguments, and the signals of the output sides only. *)
Lemma ConnectEdge_emitted a b g g' :
  ConnectEdge a b g = Some g' →
  ∃ o i edge out inp,
    rows g !! a = Some o ∧ rows g !! b = Some i ∧
    IsNodeInput o ≠ IsNodeInput i ∧
    (out, inp) = (if IsNodeOutput i then (b, a) else (a, b)) ∧
    edges g !! edge = None ∧
    edges g' = <[edge := mkEdge out inp]> (edges g) ∧
    emitted g' = emitted g ++ replaced_signal inp g ++ [EdgesChanged out].
Proof.
  unfold ConnectEdge. intros H.
  destruct (rows g !! a) as [o|] eqn:Ha; simplify_eq/=.
  destruct (rows g !! b) as [i|] eqn:Hb; simplify_eq/=.
  unfold Q_ASSERT in H.
  destruct (negb (eqb (IsNodeInput o) (IsNodeInput i))) eqn:Hx; [|done].
  destruct (if IsNodeOutput i then (b, a) else (a, b)) as [out inp] eqn:Hpr.
  destruct (rows g !! inp) as [ri|] eqn:Hri; simplify_eq/=.
  destruct (match node_edges_ ri with
            | [] => Some g | first :: _ => DisconnectEdge first g end)
    as [g1|] eqn:Hg1; simplify_eq/=.
  destruct (append_edge out _ _) as [g3|] eqn:H3; simplify_eq/=.
  destruct (append_edge inp _ g3) as [g4|] eqn:H4; simplify_eq/=.
  apply append_edge_emitted in H3 as [E3 F3].
  apply append_edge_emitted in H4 as [E4 F4]. simpl in *.
  assert (Hg1' : edges g1 = edges g ∧
                 emitted g1 = emitted g ++ replaced_signal inp g).
  { unfold replaced_signal, edges_of. rewrite Hri.
    destruct (node_edges_ ri) as [|first l].
    - simplify_eq. by rewrite app_nil_r.
    - apply DisconnectEdge_emitted in Hg1 as (ed & Hed & E & F).
      by rewrite Hed. }
  destruct Hg1' as [F1 E1].
  exists o, i, (fresh (dom (edges g1))), out, inp.
  split; [done|]. split; [done|].
  split; [by destruct (IsNodeInput o), (IsNodeInput i)|].
  split; [done|].
  split.
  { rewrite F1. apply not_elem_of_dom, is_fresh. }
  split.
  { by rewrite F4, F3, F1. }
  by rewrite E4, E3, E1, <- app_assoc.
Qed.

End GraphFacts.

(** C2: the assertion of ConnectEdge lets an unclassified row through.
    Connecting the freshly constructed row U1 to the input row A succeeds,
    and the edge it creates has row U1, which is neither an input nor an
    output, as its output endpoint. *)
Theorem C2_edge_with_unclassified_endpoint :
  IsNodeInput unclassified_row = false ∧
  IsNodeOutput unclassified_row = false ∧
  rows example_graph !! row_U1 = Some unclassified_row ∧
  (edges <$> ConnectEdge row_U1 row_A example_graph)
    = Some {[ 0%nat := {| output := row_U1; input := row_A |} ]}.
Proof. repeat split; vm_compute; reflexivity. Qed.

(** C1: through the same gap an input row collects two edges. Row A is an
    input and rows U1 and U2 are unclassified; after ConnectEdge(A, U1) and
    ConnectEdge(A, U2) the edge vector of row A holds both new edges. *)
Theorem C1_input_row_with_two_edges :
  IsNodeInput input_row = true ∧
  rows example_graph !! row_A = Some input_row ∧
  (edges_of row_A <$>
     graph_calls [CallConnectEdge row_A row_U1; CallConnectEdge row_A row_U2]
       example_graph)
    = Some [0%nat; 1%nat].
Proof. repeat split; vm_compute; reflexivity. Qed.

(** C7 as stated fails: after ConnectEdge(B, A), where row B is the output
    and row A the input, the only signal emitted is the one of row B; the
    following DisconnectEdge of that edge again signals row B only. *)
Lemma C7_input_side_not_notified :
  (emitted <$> ConnectEdge row_B row_A example_graph)
    = Some [EdgesChanged row_B] ∧
  (emitted <$> graph_calls [CallConnectEdge row_B row_A; CallDisconnectEdge 0%nat]
                 example_graph)
    = Some [EdgesChanged row_B; EdgesChanged row_B] ∧
  ¬ (∀ a b g g', ConnectEdge a b g = Some g' →
       EdgesChanged a ∈ emitted g' ∧ EdgesChanged b ∈ emitted g').
Proof.
  split; [vm_compute; reflexivity|].
  split; [vm_compute; reflexivity|].
  intros H.
  destruct (ConnectEdge row_B row_A example_graph) as [g'|] eqn:Hc;
    [|vm_compute in Hc; discriminate].
  destruct (H _ _ _ _ Hc) as [_ Hin].
  vm_compute in Hc. simplify_eq. simpl in Hin.
  apply list_elem_of_singleton in Hin. discriminate.
Qed.

(** C7, amended: ConnectEdge and DisconnectEdge notify the observers of the
    output endpoint only. DisconnectEdge emits EdgesChanged of the edge's
    output row and nothing else; ConnectEdge emits, after the signal of the
    edge it replaces (if the input row had one), EdgesChanged of the new
    edge's output row and nothing else. *)
Theorem C7_output_side_notified :
  (∀ e g g', DisconnectEdge e g = Some g' →
     ∃ ed, edges g !! e = Some ed ∧
           emitted g' = emitted g ++ [EdgesChanged (output ed)])
  ∧ (∀ a b g g', ConnectEdge a b g = Some g' →
     ∃ edge out inp,
       (out = a ∧ inp = b ∨ out = b ∧ inp = a) ∧
       edges g !! edge = None ∧
       edges g' !! edge = Some {| output := out; input := inp |} ∧
       emitted g' = emitted g ++ replaced_signal inp g ++ [EdgesChanged out]).
Proof.
  split.
  - intros e g g' H.
    apply DisconnectEdge_emitted in H as (ed & Hed & E & _). eauto.
  - intros a b g g' H.
    apply ConnectEdge_emitted in H
      as (o & i & edge & out & inp & _ & _ & _ & Hs & Hf & He & Hm).
    exists edge, out, inp. rewrite He, lookup_insert_eq.
    split; [|done]. destruct (IsNodeOutput i); simplify_eq; auto.
Qed.

Lemma C7_output_side_notified_witness :
  ∃ g', ConnectEdge row_B row_A example_graph = Some g' ∧
        emitted g' = [EdgesChanged row_B].
Proof.
  destruct (ConnectEdge row_B row_A example_graph) as [g'|] eqn:Hc;
    [|vm_compute in Hc; discriminate].
  exists g'. split; [done|].
  destruct (proj2 C7_output_side_notified _ _ _ _ Hc)
    as (edge & out & inp & _ & _ & _ & Hm).
  rewrite Hm. vm_compute in Hc. by simplify_eq.
Defined.

(** C10: for a row that is an input and a row that is an output, neither
    being both, ConnectEdge gives the same result whichever of the two is
    passed first: the same edge, edge vectors and signals. *)
Theorem C10_ConnectEdge_symmetric a b g ra rb :
  rows g !! a = Some ra →
  rows g !! b = Some rb →
  ¬ (IsNodeInput ra = true ∧ IsNodeOutput ra = true) →
  ¬ (IsNodeInput rb = true ∧ IsNodeOutput rb = true) →
  (IsNodeInput ra = true ∧ IsNodeOutput rb = true) ∨
  (IsNodeOutput ra = true ∧ IsNodeInput rb = true) →
  ConnectEdge a b g = ConnectEdge b a g.
Proof.
  intros Ha Hb Xa Xb Hpre. unfold ConnectEdge.
  rewrite Ha, Hb. simpl.
  destruct (IsNodeInput ra) eqn:Ia, (IsNodeOutput ra) eqn:Oa,
           (IsNodeInput rb) eqn:Ib, (IsNodeOutput rb) eqn:Ob;
    simpl; try reflexivity; try (exfalso; tauto).
Qed.

Lemma C10_ConnectEdge_symmetric_witness :
  ConnectEdge row_A row_B example_graph = ConnectEdge row_B row_A example_graph ∧
  is_Some (ConnectEdge row_B row_A example_graph).
Proof.
  split.
  - apply (C10_ConnectEdge_symmetric row_A row_B example_graph input_row output_row);
      [reflexivity | reflexivity | | | ].
    + intros [_ H]. vm_compute in H. discriminate.
    + intros [H _]. vm_compute in H. discriminate.
    + left. split; reflexivity.
  - vm_compute. eauto.
Defined.

(** ** One edge per input row, in a graph of classified rows *)

Section SingleInput.

Implicit Types (g : Graph) (p : NodeIOPtr) (e : NodeEdgePtr) (r : NodeIO).

Lemma removeAll_idemp e (l : list NodeEdgePtr) :
  removeAll e (removeAll e l) = removeAll e l.
Proof.
  unfold removeAll. induction l as [|x l IH]; [done|].
  rewrite filter_cons. case_decide as Hx.
  - rewrite filter_cons. rewrite decide_True by done. by rewrite IH.
  - done.
Qed.

Lemma removeAll_elem e x (l : list NodeEdgePtr) :
  x ∈ removeAll e l ↔ x ∈ l ∧ x ≠ e.
Proof. unfold removeAll. rewrite list_elem_of_filter. tauto. Qed.

Lemma removeAll_length e (l : list NodeEdgePtr) :
  (length (removeAll e l) ≤ length l)%nat.
Proof. apply length_filter. Qed.

(** A vector of at most one element that starts with [e] is empty after
    [removeAll e]. *)
Lemma removeAll_first e (l l' : list NodeEdgePtr) :
  l = e :: l' → (length l ≤ 1)%nat → removeAll e l = [].
Proof.
  intros -> Hlen. destruct l'; [|simpl in Hlen; lia].
  unfold removeAll. rewrite filter_cons. by rewrite decide_False by tauto.
Qed.

Lemma DisconnectEdge_rows e g g' :
  DisconnectEdge e g = Some g' →
  ∃ ed, edges g !! e = Some ed ∧ edges g' = edges g ∧
        ∀ p, rows g' !! p = disconnected e ed p <$> rows g !! p.
Proof.
  unfold DisconnectEdge, remove_edge. intros H.
  destruct (edges g !! e) as [ed|] eqn:Hed; simplify_eq/=.
  destruct (rows g !! output ed) as [ro|] eqn:Ho; simplify_eq/=.
  exists ed. split; [done|].
  destruct (decide (input ed = output ed)) as [Heq|Hne].
  - rewrite Heq, lookup_insert_eq in H. simplify_eq/=.
    split; [done|]. intros p. unfold disconnected.
    rewrite insert_insert_eq. rewrite Heq.
    destruct (decide (p = output ed)) as [->|Hp].
    + rewrite lookup_insert_eq, Ho. simpl.
      rewrite decide_True by auto. by rewrite removeAll_idemp.
    + rewrite lookup_insert_ne by done.
      destruct (rows g !! p); simpl; [|done].
      by rewrite decide_False by tauto.
  - rewrite lookup_insert_ne in H by done.
    destruct (rows g !! input ed) as [ri|] eqn:Hi; simplify_eq/=.
    split; [done|]. intros p. unfold disconnected.
    destruct (decide (p = input ed)) as [->|Hpi].
    + rewrite lookup_insert_eq, Hi. simpl. by rewrite decide_True by auto.
    + rewrite lookup_insert_ne by done.
      destruct (decide (p = output ed)) as [->|Hpo].
      * rewrite lookup_insert_eq, Ho. simpl. by rewrite decide_True by auto.
      * rewrite lookup_insert_ne by done.
        destruct (rows g !! p); simpl; [|done].
        by rewrite decide_False by tauto.
Qed.

Lemma disconnected_class e ed p r :
  IsNodeInput (disconnected e ed p r) = IsNodeInput r ∧
  IsNodeOutput (disconnected e ed p r) = IsNodeOutput r.
Proof. unfold disconnected. by case_decide. Qed.

Lemma disconnected_edges e ed p r x :
  x ∈ node_edges_ (disconnected e ed p r) → x ∈ node_edges_ r.
Proof.
  unfold disconnected. case_decide; simpl; [|done].
  rewrite removeAll_elem. tauto.
Qed.

Lemma disconnected_length e ed p r :
  (length (node_edges_ (disconnected e ed p r)) ≤ length (node_edges_ r))%nat.
Proof.
  unfold disconnected. case_decide; simpl; [|done]. apply removeAll_length.
Qed.

Lemma DisconnectEdge_single_input e g g' :
  single_input g → DisconnectEdge e g = Some g' → single_input g'.
Proof.
  intros [Hc Hi Hs] H.
  apply DisconnectEdge_rows in H as (ed & Hed & He & Hr).
  split.
  - intros p r' Hp. rewrite Hr in Hp.
    destruct (rows g !! p) as [r|] eqn:Hgp; simplify_eq/=.
    unfold classified.
    destruct (disconnected_class e ed p r) as [-> ->]. by eapply Hc.
  - intros p r' x Hp Hx. rewrite Hr in Hp.
    destruct (rows g !! p) as [r|] eqn:Hgp; simplify_eq/=.
    rewrite He. eapply Hi; [done|]. by eapply disconnected_edges.
  - intros p r' Hp Hin. rewrite Hr in Hp.
    destruct (rows g !! p) as [r|] eqn:Hgp; simplify_eq/=.
    destruct (disconnected_class e ed p r) as [Hcl _]. rewrite Hcl in Hin.
    etrans; [apply disconnected_length|]. by eapply Hs.
Qed.

Lemma append_edge_rows p e g g' :
  append_edge p e g = Some g' →
  ∃ r, rows g !! p = Some r ∧ edges g' = edges g ∧
       rows g' = <[p := set_node_edges (node_edges_ r ++ [e]) r]> (rows g).
Proof.
  unfold append_edge. intros H.
  destruct (rows g !! p) as [r|]; simplify_eq/=. eauto.
Qed.

(** The step of [ConnectEdge] before the new edge is made leaves the row
    that becomes the input without an edge, if that row is an input. *)
Lemma input_cleared inp ri g g1 :
  single_input g →
  rows g !! inp = Some ri →
  match node_edges_ ri with
  | first :: _ => DisconnectEdge first g
  | [] => Some g
  end = Some g1 →
  single_input g1 ∧
  ∃ ri1, rows g1 !! inp = Some ri1 ∧
         IsNodeInput ri1 = IsNodeInput ri ∧
         IsNodeOutput ri1 = IsNodeOutput ri ∧
         (IsNodeInput ri = true → node_edges_ ri1 = []).
Proof.
  intros Hinv Hri Hg1.
  destruct (node_edges_ ri) as [|first l] eqn:Hl.
  - simplify_eq. split; [done|]. exists ri. by rewrite Hl.
  - split; [by eapply DisconnectEdge_single_input|].
    pose proof Hg1 as Hg1'.
    apply DisconnectEdge_rows in Hg1 as (ed & Hed & He & Hr).
    exists (disconnected first ed inp ri).
    rewrite Hr, Hri. split; [done|].
    destruct (disconnected_class first ed inp ri) as [-> ->].
    split; [done|]. split; [done|]. intros Hin.
    destruct Hinv as [_ Hi Hs].
    destruct (Hi inp ri first Hri) as (ed' & Hed' & Hend).
    { rewrite Hl. apply list_elem_of_here. }
    simplify_eq. unfold disconnected.
    rewrite decide_True by (destruct Hend; auto). simpl.
    eapply removeAll_first; [exact Hl|]. by eapply Hs.
Qed.

Lemma ConnectEdge_single_input a b g g' :
  single_input g → ConnectEdge a b g = Some g' → single_input g'.
Proof.
  intros Hinv H. unfold ConnectEdge in H.
  destruct (rows g !! a) as [o|] eqn:Ha; simplify_eq/=.
  destruct (rows g !! b) as [i|] eqn:Hb; simplify_eq/=.
  unfold Q_ASSERT in H.
  destruct (negb (eqb (IsNodeInput o) (IsNodeInput i))) eqn:Hx; [|done].
  pose proof (rows_classified g Hinv a o Ha) as Co.
  pose proof (rows_classified g Hinv b i Hb) as Ci.
  unfold classified in Co, Ci.
  (* after the swap [out] is not an input and [inp] is one *)
  assert (∃ out inp ro ri,
    (if IsNodeOutput i then (b, a) else (a, b)) = (out, inp) ∧
    rows g !! out = Some ro ∧ rows g !! inp = Some ri ∧
    IsNodeInput ro = false ∧ IsNodeInput ri = true ∧ out ≠ inp)
    as (out & inp & ro & ri & Hsw & Hro & Hri & Iro & Iri & Hne).
  { destruct (IsNodeOutput i) eqn:Oi; simpl in Ci.
    - exists b, a, i, o. rewrite Ci in Hx. destruct (IsNodeInput o) eqn:Io;
        [|done]. repeat split; try done. intros ->. congruence.
    - exists a, b, o, i. rewrite Ci in Hx. destruct (IsNodeInput o) eqn:Io;
        [done|]. repeat split; try done. intros ->. congruence. }
  rewrite Hsw in H. rewrite Hri in H. simpl in H.
  destruct (match node_edges_ ri with
            | [] => Some g | first :: _ => DisconnectEdge first g end)
    as [g1|] eqn:Hg1; simplify_eq/=.
  destruct (input_cleared inp ri g g1 Hinv Hri Hg1)
    as (Hinv1 & ri1 & Hri1 & Iri1 & Ori1 & Hempty).
  specialize (Hempty Iri).
  destruct (append_edge out _ _) as [g3|] eqn:H3; simplify_eq/=.
  destruct (append_edge inp _ g3) as [g4|] eqn:H4; simplify_eq/=.
  apply append_edge_rows in H3 as (ro1 & Hro1 & F3 & R3). simpl in *.
  apply append_edge_rows in H4 as (ri3 & Hri3 & F4 & R4).
  rewrite R3, lookup_insert_ne in Hri3 by done.
  assert (ri3 = ri1) as -> by congruence.
  set (edge := fresh (dom (edges g1))) in *.
  assert (Hfresh : edges g1 !! edge = None)
    by apply not_elem_of_dom, is_fresh.
  (* the class of [out] is the one it had before the disconnection *)
  assert (Iro1 : IsNodeInput ro1 = false).
  { destruct (node_edges_ ri) as [|first l]; [by simplify_eq|].
    apply DisconnectEdge_rows in Hg1 as (ed & _ & _ & Hr).
    rewrite Hr, Hro in Hro1. simplify_eq/=.
    by destruct (disconnected_class first ed out ro) as [-> _]. }
  destruct Hinv1 as [Hc1 Hi1 Hs1].
  assert (Hrows : ∀ p r, rows g4 !! p = Some r →
    ∃ r1, rows g1 !! p = Some r1 ∧
          IsNodeInput r = IsNodeInput r1 ∧ IsNodeOutput r = IsNodeOutput r1 ∧
          node_edges_ r =
            if decide (p = out ∨ p = inp) then node_edges_ r1 ++ [edge]
            else node_edges_ r1).
  { intros p r Hp. rewrite R4, R3 in Hp.
    destruct (decide (p = inp)) as [->|Hpi].
    - rewrite lookup_insert_eq in Hp. simplify_eq/=.
      exists ri1. by rewrite decide_True by auto.
    - rewrite lookup_insert_ne in Hp by done.
      destruct (decide (p = out)) as [->|Hpo].
      + rewrite lookup_insert_eq in Hp. simplify_eq/=.
        exists ro1. by rewrite decide_True by auto.
      + rewrite lookup_insert_ne in Hp by done.
        exists r. by rewrite decide_False by tauto. }
  split.
  - intros p r Hp. destruct (Hrows p r Hp) as (r1 & Hp1 & Hin & Hout & _).
    unfold classified. rewrite Hin, Hout. by eapply Hc1.
  - intros p r x Hp Hx'.
    destruct (Hrows p r Hp) as (r1 & Hp1 & _ & _ & Hedges).
    simpl. rewrite F4, F3. simpl. rewrite Hedges in Hx'.
    assert (Hold : x ∈ node_edges_ r1 →
      ∃ ed, <[edge := {| output := out; input := inp |}]> (edges g1) !! x
              = Some ed ∧ (output ed = p ∨ input ed = p)).
    { intros Hx1. destruct (Hi1 p r1 x Hp1 Hx1) as (ed & Hed & Hend).
      exists ed. split; [|done].
      rewrite lookup_insert_ne; [done|]. intros <-. congruence. }
    case_decide as Hd.
    + apply elem_of_app in Hx' as [Hx1|Hx1]; [by apply Hold|].
      apply list_elem_of_singleton in Hx1 as ->.
      exists {| output := out; input := inp |}.
      rewrite lookup_insert_eq. split; [done|]. simpl.
      destruct Hd; auto.
    + by apply Hold.
  - intros p r Hp Hin.
    destruct (Hrows p r Hp) as (r1 & Hp1 & Hin1 & _ & Hedges).
    rewrite Hedges. rewrite Hin1 in Hin.
    case_decide as Hd.
    + destruct Hd as [->| ->].
      * congruence.
      * assert (r1 = ri1) as -> by congruence. by rewrite Hempty.
    + by eapply Hs1.
Qed.

(** In a graph of classified rows, no sequence of [ConnectEdge] and
    [DisconnectEdge] calls gives an input row a second edge. *)
Lemma graph_calls_single_input cs : ∀ g g',
  single_input g → graph_calls cs g = Some g' → single_input g'.
Proof.
  induction cs as [|c cs IH]; simpl; intros g g' Hinv Hrun.
  - by simplify_eq.
  - destruct (graph_call c g) as [g1|] eqn:Hc; [|done].
    eapply IH; [|exact Hrun].
    destruct c as [a b|e]; simpl in Hc.
    + by eapply ConnectEdge_single_input.
    + by eapply DisconnectEdge_single_input.
Qed.

(** On two classified rows the new edge runs from the output to the input. *)
Lemma ConnectEdge_endpoints a b g g' :
  single_input g → ConnectEdge a b g = Some g' →
  ∃ edge out inp ro ri,
    edges g !! edge = None ∧
    edges g' = <[edge := {| output := out; input := inp |}]> (edges g) ∧
    rows g !! out = Some ro ∧ rows g !! inp = Some ri ∧
    IsNodeOutput ro = true ∧ IsNodeInput ri = true.
Proof.
  intros Hinv H.
  apply ConnectEdge_emitted in H
    as (o & i & edge & out & inp & Ha & Hb & Hx & Hs & Hf & He & _).
  pose proof (rows_classified g Hinv a o Ha) as Co.
  pose proof (rows_classified g Hinv b i Hb) as Ci.
  unfold classified in Co, Ci.
  exists edge, out, inp.
  destruct (IsNodeOutput i) eqn:Oi, (IsNodeOutput o) eqn:Oo;
    simpl in Co, Ci; rewrite Co, Ci in Hx; try done; simplify_eq.
  - exists i, o. by rewrite Co.
  - exists o, i. by rewrite Ci.
Qed.

(** On classified rows the swap leaves the output in [out] and the input in
    [inp]. *)
Lemma normalized_sides a b g o i out inp :
  rows g !! a = Some o → rows g !! b = Some i →
  classified o → classified i →
  IsNodeInput o ≠ IsNodeInput i →
  (out, inp) = (if IsNodeOutput i then (b, a) else (a, b)) →
  ∃ ro ri, rows g !! out = Some ro ∧ rows g !! inp = Some ri ∧
           IsNodeOutput ro = true ∧ IsNodeInput ro = false ∧
           IsNodeInput ri = true ∧ IsNodeOutput ri = false ∧ out ≠ inp.
Proof.
  unfold classified. intros Ha Hb Co Ci Hx Hsw.
  destruct (IsNodeOutput i) eqn:Oi, (IsNodeOutput o) eqn:Oo;
    simpl in Co, Ci; rewrite Co, Ci in Hx; try done; simplify_eq.
  - exists i, o. rewrite Co, Ci, Oi, Oo. repeat split; try done.
    intros ->. congruence.
  - exists o, i. rewrite Co, Ci, Oi, Oo. repeat split; try done.
    intros ->. congruence.
Qed.

(** After [DisconnectEdge] no row of a well-formed graph still has the
    edge. *)
Lemma DisconnectEdge_gone e g g' p :
  single_input g → DisconnectEdge e g = Some g' → e ∉ edges_of p g'.
Proof.
  intros [_ Hi _] H.
  apply DisconnectEdge_rows in H as (ed & Hed & _ & Hr).
  unfold edges_of. rewrite Hr.
  destruct (rows g !! p) as [r|] eqn:Hp; simpl; [|apply not_elem_of_nil].
  unfold disconnected. case_decide as Hd; simpl.
  - rewrite removeAll_elem. tauto.
  - intros Hin. destruct (Hi p r e Hp Hin) as (ed' & Hed' & Hend).
    simplify_eq. destruct Hend; auto.
Qed.

(** Replace semantics: on a graph of classified rows, [ConnectEdge] leaves
    the input row with the new edge only, registers the new edge on the
    output row, and whatever edge the input row had before is on no row any
    more, the old output row included. *)
Lemma ConnectEdge_replaces a b g g' :
  single_input g → ConnectEdge a b g = Some g' →
  ∃ edge out inp,
    edges g !! edge = None ∧
    edges g' !! edge = Some {| output := out; input := inp |} ∧
    edges_of inp g' = [edge] ∧
    edge ∈ edges_of out g' ∧
    ∀ old p, old ∈ edges_of inp g → old ∉ edges_of p g'.
Proof.
  intros Hinv H.
  pose proof (ConnectEdge_emitted a b g g' H)
    as (o & i & edge & out & inp & Ha & Hb & Hx & Hsw & Hf & He & _).
  destruct (normalized_sides a b g o i out inp Ha Hb
              (rows_classified g Hinv a o Ha) (rows_classified g Hinv b i Hb)
              Hx Hsw)
    as (ro & ri & Hro & Hri & Oro & Iro & Iri & Ori & Hne).
  unfold ConnectEdge in H. rewrite Ha, Hb in H. simpl in H.
  unfold Q_ASSERT in H.
  destruct (negb (eqb (IsNodeInput o) (IsNodeInput i))); [|done].
  rewrite <- Hsw in H. rewrite Hri in H. simpl in H.
  destruct (match node_edges_ ri with
            | [] => Some g | first :: _ => DisconnectEdge first g end)
    as [g1|] eqn:Hg1; simplify_eq/=.
  destruct (input_cleared inp ri g g1 Hinv Hri Hg1)
    as (Hinv1 & ri1 & Hri1 & _ & _ & Hempty).
  specialize (Hempty Iri).
  destruct (append_edge out _ _) as [g3|] eqn:H3; simplify_eq/=.
  destruct (append_edge inp _ g3) as [g4|] eqn:H4; simplify_eq/=.
  apply append_edge_rows in H3 as (ro1 & Hro1 & F3 & R3). simpl in *.
  apply append_edge_rows in H4 as (ri3 & Hri3 & F4 & R4).
  rewrite R3, lookup_insert_ne in Hri3 by done.
  assert (ri3 = ri1) as -> by congruence.
  assert (Hedge : edge = fresh (dom (edges g1))).
  { assert (Hl : <[edge := {| output := out; input := inp |}]> (edges g) !! edge
                 = edges g4 !! edge) by (by rewrite He).
    rewrite lookup_insert_eq, F4, F3 in Hl. simpl in Hl.
    destruct (decide (edge = fresh (dom (edges g1)))) as [|Hd]; [done|].
    rewrite lookup_insert_ne in Hl by done.
    assert (edges g1 = edges g) as Hg.
    { destruct (node_edges_ ri); [by simplify_eq|].
      by apply DisconnectEdge_rows in Hg1 as (? & _ & ? & _). }
    rewrite Hg, Hf in Hl. done. }
  exists edge, out, inp.
  split; [done|]. split; [by rewrite He, lookup_insert_eq|].
  split.
  { unfold edges_of. simpl. rewrite R4, lookup_insert_eq. simpl.
    by rewrite Hempty, Hedge. }
  split.
  { unfold edges_of. simpl. rewrite R4, lookup_insert_ne by done.
    rewrite R3, lookup_insert_eq. simpl. rewrite Hedge.
    apply elem_of_app. right. apply list_elem_of_here. }
  intros old p Hold. unfold edges_of in Hold. rewrite Hri in Hold.
  destruct (node_edges_ ri) as [|first l] eqn:Hl;
    [by apply elem_of_nil in Hold|].
  assert (l = []) as ->.
  { pose proof (input_single g Hinv inp ri Hri Iri) as Hlen.
    rewrite Hl in Hlen. destruct l; [done|simpl in Hlen; lia]. }
  apply list_elem_of_singleton in Hold as ->.
  pose proof (DisconnectEdge_gone first g g1 p Hinv Hg1) as Hgone.
  assert (Hfirst : first ≠ edge).
  { intros ->. apply DisconnectEdge_rows in Hg1 as (ed & Hed & _ & _).
    congruence. }
  unfold edges_of in Hgone |- *. simpl. rewrite R4, R3.
  destruct (decide (p = inp)) as [->|Hpi].
  - rewrite lookup_insert_eq. simpl. rewrite Hempty.
    intros Hin. apply list_elem_of_singleton in Hin. congruence.
  - rewrite lookup_insert_ne by done.
    destruct (decide (p = out)) as [->|Hpo].
    + rewrite lookup_insert_eq. simpl. rewrite Hro1 in Hgone.
      intros Hin. apply elem_of_app in Hin as [Hin|Hin]; [done|].
      apply list_elem_of_singleton in Hin. congruence.
    + by rewrite lookup_insert_ne by done.
Qed.

(** The graph of the examples without its unclassified rows. *)
Lemma classified_graph_single_input :
  single_input
    {| rows := <[row_A := input_row]> (<[row_B := output_row]>
               (<[row_C := output_row]> ∅));
       edges := ∅; emitted := [] |}.
Proof.
  split; simpl.
  - intros p r Hp.
    apply lookup_insert_Some in Hp as [[_ <-]|[_ Hp]]; [done|].
    apply lookup_insert_Some in Hp as [[_ <-]|[_ Hp]]; [done|].
    apply lookup_insert_Some in Hp as [[_ <-]|[_ Hp]]; [done|].
    by rewrite lookup_empty in Hp.
  - intros p r e Hp He.
    apply lookup_insert_Some in Hp as [[_ <-]|[_ Hp]];
      [by apply elem_of_nil in He|].
    apply lookup_insert_Some in Hp as [[_ <-]|[_ Hp]];
      [by apply elem_of_nil in He|].
    apply lookup_insert_Some in Hp as [[_ <-]|[_ Hp]];
      [by apply elem_of_nil in He|].
    by rewrite lookup_empty in Hp.
  - intros p r Hp _.
    apply lookup_insert_Some in Hp as [[_ <-]|[_ Hp]]; [simpl; lia|].
    apply lookup_insert_Some in Hp as [[_ <-]|[_ Hp]]; [simpl; lia|].
    apply lookup_insert_Some in Hp as [[_ <-]|[_ Hp]]; [simpl; lia|].
    by rewrite lookup_empty in Hp.
Qed.

(** The scenario of the spec: with input A and outputs B and C,
    ConnectEdge(B, A) then ConnectEdge(C, A) leaves A with the edge from C
    only and B without an edge. *)
Example connect_B_then_C :
  (λ g, (edges_of row_A g, edges_of row_B g, edges_of row_C g,
         edges g !! 1%nat)) <$>
    graph_calls [CallConnectEdge row_B row_A; CallConnectEdge row_C row_A]
      example_graph
  = Some ([1%nat], [], [1%nat], Some {| output := row_C; input := row_A |}).
Proof. vm_compute. reflexivity. Qed.

(** With an unclassified row, which the assertion lets through, the order
    of the arguments shows in the edge. *)
Example unclassified_not_symmetric :
  (edges <$> ConnectEdge row_U1 row_A example_graph)
    = Some {[ 0%nat := {| output := row_U1; input := row_A |} ]} ∧
  (edges <$> ConnectEdge row_A row_U1 example_graph)
    = Some {[ 0%nat := {| output := row_A; input := row_U1 |} ]}.
Proof. split; vm_compute; reflexivity. Qed.

End SingleInput.

(** ** Jumping to the neighbouring keyframe *)

Section Navigation.

Import Long.

Lemma wrap_range z : LONG_MIN ≤ wrap z ≤ LONG_MAX.
Proof.
  unfold wrap, LONG_MIN, LONG_MAX.
  pose proof (Z.mod_pos_bound (z + 2 ^ 63) (2 ^ 64) ltac:(lia)). lia.
Qed.

Lemma wrap_small z : LONG_MIN ≤ z ≤ LONG_MAX → wrap z = z.
Proof.
  unfold wrap, LONG_MIN, LONG_MAX. intros H.
  rewrite Z.mod_small by lia. lia.
Qed.

Lemma wrap_add_wrap_l a b : wrap (wrap a + b) = wrap (a + b).
Proof.
  unfold wrap. f_equal.
  replace ((a + 2 ^ 63) mod 2 ^ 64 - 2 ^ 63 + b + 2 ^ 63)
    with ((a + 2 ^ 63) mod 2 ^ 64 + b) by lia.
  rewrite Zplus_mod_idemp_l. f_equal. lia.
Qed.

Lemma wrap_add_wrap_r a b : wrap (a + wrap b) = wrap (a + b).
Proof. rewrite Z.add_comm, wrap_add_wrap_l. f_equal. lia. Qed.

(** The two methods convert a keyframe time in the same way, although they
    do the additions in a different order. *)
Lemma converted_next c t :
  add (sub t (clip_in c)) (timeline_in c) = converted c t.
Proof.
  unfold converted, add, sub.
  rewrite wrap_add_wrap_l, wrap_add_wrap_r. f_equal. lia.
Qed.

Lemma converted_range c t : LONG_MIN ≤ converted c t ≤ LONG_MAX.
Proof. apply wrap_range. Qed.

Lemma converted_times_range r t :
  t ∈ converted_times r → LONG_MIN ≤ t ≤ LONG_MAX.
Proof.
  unfold converted_times. rewrite list_elem_of_In, in_flat_map.
  intros (f & _ & Hin). apply in_map_iff in Hin as (k & <- & _).
  apply converted_range.
Qed.

Lemma previous_in_field_converted c key f :
  previous_in_field (sub (timeline_in c) (clip_in c)) (playhead c) key f
  = fold_left (previous_step (playhead c))
      (map (λ k, converted c (time k)) (keyframes f)) key.
Proof.
  unfold previous_in_field. revert key.
  induction (keyframes f) as [|k ks IH]; intros key; simpl; [done|].
  by rewrite IH.
Qed.

Lemma next_in_field_converted c key f :
  next_in_field c key f
  = fold_left (next_step (playhead c))
      (map (λ k, converted c (time k)) (keyframes f)) key.
Proof.
  unfold next_in_field. revert key.
  induction (keyframes f) as [|k ks IH]; intros key; simpl; [done|].
  by rewrite IH, converted_next.
Qed.

Lemma previous_key_converted r :
  fold_left (previous_in_field
               (sub (timeline_in (parent_clip (parent r)))
                    (clip_in (parent_clip (parent r))))
               (playhead (parent_clip (parent r))))
    (fields_ r) LONG_MIN
  = fold_left (previous_step (playhead (parent_clip (parent r))))
      (converted_times r) LONG_MIN.
Proof.
  unfold converted_times. generalize LONG_MIN.
  induction (fields_ r) as [|f fs IH]; intros key; simpl; [done|].
  by rewrite fold_left_app, IH, previous_in_field_converted.
Qed.

Lemma next_key_converted r :
  fold_left (next_in_field (parent_clip (parent r))) (fields_ r) LONG_MAX
  = fold_left (next_step (playhead (parent_clip (parent r))))
      (converted_times r) LONG_MAX.
Proof.
  unfold converted_times. generalize LONG_MAX.
  induction (fields_ r) as [|f fs IH]; intros key; simpl; [done|].
  by rewrite fold_left_app, IH, next_in_field_converted.
Qed.

(** The search for the previous keyframe keeps the largest time below the
    playhead seen so far. *)
Lemma previous_fold ph (l : list Z) : ∀ key,
  let res := fold_left (previous_step ph) l key in
  (res = key ∨ (res ∈ l ∧ res < ph)) ∧
  key ≤ res ∧
  (∀ t, t ∈ l → t < ph → t ≤ res).
Proof.
  induction l as [|x l IH]; intros key; simpl.
  - split; [by left|]. split; [lia|]. intros t Ht. by apply elem_of_nil in Ht.
  - destruct (IH (previous_step ph key x)) as (Hres & Hle & Hmax).
    unfold previous_step in Hres, Hle, Hmax |- * .
    destruct (Z.ltb_spec x ph) as [Hx|Hx].
    + split; [|split].
      * destruct Hres as [Hres|[Hin Hlt]].
        -- destruct (Z.max_spec x key) as [[_ Hm]|[_ Hm]];
             rewrite Hm in Hres, Hle, Hmax |- *.
           ++ by left.
           ++ right. rewrite Hres. split; [apply list_elem_of_here|done].
        -- right. split; [by apply list_elem_of_further|done].
      * lia.
      * intros t Ht Hlt. apply elem_of_cons in Ht as [->|Ht]; [lia|auto].
    + split; [|split].
      * destruct Hres as [Hres|[Hin Hlt]]; [by left|].
        right. split; [by apply list_elem_of_further|done].
      * lia.
      * intros t Ht Hlt. apply elem_of_cons in Ht as [->|Ht]; [lia|auto].
Qed.

Lemma next_fold ph (l : list Z) : ∀ key,
  let res := fold_left (next_step ph) l key in
  (res = key ∨ (res ∈ l ∧ ph < res)) ∧
  res ≤ key ∧
  (∀ t, t ∈ l → ph < t → res ≤ t).
Proof.
  induction l as [|x l IH]; intros key; simpl.
  - split; [by left|]. split; [lia|]. intros t Ht. by apply elem_of_nil in Ht.
  - destruct (IH (next_step ph key x)) as (Hres & Hle & Hmin).
    unfold next_step in Hres, Hle, Hmin |- * .
    destruct (Z.gtb_spec x ph) as [Hx|Hx].
    + split; [|split].
      * destruct Hres as [Hres|[Hin Hlt]].
        -- destruct (Z.min_spec x key) as [[_ Hm]|[_ Hm]];
             rewrite Hm in Hres, Hle, Hmin |- *.
           ++ right. rewrite Hres. split; [apply list_elem_of_here|lia].
           ++ by left.
        -- right. split; [by apply list_elem_of_further|done].
      * lia.
      * intros t Ht Hlt. apply elem_of_cons in Ht as [->|Ht]; [lia|auto].
    + split; [|split].
      * destruct Hres as [Hres|[Hin Hlt]]; [by left|].
        right. split; [by apply list_elem_of_further|done].
      * lia.
      * intros t Ht Hlt. apply elem_of_cons in Ht as [->|Ht]; [lia|auto].
Qed.

End Navigation.

(** The example of the spec: keyframes at 5, 10 and 15, in two fields, and
    the playhead at 10. *)
Example previous_of_5_10_15 :
  GoToPreviousKeyframe (row_with_times 10 [[5; 15]; [10]]) = Some 5.
Proof. reflexivity. Qed.

Example next_of_5_10_15 :
  GoToNextKeyframe (row_with_times 10 [[5; 15]; [10]]) = Some 15.
Proof. reflexivity. Qed.

(** C4: the searches miss a keyframe that sits on the value they start
    from. A keyframe whose converted time is LONG_MIN lies strictly before a
    playhead at 0 and is the maximum of such times, yet
    GoToPreviousKeyframe requests no seek, against its own comment "If we
    found a keyframe less than the playhead, jump to it"; likewise
    GoToNextKeyframe for a keyframe at LONG_MAX. *)
Lemma C4_sentinel_keyframe_not_reached :
  (converted_times (row_with_times 0 [[Long.LONG_MIN]]) = [Long.LONG_MIN] ∧
   Long.LONG_MIN < playhead (parent_clip (parent (row_with_times 0 [[Long.LONG_MIN]]))) ∧
   GoToPreviousKeyframe (row_with_times 0 [[Long.LONG_MIN]]) = None)
  ∧
  (converted_times (row_with_times 0 [[Long.LONG_MAX]]) = [Long.LONG_MAX] ∧
   playhead (parent_clip (parent (row_with_times 0 [[Long.LONG_MAX]]))) < Long.LONG_MAX ∧
   GoToNextKeyframe (row_with_times 0 [[Long.LONG_MAX]]) = None).
Proof. repeat split; vm_compute; reflexivity. Qed.

(** Away from the two starting values the searches find the neighbour:
    GoToPreviousKeyframe seeks to the maximum converted keyframe time, over
    all fields, that is strictly less than the playhead, as long as that
    time is not LONG_MIN, and GoToNextKeyframe to the minimum converted time
    strictly greater than the playhead, as long as it is not LONG_MAX. A
    keyframe at the playhead is the target of neither. *)
Theorem nearest_keyframe_off_sentinels r :
  let ph := playhead (parent_clip (parent r)) in
  match GoToPreviousKeyframe r with
  | Some key =>
      key ∈ converted_times r ∧ Long.LONG_MIN < key < ph ∧
      ∀ t, t ∈ converted_times r → t < ph → t ≤ key
  | None =>
      ∀ t, t ∈ converted_times r → ¬ (Long.LONG_MIN < t < ph)
  end ∧
  match GoToNextKeyframe r with
  | Some key =>
      key ∈ converted_times r ∧ ph < key < Long.LONG_MAX ∧
      ∀ t, t ∈ converted_times r → ph < t → key ≤ t
  | None =>
      ∀ t, t ∈ converted_times r → ¬ (ph < t < Long.LONG_MAX)
  end.
Proof.
  intros ph. split.
  - unfold GoToPreviousKeyframe. rewrite previous_key_converted. fold ph.
    destruct (previous_fold ph (converted_times r) Long.LONG_MIN)
      as (Hres & Hle & Hmax).
    destruct (Z.eqb_spec
      (fold_left (previous_step ph) (converted_times r) Long.LONG_MIN)
      Long.LONG_MIN) as [Heq|Hne]; simpl.
    + intros t Ht [Hlo Hhi]. specialize (Hmax t Ht Hhi). lia.
    + destruct Hres as [Hres|[Hin Hlt]]; [done|].
      split; [done|]. split; [lia|done].
  - unfold GoToNextKeyframe. rewrite next_key_converted. fold ph.
    destruct (next_fold ph (converted_times r) Long.LONG_MAX)
      as (Hres & Hle & Hmin).
    destruct (Z.eqb_spec
      (fold_left (next_step ph) (converted_times r) Long.LONG_MAX)
      Long.LONG_MAX) as [Heq|Hne]; simpl.
    + intros t Ht [Hlo Hhi]. specialize (Hmin t Ht Hlo). lia.
    + destruct Hres as [Hres|[Hin Hlt]]; [done|].
      split; [done|]. split; [lia|done].
Qed.

(** ** The keyframing switch *)

Section Keyframing.

Variable interpolate : EffectKeyframe → EffectKeyframe → Z → QVariant.

Implicit Types (w : World) (r : NodeIO) (f : EffectField) (ca : ComboAction).

Lemma with_row_id w : with_row (row w) w = w.
Proof. by destruct w. Qed.

Lemma set_fields_id r : set_fields (fields_ r) r = r.
Proof. by destruct r. Qed.

Lemma set_keyframes_id f : set_keyframes (keyframes f) f = f.
Proof. by destruct f. Qed.

Lemma set_keyframing_id r : set_keyframing (keyframing_ r) r = r.
Proof. by destruct r. Qed.

Lemma redo_all_app ca1 ca2 : ∀ w,
  redo_all (ca1 ++ ca2) w = redo_all ca1 w ≫= redo_all ca2.
Proof.
  induction ca1 as [|cmd ca1 IH]; intros w; simpl; [done|].
  destruct (redo cmd w); simpl; [apply IH|done].
Qed.

(** Applying a command whose change is already in the fields is a no-op. *)
Lemma redo_recorded cmd w :
  recorded (fields_ (row w)) cmd → redo cmd w = Some w.
Proof.
  destruct cmd as [b|j i|j old new|j before after]; simpl; try done.
  - intros (f & Hf & Hk). rewrite Hf. simpl. subst new.
    by rewrite set_keyframes_id, list_insert_id, set_fields_id, with_row_id.
  - intros Hf. rewrite Hf. simpl.
    by rewrite list_insert_id, set_fields_id, with_row_id.
Qed.

Lemma redo_all_recorded ca w :
  Forall (recorded (fields_ (row w))) ca → redo_all ca w = Some w.
Proof.
  induction 1 as [|cmd ca Hcmd _ IH]; simpl; [done|].
  by rewrite redo_recorded.
Qed.

Lemma PrepareDataForKeyframing_from_eq enabled keyframing now fs : ∀ i ca,
  PrepareDataForKeyframing_from interpolate enabled keyframing now i fs ca
  = (map (prepared_field interpolate enabled keyframing now) fs,
     ca ++ conversions interpolate enabled keyframing now i fs).
Proof.
  induction fs as [|f fs IH]; intros i ca; simpl.
  - by rewrite app_nil_r.
  - rewrite IH. by rewrite <- app_assoc.
Qed.

Lemma conversions_recorded enabled keyframing now fs : ∀ pre,
  Forall (recorded (pre ++ map (prepared_field interpolate enabled keyframing now) fs))
         (conversions interpolate enabled keyframing now (length pre) fs).
Proof.
  induction fs as [|f fs IH]; intros pre; simpl; constructor.
  - simpl. by rewrite list_lookup_middle.
  - specialize (IH (pre ++ [prepared_field interpolate enabled keyframing now f])).
    rewrite length_app in IH. simpl in IH.
    rewrite Nat.add_1_r, <- app_assoc in IH. exact IH.
Qed.

Lemma SetKeyframingInternal_transition b w :
  type (parent (row w)) = EFFECT_TYPE_TRANSITION →
  SetKeyframingInternal b w = w.
Proof.
  intros H. unfold SetKeyframingInternal. by rewrite H.
Qed.

Lemma SetKeyframingInternal_other b w :
  type (parent (row w)) ≠ EFFECT_TYPE_TRANSITION →
  SetKeyframingInternal b w =
    {| row := set_keyframing b (row w); undo_stack := undo_stack w;
       signals := signals w ++ [KeyframingSetChanged b] |}.
Proof.
  intros H. unfold SetKeyframingInternal.
  by rewrite bool_decide_eq_false_2.
Qed.

Lemma SetKeyframingInternal_fields b w :
  fields_ (row (SetKeyframingInternal b w)) = fields_ (row w) ∧
  undo_stack (SetKeyframingInternal b w) = undo_stack w ∧
  parent (row (SetKeyframingInternal b w)) = parent (row w) ∧
  keyframable_ (row (SetKeyframingInternal b w)) = keyframable_ (row w).
Proof. unfold SetKeyframingInternal. by case_bool_decide. Qed.

(** The enabling path: the fields are converted, the flag goes through
    [SetKeyframingInternal], one transaction is pushed. *)
Lemma SetKeyframingEnabled_enable answer_yes w :
  keyframing_ (row w) = false →
  let r := row w in
  let fs := map (prepared_field interpolate true false (Now (parent r))) (fields_ r) in
  let w1 := SetKeyframingInternal true (with_row (set_fields fs r) w) in
  SetKeyframingEnabled interpolate true answer_yes w =
    Some {| row := row w1;
            undo_stack := undo_stack w ++
              [SetIsKeyframing true ::
               conversions interpolate true false (Now (parent r)) 0 (fields_ r)];
            signals := signals w1 |}.
Proof.
  intros Hk. simpl. unfold SetKeyframingEnabled. rewrite Hk. simpl.
  rewrite PrepareDataForKeyframing_from_eq. unfold push. simpl.
  set (fs := map _ (fields_ (row w))).
  pose proof (SetKeyframingInternal_fields true
                (with_row (set_fields fs (row w)) w)) as (Hf & Hu & _).
  rewrite redo_all_recorded.
  - simpl. by rewrite Hu.
  - rewrite Hf. simpl.
    apply (conversions_recorded true false _ (fields_ (row w)) []).
Qed.

(** The disabling path when the question is answered with Yes. *)
Lemma SetKeyframingEnabled_disable w :
  keyframing_ (row w) = true →
  let r := row w in
  let fs := map (prepared_field interpolate false true (Now (parent r))) (fields_ r) in
  let w1 := SetKeyframingInternal false (with_row (set_fields fs r) w) in
  SetKeyframingEnabled interpolate false true w =
    Some {| row := row w1;
            undo_stack := undo_stack w ++
              [conversions interpolate false true (Now (parent r)) 0 (fields_ r)
               ++ [SetIsKeyframing false]];
            signals := signals w1 |}.
Proof.
  intros Hk. simpl. unfold SetKeyframingEnabled. rewrite Hk. simpl.
  rewrite PrepareDataForKeyframing_from_eq. unfold push. simpl.
  set (fs := map _ (fields_ (row w))).
  pose proof (SetKeyframingInternal_fields false
                (with_row (set_fields fs (row w)) w)) as (Hf & Hu & _).
  rewrite redo_all_app, redo_all_recorded.
  - simpl. by rewrite Hu.
  - simpl. apply (conversions_recorded false true _ (fields_ (row w)) []).
Qed.

(** The disabling path when the question is answered with No. *)
Lemma SetKeyframingEnabled_refused w :
  keyframing_ (row w) = true →
  SetKeyframingEnabled interpolate false false w
  = Some (SetKeyframingInternal true w).
Proof. intros Hk. unfold SetKeyframingEnabled. by rewrite Hk. Qed.

Lemma SetKeyframingEnabled_same b answer_yes w :
  keyframing_ (row w) = b →
  SetKeyframingEnabled interpolate b answer_yes w = Some w.
Proof.
  intros Hk. unfold SetKeyframingEnabled. rewrite Hk.
  by destruct b.
Qed.

End Keyframing.

Section KeyframingInvariant.

Variable interpolate : EffectKeyframe → EffectKeyframe → Z → QVariant.

Implicit Types (w : World) (r : NodeIO) (f : EffectField) (ca : ComboAction).

Lemma kept_refl w : kept w w.
Proof. by unfold kept. Qed.

Lemma kept_trans w1 w2 w3 : kept w1 w2 → kept w2 w3 → kept w1 w3.
Proof.
  unfold kept. intros (P1 & K1 & F1) (P2 & K2 & F2).
  rewrite P2, P1, K2, K1. split; [done|]. split; [done|].
  intros Ht. rewrite F2, F1; [done..|by rewrite P1].
Qed.

Lemma kept_fields fs w : kept w (with_row (set_fields fs (row w)) w).
Proof. by unfold kept. Qed.

Lemma SetKeyframingInternal_kept b w : kept w (SetKeyframingInternal b w).
Proof.
  unfold kept, SetKeyframingInternal. case_bool_decide as Ht; simpl; [|done].
  split; [done|]. split; [done|]. intros Ht'. congruence.
Qed.

Lemma redo_kept cmd w w' : redo cmd w = Some w' → kept w w'.
Proof.
  destruct cmd as [b|j i|j old new|j before after]; simpl; intros H.
  - simplify_eq. apply SetKeyframingInternal_kept.
  - destruct (fields_ (row w) !! j) as [f|]; simplify_eq/=.
    destruct (removeAt i (keyframes f)); simplify_eq/=. apply kept_fields.
  - destruct (fields_ (row w) !! j) as [f|]; simplify_eq/=. apply kept_fields.
  - destruct (fields_ (row w) !! j) as [f|]; simplify_eq/=. apply kept_fields.
Qed.

Lemma redo_all_kept ca : ∀ w w', redo_all ca w = Some w' → kept w w'.
Proof.
  induction ca as [|cmd ca IH]; simpl; intros w w' H.
  - simplify_eq. apply kept_refl.
  - destruct (redo cmd w) as [w1|] eqn:H1; [|done].
    eapply kept_trans; [by eapply redo_kept|by apply IH].
Qed.

Lemma push_kept ca w w' : push ca w = Some w' → kept w w'.
Proof.
  unfold push. intros H.
  destruct (redo_all ca w) as [w1|] eqn:H1; simplify_eq/=.
  apply redo_all_kept in H1. exact H1.
Qed.

Lemma SetKeyframingEnabled_kept enabled answer_yes w w' :
  SetKeyframingEnabled interpolate enabled answer_yes w = Some w' → kept w w'.
Proof.
  unfold SetKeyframingEnabled. intros H.
  destruct (eqb enabled (keyframing_ (row w))).
  { simplify_eq. apply kept_refl. }
  destruct enabled.
  - destruct (PrepareDataForKeyframing_from _ _ _ _ _ _ _) as [fs ca].
    apply push_kept in H. eapply kept_trans; [apply (kept_fields fs)|done].
  - destruct answer_yes.
    + destruct (PrepareDataForKeyframing_from _ _ _ _ _ _ _) as [fs ca].
      apply push_kept in H. eapply kept_trans; [apply (kept_fields fs)|done].
    + simplify_eq. apply SetKeyframingInternal_kept.
Qed.

Lemma ToggleKeyframe_kept w w' :
  ToggleKeyframe interpolate w = Some w' → kept w w'.
Proof.
  unfold ToggleKeyframe, SetKeyframeOnAllFields. intros H.
  destruct (keys_at_playhead _ _ _ _ _).
  - destruct (SetKeyframeOnAllFields_from _ _ _ _ _ _) as [fs ca].
    apply push_kept in H. eapply kept_trans; [apply (kept_fields fs)|done].
  - by apply push_kept in H.
Qed.

Lemma row_call_kept c w w' : row_call interpolate c w = Some w' → kept w w'.
Proof.
  destruct c as [f|b|t v|b|enabled answer_yes|]; simpl; intros H.
  - by simplify_eq.
  - by simplify_eq.
  - unfold SetValueAt, Q_ASSERT in H. case_bool_decide; simplify_eq/=.
    destruct (fields_ (row w) !! 0%nat); by simplify_eq/=.
  - simplify_eq. apply SetKeyframingInternal_kept.
  - by eapply SetKeyframingEnabled_kept.
  - by eapply ToggleKeyframe_kept.
Qed.

Lemma row_calls_kept cs : ∀ w w', row_calls interpolate cs w = Some w' → kept w w'.
Proof.
  induction cs as [|c cs IH]; simpl; intros w w' H.
  - simplify_eq. apply kept_refl.
  - destruct (row_call interpolate c w) as [w1|] eqn:H1; [|done].
    eapply kept_trans; [by eapply row_call_kept|by apply IH].
Qed.

End KeyframingInvariant.

(** C6: when SetKeyframingEnabled(false) is called on a row that is
    keyframing and the question is answered with No, the call returns with
    the keyframing flag at its prior value, every field (keyframes and
    static value) as before, and the undo journal as before; the row as a
    whole is unchanged. *)
Theorem C6_refused_disable_changes_nothing
    (interpolate : EffectKeyframe → EffectKeyframe → Z → QVariant) (w : World) :
  keyframing_ (row w) = true →
  ∃ w', SetKeyframingEnabled interpolate false false w = Some w' ∧
        keyframing_ (row w') = true ∧
        fields_ (row w') = fields_ (row w) ∧
        undo_stack w' = undo_stack w ∧
        row w' = row w.
Proof.
  intros Hk. rewrite SetKeyframingEnabled_refused by done.
  eexists. split; [done|].
  unfold SetKeyframingInternal. case_bool_decide; simpl; [done|].
  rewrite <- Hk. by rewrite set_keyframing_id.
Qed.

Lemma C6_refused_disable_changes_nothing_witness :
  ∃ w', SetKeyframingEnabled hold false false
          (with_row (set_keyframing true (row_with_times 10 [[5; 15]; [10]]))
                    (one_field_world example_effect true)) = Some w' ∧
        fields_ (row w') = fields_ (row_with_times 10 [[5; 15]; [10]]) ∧
        undo_stack w' = [].
Proof.
  destruct (C6_refused_disable_changes_nothing hold
              (with_row (set_keyframing true (row_with_times 10 [[5; 15]; [10]]))
                        (one_field_world example_effect true)))
    as (w' & Hw & _ & Hf & Hu & _); [reflexivity|].
  exists w'. split; [exact Hw|]. split; [exact Hf|exact Hu].
Defined.

(** C8 as stated fails: a row constructed with keyframable = false on an
    effect that is not a transition gets its keyframing flag set by
    SetKeyframingEnabled(true), and by SetKeyframingInternal(true). *)
Lemma C8_flag_set_on_non_keyframable_row :
  keyframable_ (row (one_field_world example_effect false)) = false ∧
  (keyframing_ ∘ row <$>
     SetKeyframingEnabled hold true false (one_field_world example_effect false))
    = Some true ∧
  keyframing_ (row (SetKeyframingInternal true
                      (one_field_world example_effect false))) = true.
Proof. repeat split; vm_compute; reflexivity. Qed.

(** C8, amended: for every row and every sequence of calls, the keyframing
    flag is true only if the owning effect is not a transition; the
    keyframable flag of the constructor is not consulted, and
    SetKeyframingEnabled(true) on a row of another effect that is not
    keyframing sets the flag whatever keyframable is. *)
Theorem C8_keyframing_only_outside_transitions
    (interpolate : EffectKeyframe → EffectKeyframe → Z → QVariant) :
  (∀ p id name savable keyframable cs w,
     row_calls interpolate cs (World_new p id name savable keyframable) = Some w →
     keyframing_ (row w) = true →
     type p ≠ EFFECT_TYPE_TRANSITION)
  ∧
  (∀ w answer_yes,
     type (parent (row w)) ≠ EFFECT_TYPE_TRANSITION →
     keyframing_ (row w) = false →
     ∃ w', SetKeyframingEnabled interpolate true answer_yes w = Some w' ∧
           keyframing_ (row w') = true ∧
           keyframable_ (row w') = keyframable_ (row w)).
Proof.
  split.
  - intros p id name savable keyframable cs w Hrun Hk Ht.
    apply row_calls_kept in Hrun as (_ & _ & Hflag).
    simpl in Hflag. rewrite Hflag in Hk by done. discriminate.
  - intros w answer_yes Ht Hk.
    rewrite SetKeyframingEnabled_enable by done.
    eexists. split; [done|]. simpl.
    rewrite SetKeyframingInternal_other by done. done.
Qed.

Lemma C8_keyframing_only_outside_transitions_witness :
  ∃ w', SetKeyframingEnabled hold true false
          (one_field_world example_effect false) = Some w' ∧
        keyframing_ (row w') = true ∧
        keyframable_ (row w') = false.
Proof.
  destruct (proj2 (C8_keyframing_only_outside_transitions hold)
              (one_field_world example_effect false) false)
    as (w' & Hw & Hk & Hkf); [vm_compute; congruence | reflexivity |].
  exists w'. split; [exact Hw|]. split; [exact Hk|exact Hkf].
Defined.

(** C9: on a row of a transition the enabling path is only half switched
    off. On a row of a transition that is not keyframing and whose journal is
    empty, SetKeyframingEnabled(true) leaves the flag false, as the test in
    SetKeyframingInternal wants, but it still builds its transaction, which
    begins with SetIsKeyframing(true), and pushes it: the journal holds one
    transaction afterwards. *)
Lemma C9_transition_enable_changes_state :
  type (parent (row (one_field_world example_transition true)))
    = EFFECT_TYPE_TRANSITION ∧
  keyframing_ (row (one_field_world example_transition true)) = false ∧
  undo_stack (one_field_world example_transition true) = [] ∧
  ∃ w' ca,
    SetKeyframingEnabled hold true false (one_field_world example_transition true)
      = Some w' ∧
    keyframing_ (row w') = false ∧
    undo_stack w' = [SetIsKeyframing true :: ca].
Proof.
  do 3 (split; [vm_compute; reflexivity|]).
  eexists _, _. split; [vm_compute; reflexivity|].
  split; vm_compute; reflexivity.
Qed.

(** What the transition test does achieve: on a row whose owning effect is
    a transition, SetKeyframingEnabled never changes the keyframing flag,
    and a request for the state the flag already has, or a disabling that is
    answered with No, changes nothing at all. An enabling request on a row
    that is not keyframing gets as far as the journal all the same. *)
Theorem transition_keeps_flag
    (interpolate : EffectKeyframe → EffectKeyframe → Z → QVariant)
    (w : World) (enabled answer_yes : bool) :
  type (parent (row w)) = EFFECT_TYPE_TRANSITION →
  ∃ w', SetKeyframingEnabled interpolate enabled answer_yes w = Some w' ∧
    keyframing_ (row w') = keyframing_ (row w) ∧
    (enabled = keyframing_ (row w) ∨ (enabled = false ∧ answer_yes = false) →
     w' = w) ∧
    (enabled = true → keyframing_ (row w) = false →
     fields_ (row w') =
       map (prepared_field interpolate true false (Now (parent (row w))))
           (fields_ (row w)) ∧
     undo_stack w' =
       undo_stack w ++
       [SetIsKeyframing true ::
        conversions interpolate true false (Now (parent (row w))) 0
          (fields_ (row w))]).
Proof.
  intros Ht.
  destruct (keyframing_ (row w)) eqn:Hk, enabled.
  - (* already keyframing *)
    rewrite SetKeyframingEnabled_same by done.
    exists w. rewrite Hk. repeat split; try done.
  - destruct answer_yes.
    + rewrite SetKeyframingEnabled_disable by done.
      eexists. split; [done|]. simpl.
      rewrite SetKeyframingInternal_transition by done. simpl.
      split; [done|]. split; [|done].
      intros [?|[_ ?]]; discriminate.
    + rewrite SetKeyframingEnabled_refused by done.
      rewrite SetKeyframingInternal_transition by done.
      exists w. rewrite Hk. repeat split; try done.
  - rewrite SetKeyframingEnabled_enable by done.
    eexists. split; [done|]. simpl.
    rewrite SetKeyframingInternal_transition by done. simpl.
    split; [done|]. split; [|done].
    intros [?|[? _]]; discriminate.
  - rewrite SetKeyframingEnabled_same by done.
    exists w. rewrite Hk. repeat split; try done.
Qed.

Lemma transition_keeps_flag_example :
  ∃ w', SetKeyframingEnabled hold true false
          (one_field_world example_transition true) = Some w' ∧
        keyframing_ (row w') = false.
Proof.
  destruct (transition_keeps_flag hold
              (one_field_world example_transition true) true false)
    as (w' & Hw & Hk & _); [reflexivity|].
  exists w'. split; [exact Hw|exact Hk].
Defined.

(** ** Toggling the keyframe at the playhead *)

Section Toggle.

Variable interpolate : EffectKeyframe → EffectKeyframe → Z → QVariant.

Implicit Types (w : World) (r : NodeIO) (f : EffectField) (ca : ComboAction)
  (c : Clip) (ks : list EffectKeyframe) (ps : list (nat * nat)).

(** *** The search *)

Lemma keys_at_playhead_in_eq c j ks : ∀ i found,
  keys_at_playhead_in (Long.sub (timeline_in c) (clip_in c)) (playhead c)
    j i ks found
  = found ++ map (pair j) (positions_at_playhead c i ks).
Proof.
  induction ks as [|k ks IH]; intros i found; simpl.
  - by rewrite app_nil_r.
  - rewrite IH. unfold at_playhead, converted.
    destruct (_ =? _); simpl; [by rewrite <- app_assoc|done].
Qed.

Lemma keys_at_playhead_eq c fs : ∀ j found,
  keys_at_playhead (Long.sub (timeline_in c) (clip_in c)) (playhead c)
    j fs found
  = found ++ found_from c j fs.
Proof.
  induction fs as [|f fs IH]; intros j found; simpl.
  - by rewrite app_nil_r.
  - by rewrite IH, keys_at_playhead_in_eq, <- app_assoc.
Qed.

Lemma positions_nil c ks : ∀ i,
  positions_at_playhead c i ks = [] ↔ ∀ k, k ∈ ks → at_playhead c k = false.
Proof.
  induction ks as [|k ks IH]; intros i; simpl.
  - split; [|done]. intros _ k Hk. by apply elem_of_nil in Hk.
  - destruct (at_playhead c k) eqn:Hk.
    + split; [done|]. intros H. specialize (H k (list_elem_of_here _ _)).
      congruence.
    + rewrite IH. split.
      * intros H k' Hk'. apply elem_of_cons in Hk' as [->|Hk']; auto.
      * intros H k' Hk'. apply H. by apply list_elem_of_further.
Qed.

Lemma found_from_nil c fs : ∀ j,
  found_from c j fs = [] ↔
  ∀ f k, f ∈ fs → k ∈ keyframes f → at_playhead c k = false.
Proof.
  induction fs as [|f fs IH]; intros j; simpl.
  - split; [|done]. intros _ f k Hf. by apply elem_of_nil in Hf.
  - split.
    + intros H. apply app_eq_nil in H as [H1 H2].
      apply map_eq_nil in H1. rewrite positions_nil in H1.
      rewrite IH in H2.
      intros f' k Hf' Hk. apply elem_of_cons in Hf' as [->|Hf']; eauto.
    + intros H.
      assert (positions_at_playhead c 0 (keyframes f) = []) as ->.
      { apply positions_nil. intros k Hk.
        eapply H; [apply list_elem_of_here|done]. }
      simpl. apply IH. intros f' k Hf' Hk. eapply H; [|done].
      by apply list_elem_of_further.
Qed.

(** The indices found in one field are in strictly increasing order. *)
Lemma positions_sorted c ks : ∀ i,
  Forall (λ n, (i ≤ n)%nat) (positions_at_playhead c i ks) ∧
  StronglySorted lt (positions_at_playhead c i ks).
Proof.
  induction ks as [|k ks IH]; intros i; simpl.
  - split; constructor.
  - destruct (IH (S i)) as [Hge Hs].
    assert (Hge' : Forall (λ n, (i ≤ n)%nat) (positions_at_playhead c (S i) ks)).
    { eapply Forall_impl; [exact Hge|]. simpl. intros; lia. }
    destruct (at_playhead c k); [|done].
    split.
    + constructor; [lia|exact Hge'].
    + constructor; [exact Hs|].
      eapply Forall_impl; [exact Hge|]. simpl. intros; lia.
Qed.

Lemma positions_app c ks k : ∀ i,
  positions_at_playhead c i (ks ++ [k])
  = positions_at_playhead c i ks
    ++ (if at_playhead c k then [(i + length ks)%nat] else []).
Proof.
  induction ks as [|k' ks IH]; intros i; simpl.
  - rewrite Nat.add_0_r. by destruct (at_playhead c k).
  - rewrite IH. rewrite Nat.add_succ_r.
    by destruct (at_playhead c k').
Qed.

(** *** The indices of one field among the pairs *)

Lemma indices_of_app j ps1 ps2 :
  indices_of j (ps1 ++ ps2) = indices_of j ps1 ++ indices_of j ps2.
Proof. unfold indices_of. apply flat_map_app. Qed.

Lemma indices_of_pairs j j' (l : list nat) :
  indices_of j (map (pair j') l) = if bool_decide (j' = j) then l else [].
Proof.
  unfold indices_of. induction l as [|n l IH]; simpl.
  - by case_bool_decide.
  - rewrite IH. by case_bool_decide.
Qed.

Lemma indices_of_found_before c fs : ∀ j j0,
  (j < j0)%nat → indices_of j (found_from c j0 fs) = [].
Proof.
  induction fs as [|f fs IH]; intros j j0 Hlt; simpl; [done|].
  rewrite indices_of_app, indices_of_pairs, IH by lia.
  rewrite bool_decide_eq_false_2 by lia. done.
Qed.

Lemma indices_of_found c fs : ∀ j j0 f,
  fs !! j = Some f →
  indices_of (j0 + j) (found_from c j0 fs)
  = positions_at_playhead c 0 (keyframes f).
Proof.
  induction fs as [|f' fs IH]; intros j j0 f Hf; [done|]. simpl.
  rewrite indices_of_app, indices_of_pairs.
  destruct j as [|j]; simpl in Hf.
  - simplify_eq. rewrite Nat.add_0_r, bool_decide_eq_true_2 by done.
    rewrite indices_of_found_before by lia. by rewrite app_nil_r.
  - rewrite bool_decide_eq_false_2 by lia. simpl.
    replace (j0 + S j)%nat with (S j0 + j)%nat by lia. by apply IH.
Qed.

Lemma found_from_bound c fs : ∀ j0,
  Forall (λ x, (x.1 < j0 + length fs)%nat) (found_from c j0 fs).
Proof.
  induction fs as [|f fs IH]; intros j0; simpl; [constructor|].
  apply Forall_app. split.
  - apply Forall_forall. intros x Hx.
    apply list_elem_of_In, in_map_iff in Hx as (n & <- & _). simpl. lia.
  - eapply Forall_impl; [apply (IH (S j0))|]. simpl. intros; lia.
Qed.

(** *** The sorting loop *)

Lemma indices_of_insert_sorted j x sorted :
  x.1 ≠ j → indices_of j (insert_sorted x sorted) = indices_of j sorted.
Proof.
  intros Hx. induction sorted as [|y sorted IH]; simpl.
  - unfold indices_of. simpl. by rewrite bool_decide_eq_false_2.
  - destruct (y.2 <? x.2)%nat.
    + unfold indices_of. simpl. by rewrite (bool_decide_eq_false_2 (x.1 = j)).
    + unfold indices_of in *. simpl. by rewrite IH.
Qed.

(** An index larger than all those its field has in [sorted] goes in front
    of them. *)
Lemma indices_of_insert_sorted_front j x sorted :
  x.1 = j →
  Forall (λ n, (n < x.2)%nat) (indices_of j sorted) →
  indices_of j (insert_sorted x sorted) = x.2 :: indices_of j sorted.
Proof.
  intros Hx. induction sorted as [|y sorted IH]; simpl; intros Hall.
  - unfold indices_of. simpl. by rewrite bool_decide_eq_true_2.
  - destruct (Nat.ltb_spec y.2 x.2) as [Hlt|Hge].
    + unfold indices_of. simpl. by rewrite (bool_decide_eq_true_2 (x.1 = j)).
    + unfold indices_of in *. simpl in *.
      case_bool_decide as Hy; simpl in *.
      * apply Forall_cons in Hall as [Hy2 _]. lia.
      * by apply IH.
Qed.

Lemma indices_of_sort j found : ∀ sorted,
  StronglySorted lt (rev (indices_of j sorted) ++ indices_of j found) →
  indices_of j (fold_left (λ sorted x, insert_sorted x sorted) found sorted)
  = rev (indices_of j found) ++ indices_of j sorted.
Proof.
  induction found as [|x found IH]; intros sorted Hs; [done|].
  cbn [fold_left].
  destruct (decide (x.1 = j)) as [Hx|Hx].
  - assert (Hfound : indices_of j (x :: found) = x.2 :: indices_of j found).
    { unfold indices_of. simpl. by rewrite bool_decide_eq_true_2. }
    rewrite Hfound in Hs |- *.
    assert (Hfront : indices_of j (insert_sorted x sorted)
                     = x.2 :: indices_of j sorted).
    { apply indices_of_insert_sorted_front; [done|].
      apply Forall_forall. intros n Hn.
      eapply (StronglySorted_app_1_elem_of lt); [exact Hs| |apply list_elem_of_here].
      apply list_elem_of_In. apply -> in_rev. by apply list_elem_of_In. }
    rewrite IH.
    + rewrite Hfront. simpl. by rewrite <- app_assoc.
    + rewrite Hfront. simpl. by rewrite <- app_assoc.
  - assert (Hfound : indices_of j (x :: found) = indices_of j found).
    { unfold indices_of. simpl. by rewrite bool_decide_eq_false_2. }
    rewrite Hfound in Hs |- *.
    assert (Hsame : indices_of j (insert_sorted x sorted) = indices_of j sorted).
    { by apply indices_of_insert_sorted. }
    rewrite IH; by rewrite Hsame.
Qed.

Lemma insert_sorted_bound (P : nat * nat → Prop) x sorted :
  P x → Forall P sorted → Forall P (insert_sorted x sorted).
Proof.
  intros Hx. induction 1 as [|y sorted Hy Hall IH]; simpl.
  - by constructor.
  - destruct (y.2 <? x.2)%nat; repeat constructor; done.
Qed.

Lemma sort_reverse_bound (P : nat * nat → Prop) found :
  Forall P found → Forall P (sort_reverse found).
Proof.
  unfold sort_reverse. intros Hf.
  assert (Hs : Forall P (@nil (nat * nat))) by constructor.
  revert Hs Hf. generalize (@nil (nat * nat)).
  induction found as [|x found IH]; intros sorted Hs Hf; simpl; [done|].
  apply Forall_cons in Hf as [Hx Hf].
  apply IH; [|done]. by apply insert_sorted_bound.
Qed.

(** After the sorting loop the indices of each field are the ones found for
    it, from the last to the first. *)
Lemma indices_of_sort_reverse c fs j f :
  fs !! j = Some f →
  indices_of j (sort_reverse (found_from c 0 fs))
  = rev (positions_at_playhead c 0 (keyframes f)).
Proof.
  intros Hf. unfold sort_reverse.
  pose proof (indices_of_found c fs j 0 f Hf) as Hidx. simpl in Hidx.
  rewrite indices_of_sort.
  - unfold indices_of at 2. simpl. by rewrite app_nil_r, Hidx.
  - unfold indices_of at 1. simpl. rewrite Hidx. apply positions_sorted.
Qed.

(** *** The deletions *)

Lemma delete_app_l {A} (l tl : list A) : ∀ i,
  (i < length l)%nat → delete i (l ++ tl) = delete i l ++ tl.
Proof.
  induction l as [|x l IH]; intros i Hi; simpl in *; [lia|].
  destruct i as [|i]; simpl; [done|]. rewrite IH by lia. done.
Qed.

Lemma removeAt_app {A} i (l l' tl : list A) :
  removeAt i l = Some l' → removeAt i (l ++ tl) = Some (l' ++ tl).
Proof.
  unfold removeAt. case_bool_decide as Hi; [|done]. intros ?; simplify_eq.
  rewrite bool_decide_eq_true_2 by (rewrite length_app; lia).
  by rewrite delete_app_l.
Qed.

Lemma removeAt_last {A} (l : list A) x :
  removeAt (length l) (l ++ [x]) = Some l.
Proof.
  unfold removeAt.
  rewrite bool_decide_eq_true_2 by (rewrite length_app; simpl; lia).
  rewrite delete_middle. by rewrite app_nil_r.
Qed.

Lemma delete_seq_app {A} ns : ∀ (l l' tl : list A),
  delete_seq ns l = Some l' → delete_seq ns (l ++ tl) = Some (l' ++ tl).
Proof.
  induction ns as [|i ns IH]; intros l l' tl H; simpl in *.
  - by simplify_eq.
  - destruct (removeAt i l) as [l1|] eqn:H1; [|done].
    rewrite (removeAt_app _ _ _ _ H1). by apply IH.
Qed.

(** Removing the keyframes at the playhead by index, from the last to the
    first, removes exactly these keyframes. *)
Lemma delete_seq_positions c ks :
  delete_seq (rev (positions_at_playhead c 0 ks)) ks
  = Some (filter (λ k, at_playhead c k = false) ks).
Proof.
  induction ks as [|k ks IH] using rev_ind; [done|].
  rewrite positions_app, filter_app. simpl.
  destruct (at_playhead c k) eqn:Hk.
  - rewrite rev_unit. simpl. rewrite removeAt_last.
    rewrite IH. rewrite filter_cons, decide_False by congruence.
    by rewrite filter_nil, app_nil_r.
  - rewrite app_nil_r. rewrite (delete_seq_app _ _ _ _ IH).
    by rewrite filter_cons, decide_True, filter_nil by done.
Qed.

Lemma set_keyframes_twice ks ks' f :
  set_keyframes ks (set_keyframes ks' f) = set_keyframes ks f.
Proof. done. Qed.

(** The deletions of one field do not depend on those of the others. *)
Lemma delete_keys_by_field ps : ∀ fs,
  Forall (λ x, (x.1 < length fs)%nat) ps →
  (∀ j f, fs !! j = Some f →
          is_Some (delete_seq (indices_of j ps) (keyframes f))) →
  ∃ fs', delete_keys ps fs = Some fs' ∧
         length fs' = length fs ∧
         ∀ j f, fs !! j = Some f →
           ∃ ks', delete_seq (indices_of j ps) (keyframes f) = Some ks' ∧
                  fs' !! j = Some (set_keyframes ks' f).
Proof.
  induction ps as [|x ps IH]; intros fs Hb Hok.
  - exists fs. split; [done|]. split; [done|].
    intros j f Hf. exists (keyframes f). by rewrite set_keyframes_id.
  - apply Forall_cons in Hb as [Hx Hb].
    destruct (lookup_lt_is_Some_2 fs x.1 Hx) as [f0 Hf0].
    assert (Hidx0 : indices_of x.1 (x :: ps) = x.2 :: indices_of x.1 ps).
    { unfold indices_of. simpl. by rewrite bool_decide_eq_true_2. }
    assert (Hidx : ∀ j, j ≠ x.1 → indices_of j (x :: ps) = indices_of j ps).
    { intros j Hj. unfold indices_of. simpl.
      by rewrite bool_decide_eq_false_2. }
    destruct (Hok _ _ Hf0) as [ks0' Hks0']. rewrite Hidx0 in Hks0'.
    simpl in Hks0'.
    destruct (removeAt x.2 (keyframes f0)) as [ks0|] eqn:Hrm; [|done].
    cbn [delete_keys]. rewrite Hf0, Hrm.
    destruct (IH (<[x.1 := set_keyframes ks0 f0]> fs)) as (fs' & Hd & Hlen & Hl).
    { by rewrite length_insert. }
    { intros j f Hf. destruct (decide (j = x.1)) as [->|Hj].
      - rewrite list_lookup_insert_eq in Hf by done. simplify_eq. simpl. eauto.
      - rewrite list_lookup_insert_ne in Hf by done.
        rewrite <- Hidx by done. by eapply Hok. }
    exists fs'. split; [done|]. split; [by rewrite Hlen, length_insert|].
    intros j f Hf. destruct (decide (j = x.1)) as [->|Hj].
    + assert (f = f0) as -> by congruence.
      rewrite Hidx0. simpl. rewrite Hrm.
      destruct (Hl x.1 (set_keyframes ks0 f0)) as (ks' & Hks' & Hfs').
      { by rewrite list_lookup_insert_eq. }
      exists ks'. split; [done|]. by rewrite Hfs', set_keyframes_twice.
    + rewrite Hidx by done. apply Hl.
      by rewrite list_lookup_insert_ne.
Qed.

Lemma delete_keys_found c fs :
  delete_keys (sort_reverse (found_from c 0 fs)) fs
  = Some (map (without_playhead c) fs).
Proof.
  destruct (delete_keys_by_field (sort_reverse (found_from c 0 fs)) fs)
    as (fs' & Hd & Hlen & Hl).
  - apply sort_reverse_bound. apply (found_from_bound c fs 0).
  - intros j f Hf. rewrite (indices_of_sort_reverse c fs j f Hf).
    rewrite delete_seq_positions. eauto.
  - rewrite Hd. f_equal. apply list_eq. intros j.
    rewrite list_lookup_fmap.
    destruct (fs !! j) as [f|] eqn:Hf; simpl.
    + destruct (Hl j f Hf) as (ks' & Hks' & ->).
      rewrite (indices_of_sort_reverse c fs j f Hf) in Hks'.
      rewrite delete_seq_positions in Hks'. by simplify_eq.
    + apply lookup_ge_None. rewrite Hlen. by apply lookup_ge_None.
Qed.

Lemma redo_all_delete ps : ∀ w,
  redo_all (map (λ x, KeyframeDelete x.1 x.2) ps) w
  = (λ fs, with_row (set_fields fs (row w)) w)
      <$> delete_keys ps (fields_ (row w)).
Proof.
  induction ps as [|x ps IH]; intros w; simpl.
  - by rewrite set_fields_id, with_row_id.
  - destruct (fields_ (row w) !! x.1) as [f|]; simpl; [|done].
    destruct (removeAt x.2 (keyframes f)) as [ks|]; simpl; [|done].
    rewrite IH. simpl. by destruct (delete_keys ps _).
Qed.

Lemma deleted_in_pairs j ps :
  deleted_in j (map (λ x, KeyframeDelete x.1 x.2) ps) = indices_of j ps.
Proof.
  unfold deleted_in, indices_of. induction ps as [|x ps IH]; simpl; [done|].
  by rewrite IH.
Qed.

(** *** Setting a keyframe on all fields *)

Lemma SetKeyframeOnAllFields_from_eq keyframing now fs : ∀ i ca,
  SetKeyframeOnAllFields_from interpolate keyframing now i fs ca
  = (map (keyed_now interpolate keyframing now) fs,
     ca ++ data_changes interpolate keyframing now i fs).
Proof.
  induction fs as [|f fs IH]; intros i ca; simpl.
  - by rewrite app_nil_r.
  - rewrite IH. by rewrite <- app_assoc.
Qed.

Lemma data_changes_recorded keyframing now fs : ∀ pre,
  Forall (recorded (pre ++ map (keyed_now interpolate keyframing now) fs))
         (data_changes interpolate keyframing now (length pre) fs).
Proof.
  induction fs as [|f fs IH]; intros pre; simpl; constructor.
  - simpl. eexists. by rewrite list_lookup_middle.
  - specialize (IH (pre ++ [keyed_now interpolate keyframing now f])).
    rewrite length_app in IH. simpl in IH.
    rewrite Nat.add_1_r, <- app_assoc in IH. exact IH.
Qed.

Lemma write_keyframe_elem t v ks :
  mkKeyframe t v ∈ write_keyframe t v ks.
Proof.
  induction ks as [|k ks IH]; simpl.
  - apply list_elem_of_here.
  - destruct (t =? time k); [apply list_elem_of_here|].
    destruct (t <? time k); [apply list_elem_of_here|].
    by apply list_elem_of_further.
Qed.

Lemma write_keyframe_length t v ks :
  (∀ k, k ∈ ks → time k ≠ t) →
  length (write_keyframe t v ks) = S (length ks).
Proof.
  induction ks as [|k ks IH]; simpl; intros Hno; [done|].
  destruct (Z.eqb_spec t (time k)) as [Heq|Hne].
  - exfalso. eapply Hno; [apply list_elem_of_here|done].
  - destruct (t <? time k); simpl; [done|].
    rewrite IH; [done|]. intros k' Hk'. apply Hno.
    by apply list_elem_of_further.
Qed.

(** On a row that is not keyframing the field comes back as it was. *)
Lemma keyed_now_static now f : keyed_now interpolate false now f = f.
Proof. by destruct f. Qed.

Lemma keyed_now_static_all now fs :
  map (keyed_now interpolate false now) fs = fs.
Proof.
  induction fs as [|f fs IH]; [done|].
  cbn [map]. by rewrite keyed_now_static, IH.
Qed.

(** The two branches of [ToggleKeyframe]. *)
Lemma ToggleKeyframe_create w :
  found_from (parent_clip (parent (row w))) 0 (fields_ (row w)) = [] →
  ToggleKeyframe interpolate w =
    Some {| row := set_fields
                     (map (keyed_now interpolate (keyframing_ (row w))
                                     (Now (parent (row w))))
                          (fields_ (row w)))
                     (row w);
            undo_stack := undo_stack w ++
              [data_changes interpolate (keyframing_ (row w))
                            (Now (parent (row w))) 0 (fields_ (row w))];
            signals := signals w |}.
Proof.
  intros Hnone. unfold ToggleKeyframe.
  rewrite keys_at_playhead_eq, Hnone. simpl.
  unfold SetKeyframeOnAllFields. rewrite SetKeyframeOnAllFields_from_eq.
  simpl. unfold push. rewrite redo_all_recorded; [done|].
  simpl. apply (data_changes_recorded _ _ (fields_ (row w)) []).
Qed.

Lemma ToggleKeyframe_delete w :
  found_from (parent_clip (parent (row w))) 0 (fields_ (row w)) ≠ [] →
  ToggleKeyframe interpolate w =
    Some {| row := set_fields
                     (map (without_playhead (parent_clip (parent (row w))))
                          (fields_ (row w)))
                     (row w);
            undo_stack := undo_stack w ++
              [map (λ x, KeyframeDelete x.1 x.2)
                   (sort_reverse
                      (found_from (parent_clip (parent (row w))) 0
                                  (fields_ (row w))))];
            signals := signals w |}.
Proof.
  intros Hsome. unfold ToggleKeyframe.
  rewrite keys_at_playhead_eq. simpl.
  destruct (found_from _ 0 (fields_ (row w))) as [|x found] eqn:Hf; [done|].
  unfold push. rewrite redo_all_delete. rewrite <- Hf.
  rewrite delete_keys_found. done.
Qed.

End Toggle.

Lemma StronglySorted_rev_gt (l : list nat) :
  StronglySorted lt l → StronglySorted gt (rev l).
Proof.
  induction 1 as [|x l Hs IH Hall]; simpl; [constructor|].
  apply StronglySorted_app. split; [|split].
  - intros x1 x2 H1 H2. apply list_elem_of_singleton in H2 as ->.
    apply list_elem_of_In, in_rev, list_elem_of_In in H1.
    rewrite Forall_forall in Hall. specialize (Hall _ H1). lia.
  - exact IH.
  - repeat constructor.
Qed.

(** C5: ToggleKeyframe does not look at the keyframing flag. On a row that
    is not keyframing, no field has a keyframe at the playhead, the branch
    "create one for each field" is taken, and after ToggleKeyframe the field
    still has no keyframe; the transaction that is pushed records an empty
    change. *)
Lemma C5_no_keyframe_without_keyframing :
  keyframing_ (row (one_field_world example_effect true)) = false ∧
  (keyframes <$> fields_ (row (one_field_world example_effect true))) = [[]] ∧
  ToggleKeyframe hold (one_field_world example_effect true)
    = Some {| row := row (one_field_world example_effect true);
              undo_stack := [[KeyframeDataChange 0 [] []]];
              signals := [] |}.
Proof. repeat split; vm_compute; reflexivity. Qed.

(** The two branches of ToggleKeyframe on any row. When no field of the
    row has a keyframe whose converted time equals the playhead,
    ToggleKeyframe writes on every field the value at the current time back
    at the current time and pushes one transaction with one
    KeyframeDataChange per field; on a row that is keyframing every field
    then holds a keyframe at the current time with that value, a new one
    when the current time is the clip frame of the playhead. When at least
    one field has such a keyframe, every keyframe at that converted time is
    removed from every field by one transaction of KeyframeDelete commands,
    which name, for each field, exactly the indices of its keyframes at the
    playhead, in strictly descending order. *)
Theorem ToggleKeyframe_branches
    (interpolate : EffectKeyframe → EffectKeyframe → Z → QVariant) (w : World) :
  let r := row w in
  let c := parent_clip (parent r) in
  let now := Now (parent r) in
  ((∀ f k, f ∈ fields_ r → k ∈ keyframes f → at_playhead c k = false) →
   ToggleKeyframe interpolate w =
     Some {| row := set_fields
                      (map (keyed_now interpolate (keyframing_ r) now) (fields_ r)) r;
             undo_stack := undo_stack w ++
               [data_changes interpolate (keyframing_ r) now 0 (fields_ r)];
             signals := signals w |} ∧
   (keyframing_ r = true → ∀ f, f ∈ fields_ r →
      mkKeyframe now (Field_GetValueAt interpolate true f now)
        ∈ keyframes (keyed_now interpolate true now f) ∧
      (converted c now = playhead c →
       length (keyframes (keyed_now interpolate true now f))
       = S (length (keyframes f)))) ∧
   (keyframing_ r = false →
      map (keyed_now interpolate (keyframing_ r) now) (fields_ r) = fields_ r))
  ∧
  ((∃ f k, f ∈ fields_ r ∧ k ∈ keyframes f ∧ at_playhead c k = true) →
   ∃ ca,
     ToggleKeyframe interpolate w =
       Some {| row := set_fields (map (without_playhead c) (fields_ r)) r;
               undo_stack := undo_stack w ++ [ca];
               signals := signals w |} ∧
     (∀ cmd, cmd ∈ ca → ∃ j i, cmd = KeyframeDelete j i) ∧
     (∀ j f, fields_ r !! j = Some f →
        deleted_in j ca = rev (positions_at_playhead c 0 (keyframes f)) ∧
        StronglySorted gt (deleted_in j ca))).
Proof.
  intros r c now. subst r c now. split.
  - intros Hnone. split; [|split].
    + apply ToggleKeyframe_create. by apply found_from_nil.
    + intros Hk f Hf. unfold keyed_now, Field_SetValueAt. simpl.
      split; [apply write_keyframe_elem|].
      intros Hnow. apply write_keyframe_length.
      intros k Hin Ht. specialize (Hnone f k Hf Hin).
      unfold at_playhead in Hnone. rewrite Ht, Hnow, Z.eqb_refl in Hnone.
      discriminate.
    + intros ->. apply keyed_now_static_all.
  - intros (f & k & Hf & Hk & Hat).
    eexists. split; [|split].
    + apply ToggleKeyframe_delete. intros Hnil.
      rewrite found_from_nil in Hnil.
      rewrite (Hnil f k Hf Hk) in Hat. discriminate.
    + intros cmd Hcmd.
      apply list_elem_of_In, in_map_iff in Hcmd as (x & <- & _). eauto.
    + intros j f' Hf'. rewrite deleted_in_pairs.
      rewrite (indices_of_sort_reverse _ _ j f' Hf').
      split; [done|]. apply StronglySorted_rev_gt, positions_sorted.
Qed.

Lemma ToggleKeyframe_branches_example :
  ∃ ca,
    ToggleKeyframe hold
      {| row := set_keyframing true (row_with_times 10 [[5; 10; 15]; [10]]);
         undo_stack := []; signals := [] |}
    = Some {| row := set_keyframing true (row_with_times 10 [[5; 15]; []]);
              undo_stack := [ca]; signals := [] |} ∧
    deleted_in 0 ca = [1%nat] ∧ deleted_in 1 ca = [0%nat].
Proof.
  destruct (proj2 (ToggleKeyframe_branches hold
              {| row := set_keyframing true (row_with_times 10 [[5; 10; 15]; [10]]);
                 undo_stack := []; signals := [] |}))
    as (ca & Ht & _ & Hidx).
  { exists (field_with_times [10]), (mkKeyframe 10 0).
    split; [|split]; [|apply list_elem_of_here|reflexivity].
    apply list_elem_of_further, list_elem_of_here. }
  exists ca. split; [exact Ht|].
  split.
  - exact (proj1 (Hidx 0%nat (field_with_times [5; 10; 15]) eq_refl)).
  - exact (proj1 (Hidx 1%nat (field_with_times [10]) eq_refl)).
Defined.

(** * Further properties *)

(** ** Classification and fields of a row *)

Section MoreRows.

Implicit Types (r : NodeIO) (t : DataType).

Lemma set_accepted_inputs_id r : set_accepted_inputs (accepted_inputs_ r) r = r.
Proof. by destruct r. Qed.

Lemma IsNodeInput_true r : IsNodeInput r = true ↔ accepted_inputs_ r ≠ [].
Proof.
  unfold IsNodeInput. case_bool_decide as H; simpl; split; done.
Qed.

Lemma IsNodeOutput_true r : IsNodeOutput r = true ↔ output_type_ r ≠ kInvalid.
Proof.
  unfold IsNodeOutput. case_bool_decide as H; simpl; split; done.
Qed.

Lemma CanAcceptDataType_elem t r :
  CanAcceptDataType t r = true ↔ t ∈ accepted_inputs_ r.
Proof.
  unfold CanAcceptDataType, IsNodeInput.
  case_bool_decide as He; simpl.
  - rewrite He. split; [done|]. intros H. by apply elem_of_nil in H.
  - by rewrite bool_decide_eq_true.
Qed.

Lemma AddAcceptedNodeInput_all ts : ∀ r,
  output_type_ r = kInvalid →
  classify_all (map CallAddAcceptedNodeInput ts) r
  = Some (set_accepted_inputs (accepted_inputs_ r ++ ts) r).
Proof.
  induction ts as [|t ts IH]; intros r Ho; simpl.
  - by rewrite app_nil_r, set_accepted_inputs_id.
  - unfold AddAcceptedNodeInput, Q_ASSERT.
    rewrite bool_decide_eq_true_2 by done.
    rewrite IH by done. simpl. by rewrite <- app_assoc.
Qed.

Lemma classify_all_input cs : ∀ r r',
  IsNodeInput r = true → classify_all cs r = Some r' →
  ∃ ts, cs = map CallAddAcceptedNodeInput ts ∧
        accepted_inputs_ r' = accepted_inputs_ r ++ ts ∧
        output_type_ r' = output_type_ r.
Proof.
  induction cs as [|c cs IH]; intros r r' Hin Hrun; simpl in Hrun.
  - simplify_eq. exists []. by rewrite app_nil_r.
  - destruct (classify c r) as [r1|] eqn:Hc; [|done].
    destruct c as [t|t]; simpl in Hc.
    + unfold AddAcceptedNodeInput, Q_ASSERT in Hc.
      case_bool_decide; simplify_eq/=.
      assert (Hin1 : IsNodeInput
                (set_accepted_inputs (accepted_inputs_ r ++ [t]) r) = true).
      { apply IsNodeInput_true. simpl. by destruct (accepted_inputs_ r). }
      destruct (IH _ _ Hin1 Hrun) as (ts & -> & Ha & Ho).
      exists (t :: ts). simpl in *. by rewrite Ha, <- app_assoc.
    + unfold SetOutputDataType, Q_ASSERT in Hc.
      apply IsNodeInput_true in Hin.
      by rewrite bool_decide_eq_false_2 in Hc.
Qed.

Lemma add_fields_fields fs : ∀ r, fields_ (add_fields fs r) = fields_ r ++ fs.
Proof.
  unfold add_fields.
  induction fs as [|f fs IH]; intros r; simpl; [by rewrite app_nil_r|].
  rewrite IH. simpl. by rewrite <- app_assoc.
Qed.

End MoreRows.

(** X1: CanAcceptDataType answers true exactly for the types that were given
    to AddAcceptedNodeInput: it is membership in the accepted inputs, a
    successful AddAcceptedNodeInput(t) adds t to the types accepted and
    changes the answer for no other type, and a row that came out of the
    constructor and the two classifying methods as an output accepts no
    type. *)
Theorem X1_CanAcceptDataType_membership :
  (∀ t r, CanAcceptDataType t r = true ↔ t ∈ accepted_inputs_ r) ∧
  (∀ t t' r r', AddAcceptedNodeInput t r = Some r' →
     (CanAcceptDataType t' r' = true ↔
      t' = t ∨ CanAcceptDataType t' r = true)) ∧
  (∀ p id name savable keyframable cs r t,
     classify_all cs (NodeIO_new p id name savable keyframable) = Some r →
     IsNodeOutput r = true → CanAcceptDataType t r = false).
Proof.
  split; [apply CanAcceptDataType_elem|]. split.
  - intros t t' r r' H. unfold AddAcceptedNodeInput, Q_ASSERT in H.
    case_bool_decide; simplify_eq.
    rewrite !CanAcceptDataType_elem. simpl.
    rewrite elem_of_app, list_elem_of_singleton. tauto.
  - intros p id name savable keyframable cs r t Hrun Hout.
    pose proof (classify_all_exclusive cs _ _
                  (exclusive_new p id name savable keyframable) Hrun) as Hex.
    unfold CanAcceptDataType.
    destruct (IsNodeInput r) eqn:Hin; [|done].
    exfalso. by apply Hex.
Qed.

Lemma X1_CanAcceptDataType_membership_witness :
  CanAcceptDataType (kDataType 0) input_row = true ∧
  CanAcceptDataType (kDataType 1) input_row = false ∧
  CanAcceptDataType (kDataType 0) output_row = false.
Proof.
  split; [|split].
  - apply (proj2 (proj1 (proj2 X1_CanAcceptDataType_membership)
             (kDataType 0) (kDataType 0) unclassified_row input_row
             eq_refl)).
    by left.
  - reflexivity.
  - apply (proj2 (proj2 X1_CanAcceptDataType_membership)
             example_effect "row" "Row" true true
             [CallSetOutputDataType (kDataType 0)] output_row (kDataType 0));
      reflexivity.
Defined.

(** X2: accepted inputs pile up in call order, duplicates included, and a
    row that is an input stays one: on a row without output type a run of
    AddAcceptedNodeInput calls succeeds and appends its types in order; on a
    row that is an input, a sequence of classifying calls that does not
    abort consists of AddAcceptedNodeInput calls only, appends their types
    and leaves the output type alone. *)
Theorem X2_accepted_inputs_accumulate :
  (∀ ts r, output_type_ r = kInvalid →
     classify_all (map CallAddAcceptedNodeInput ts) r
     = Some (set_accepted_inputs (accepted_inputs_ r ++ ts) r)) ∧
  (∀ cs r r', IsNodeInput r = true → classify_all cs r = Some r' →
     ∃ ts, cs = map CallAddAcceptedNodeInput ts ∧
           accepted_inputs_ r' = accepted_inputs_ r ++ ts ∧
           output_type_ r' = output_type_ r ∧
           IsNodeInput r' = true).
Proof.
  split; [apply AddAcceptedNodeInput_all|].
  intros cs r r' Hin Hrun.
  destruct (classify_all_input cs r r' Hin Hrun) as (ts & Hcs & Ha & Ho).
  exists ts. repeat split; try done.
  apply IsNodeInput_true. rewrite Ha. apply IsNodeInput_true in Hin.
  by destruct (accepted_inputs_ r).
Qed.

Lemma X2_accepted_inputs_accumulate_witness :
  classify_all (map CallAddAcceptedNodeInput [kDataType 1; kDataType 1])
    input_row
  = Some (set_accepted_inputs [kDataType 0; kDataType 1; kDataType 1]
            unclassified_row).
Proof.
  exact (proj1 X2_accepted_inputs_accumulate [kDataType 1; kDataType 1]
           input_row eq_refl).
Defined.

(** X3: the output type is not fixed once set. A successful
    SetOutputDataType(t) leaves OutputDataType at t, whatever it was, and
    the row is an output afterwards exactly when t is not kInvalid; so an
    output row is turned into an input by SetOutputDataType(kInvalid)
    followed by AddAcceptedNodeInput. *)
Theorem X3_output_type_overwritten :
  (∀ t r r', SetOutputDataType t r = Some r' →
     OutputDataType r' = t ∧ accepted_inputs_ r' = [] ∧
     (IsNodeOutput r' = true ↔ t ≠ kInvalid)) ∧
  (∀ t r, IsNodeOutput r = true → IsNodeInput r = false →
     ∃ r', classify_all [CallSetOutputDataType kInvalid;
                         CallAddAcceptedNodeInput t] r = Some r' ∧
           IsNodeInput r' = true ∧ IsNodeOutput r' = false ∧
           CanAcceptDataType t r' = true).
Proof.
  split.
  - intros t r r' H. unfold SetOutputDataType, Q_ASSERT in H.
    case_bool_decide as He; simplify_eq. simpl.
    split; [done|]. split; [done|]. apply IsNodeOutput_true.
  - intros t r _ Hin. unfold IsNodeInput in Hin.
    case_bool_decide as He; [|done].
    simpl. unfold SetOutputDataType, Q_ASSERT.
    rewrite bool_decide_eq_true_2 by done. simpl.
    eexists. split; [reflexivity|].
    rewrite CanAcceptDataType_elem.
    unfold IsNodeInput, IsNodeOutput. simpl. rewrite He. simpl.
    repeat split. apply list_elem_of_here.
Qed.

Lemma X3_output_type_overwritten_witness :
  ∃ r', classify_all [CallSetOutputDataType kInvalid;
                      CallAddAcceptedNodeInput (kDataType 2)] output_row
          = Some r' ∧
        IsNodeInput r' = true ∧ IsNodeOutput r' = false.
Proof.
  destruct (proj2 X3_output_type_overwritten (kDataType 2) output_row)
    as (r' & Hr & Hi & Ho & _); [reflexivity | reflexivity |].
  exists r'. split; [exact Hr|]. split; [exact Hi|exact Ho].
Defined.

(** X4: fields are kept in the order they were added, and the single-field
    accessors insist on exactly one field. After the constructor and
    AddField for each field of a list, FieldCount is the length of the list
    and Field(i) is its i-th element (failing past the end), and GetValueAt
    and SetValueAt succeed exactly when the list has one element;
    SetValueAt keeps the number of fields. *)
Theorem X4_fields_in_order
    (interpolate : EffectKeyframe → EffectKeyframe → Z → QVariant)
    p id name savable keyframable (fs : list EffectField) :
  let r := add_fields fs (NodeIO_new p id name savable keyframable) in
  FieldCount r = length fs ∧
  (∀ i, Field i r = fs !! i) ∧
  (∀ t, is_Some (GetValueAt interpolate t r) ↔ length fs = 1%nat) ∧
  (∀ t v, is_Some (SetValueAt t v r) ↔ length fs = 1%nat) ∧
  (∀ t v r', SetValueAt t v r = Some r' → FieldCount r' = FieldCount r).
Proof.
  intros r. subst r.
  assert (Hf : fields_ (add_fields fs (NodeIO_new p id name savable keyframable))
               = fs) by (by rewrite add_fields_fields).
  unfold FieldCount, Field, GetValueAt, SetValueAt, Q_ASSERT, FieldCount.
  rewrite Hf.
  split; [done|]. split; [done|]. split; [|split].
  - intros t. case_bool_decide as Hl; [|split; [by intros []|done]].
    split; [done|]. intros _.
    destruct fs as [|f [|]]; simpl in *; try done; eauto.
  - intros t v. case_bool_decide as Hl; [|split; [by intros []|done]].
    split; [done|]. intros _.
    destruct fs as [|f [|]]; simpl in *; try done; eauto.
  - intros t v r'. case_bool_decide as Hl; [|done].
    destruct (fs !! 0%nat); simpl; [|done]. intros ?; simplify_eq. simpl.
    by rewrite length_insert.
Qed.

(** ** The bookkeeping of edges *)

Section MoreGraph.

Implicit Types (g : Graph) (p : NodeIOPtr) (e : NodeEdgePtr) (r : NodeIO).

Lemma set_node_edges_id r : set_node_edges (node_edges_ r) r = r.
Proof. by destruct r. Qed.

Lemma removeAll_other e x (l : list NodeEdgePtr) :
  x ≠ e → (x ∈ removeAll e l ↔ x ∈ l).
Proof. rewrite removeAll_elem. tauto. Qed.

Lemma removeAll_absent e (l : list NodeEdgePtr) : e ∉ l → removeAll e l = l.
Proof.
  unfold removeAll. induction l as [|x l IH]; intros Hn; [done|].
  rewrite filter_cons. rewrite not_elem_of_cons in Hn. destruct Hn as [Hx Hl].
  rewrite decide_True by done. by rewrite IH.
Qed.

Lemma removeAll_snoc e (l : list NodeEdgePtr) :
  e ∉ l → removeAll e (l ++ [e]) = l.
Proof.
  intros Hn. unfold removeAll. rewrite filter_app.
  fold (removeAll e l). rewrite removeAll_absent by done.
  rewrite filter_cons, decide_False by tauto. by rewrite filter_nil, app_nil_r.
Qed.

(** The whole effect of a successful [ConnectEdge]. *)
Lemma ConnectEdge_unfold a b g g' :
  ConnectEdge a b g = Some g' →
  ∃ o i ri g1 ro1 ri1,
    let out := output_side a b g in
    let inp := input_side a b g in
    let edge := fresh (dom (edges g1)) in
    rows g !! a = Some o ∧ rows g !! b = Some i ∧
    IsNodeInput o ≠ IsNodeInput i ∧
    (out = a ∧ inp = b ∨ out = b ∧ inp = a) ∧
    out ≠ inp ∧
    rows g !! inp = Some ri ∧
    match node_edges_ ri with
    | first :: _ => DisconnectEdge first g
    | [] => Some g
    end = Some g1 ∧
    rows g1 !! out = Some ro1 ∧ rows g1 !! inp = Some ri1 ∧
    g' = {| rows :=
              <[inp := set_node_edges (node_edges_ ri1 ++ [edge]) ri1]>
                (<[out := set_node_edges (node_edges_ ro1 ++ [edge]) ro1]>
                   (rows g1));
            edges := <[edge := {| output := out; input := inp |}]> (edges g1);
            emitted := emitted g1 ++ [EdgesChanged out] |}.
Proof.
  unfold ConnectEdge, output_side, input_side. intros H.
  destruct (rows g !! a) as [o|] eqn:Ha; simplify_eq/=.
  destruct (rows g !! b) as [i|] eqn:Hb; simplify_eq/=.
  unfold Q_ASSERT in H.
  destruct (negb (eqb (IsNodeInput o) (IsNodeInput i))) eqn:Hx; [|done].
  assert (Hab : a ≠ b).
  { intros Heq. subst b. assert (o = i) as -> by congruence.
    by destruct (IsNodeInput i). }
  assert (Hio : IsNodeInput o ≠ IsNodeInput i)
    by (by destruct (IsNodeInput o), (IsNodeInput i)).
  exists o, i.
  destruct (IsNodeOutput i) eqn:Oi.
  - rewrite Ha in H. simpl in H.
    destruct (match node_edges_ o with
              | [] => Some g | first :: _ => DisconnectEdge first g end)
      as [g1|] eqn:Hg1; simplify_eq/=.
    unfold append_edge in H. simpl in H.
    destruct (rows g1 !! b) as [ro1|] eqn:Hro1; simplify_eq/=.
    rewrite lookup_insert_ne in H by done.
    destruct (rows g1 !! a) as [ri1|] eqn:Hri1; simplify_eq/=.
    exists o, g1, ro1, ri1. repeat split; auto.
  - rewrite Hb in H. simpl in H.
    destruct (match node_edges_ i with
              | [] => Some g | first :: _ => DisconnectEdge first g end)
      as [g1|] eqn:Hg1; simplify_eq/=.
    unfold append_edge in H. simpl in H.
    destruct (rows g1 !! a) as [ro1|] eqn:Hro1; simplify_eq/=.
    rewrite lookup_insert_ne in H by done.
    destruct (rows g1 !! b) as [ri1|] eqn:Hri1; simplify_eq/=.
    exists i, g1, ro1, ri1. repeat split; auto.
Qed.

Lemma DisconnectEdge_edges_of e g g' :
  DisconnectEdge e g = Some g' →
  ∃ ed, edges g !! e = Some ed ∧ edges g' = edges g ∧
        ∀ p, edges_of p g' =
               if decide (p = output ed ∨ p = input ed)
               then removeAll e (edges_of p g) else edges_of p g.
Proof.
  intros H. apply DisconnectEdge_rows in H as (ed & Hed & He & Hr).
  exists ed. split; [done|]. split; [done|]. intros p.
  unfold edges_of. rewrite Hr.
  destruct (rows g !! p) as [r|]; simpl.
  - unfold disconnected. by case_decide.
  - by case_decide.
Qed.

Lemma DisconnectEdge_is_Some e g :
  is_Some (DisconnectEdge e g) ↔
  ∃ ed, edges g !! e = Some ed ∧
        is_Some (rows g !! output ed) ∧ is_Some (rows g !! input ed).
Proof.
  unfold DisconnectEdge, remove_edge. split.
  - intros [g' H].
    destruct (edges g !! e) as [ed|]; simplify_eq/=.
    destruct (rows g !! output ed) as [ro|] eqn:Ho; simplify_eq/=.
    exists ed. split; [done|]. split; [eauto|].
    destruct (decide (input ed = output ed)) as [->|Hne]; [by rewrite Ho|].
    rewrite lookup_insert_ne in H by done.
    destruct (rows g !! input ed); [eauto|done].
  - intros (ed & -> & [ro Ho] & [ri Hi]). simpl. rewrite Ho. simpl.
    destruct (decide (input ed = output ed)) as [Heq|Hne].
    + rewrite Heq, lookup_insert_eq. simpl. eauto.
    + rewrite lookup_insert_ne by done. rewrite Hi. simpl. eauto.
Qed.

Lemma framed_refl g : framed g g.
Proof.
  intros p. destruct (rows g !! p) as [r|] eqn:Hp; [|done].
  exists (node_edges_ r). by rewrite set_node_edges_id.
Qed.

Lemma framed_trans g1 g2 g3 : framed g1 g2 → framed g2 g3 → framed g1 g3.
Proof.
  intros H12 H23 p. specialize (H12 p). specialize (H23 p).
  destruct (rows g1 !! p) as [r|].
  - destruct H12 as [l Hl]. rewrite Hl in H23. destruct H23 as [l' Hl'].
    exists l'. by rewrite Hl'.
  - by rewrite H12 in H23.
Qed.

Lemma DisconnectEdge_framed e g g' :
  DisconnectEdge e g = Some g' → framed g g'.
Proof.
  intros H. apply DisconnectEdge_rows in H as (ed & _ & _ & Hr).
  intros p. rewrite Hr. destruct (rows g !! p) as [r|]; simpl; [|done].
  unfold disconnected. case_decide; [eauto|].
  exists (node_edges_ r). by rewrite set_node_edges_id.
Qed.

Lemma ConnectEdge_framed a b g g' :
  ConnectEdge a b g = Some g' → framed g g'.
Proof.
  intros H. apply ConnectEdge_unfold in H
    as (o & i & ri & g1 & ro1 & ri1 & _ & _ & _ & _ & Hne & Hri & Hg1
        & Hro1 & Hri1 & ->).
  assert (Hf1 : framed g g1).
  { destruct (node_edges_ ri); [simplify_eq; apply framed_refl|].
    by eapply DisconnectEdge_framed. }
  eapply framed_trans; [exact Hf1|].
  intros p. simpl.
  destruct (decide (p = input_side a b g)) as [->|Hpi].
  - rewrite Hri1, lookup_insert_eq. eauto.
  - rewrite lookup_insert_ne by done.
    destruct (decide (p = output_side a b g)) as [->|Hpo].
    + rewrite Hro1, lookup_insert_eq. eauto.
    + rewrite lookup_insert_ne by done.
      destruct (rows g1 !! p) as [r|] eqn:Hp; [|done].
      exists (node_edges_ r). by rewrite set_node_edges_id.
Qed.

Lemma graph_calls_framed cs : ∀ g g',
  graph_calls cs g = Some g' → framed g g'.
Proof.
  induction cs as [|c cs IH]; simpl; intros g g' Hrun.
  - simplify_eq. apply framed_refl.
  - destruct (graph_call c g) as [g1|] eqn:Hc; [|done].
    eapply framed_trans; [|by apply IH].
    destruct c as [a b|e]; simpl in Hc.
    + by eapply ConnectEdge_framed.
    + by eapply DisconnectEdge_framed.
Qed.

Lemma edge_free_registered g : edge_free g → registered g.
Proof.
  intros [He Hr]. split.
  - intros p r e Hp Hin. rewrite (Hr p r Hp) in Hin.
    by apply elem_of_nil in Hin.
  - intros p r Hp. rewrite (Hr p r Hp). constructor.
  - intros e ed Hed. by rewrite He, lookup_empty in Hed.
  - intros e ed Hed. by rewrite He, lookup_empty in Hed.
Qed.

Lemma DisconnectEdge_registered e g g' :
  registered g → DisconnectEdge e g = Some g' → registered g'.
Proof.
  intros [Hi Ho Hb Hl] H.
  pose proof (DisconnectEdge_edges_of e g g' H) as (ed & Hed & He & Hof).
  apply DisconnectEdge_rows in H as (ed' & Hed' & _ & Hr).
  assert (ed' = ed) as -> by congruence.
  split.
  - intros p r' x Hp Hx. rewrite Hr in Hp.
    destruct (rows g !! p) as [r|] eqn:Hgp; simplify_eq/=.
    rewrite He. eapply Hi; [done|]. by eapply disconnected_edges.
  - intros p r' Hp. rewrite Hr in Hp.
    destruct (rows g !! p) as [r|] eqn:Hgp; simplify_eq/=.
    unfold disconnected. case_decide; simpl; [|by eapply Ho].
    apply NoDup_filter. by eapply Ho.
  - intros x edx Hx. rewrite He in Hx. rewrite !Hof.
    destruct (decide (x = e)) as [->|Hxe].
    + assert (edx = ed) as -> by congruence.
      rewrite !decide_True by auto. rewrite !removeAll_elem. tauto.
    + specialize (Hb x edx Hx).
      do 2 case_decide; rewrite ?removeAll_other by done; exact Hb.
  - intros x edx Hx. rewrite He in Hx. by eapply Hl.
Qed.

Lemma ConnectEdge_registered a b g g' :
  registered g → ConnectEdge a b g = Some g' → registered g'.
Proof.
  intros Hreg H. apply ConnectEdge_unfold in H
    as (o & i & ri & g1 & ro1 & ri1 & _ & _ & _ & _ & Hne & Hri & Hg1
        & Hro1 & Hri1 & ->).
  set (out := output_side a b g) in *. set (inp := input_side a b g) in *.
  assert (Hreg1 : registered g1).
  { destruct (node_edges_ ri); [by simplify_eq|].
    by eapply DisconnectEdge_registered. }
  clear Hg1 Hreg Hri.
  set (edge := fresh (dom (edges g1))) in *.
  assert (Hfresh : edges g1 !! edge = None)
    by apply not_elem_of_dom, is_fresh.
  destruct Hreg1 as [Hi Ho Hb Hl].
  set (g' := {| rows := _; edges := _; emitted := _ |}).
  assert (Hold : ∀ p r x, rows g1 !! p = Some r → x ∈ node_edges_ r → x ≠ edge).
  { intros p r x Hp Hx ->. destruct (Hi p r edge Hp Hx) as (ed & Hed & _).
    congruence. }
  assert (Hof : ∀ p, edges_of p g' =
                     if decide (p = out ∨ p = inp)
                     then edges_of p g1 ++ [edge] else edges_of p g1).
  { intros p. unfold edges_of, g'. simpl.
    destruct (decide (p = inp)) as [->|Hpi].
    - rewrite lookup_insert_eq, Hri1. simpl. by rewrite decide_True by auto.
    - rewrite lookup_insert_ne by done.
      destruct (decide (p = out)) as [->|Hpo].
      + rewrite lookup_insert_eq, Hro1. simpl. by rewrite decide_True by auto.
      + rewrite lookup_insert_ne by done. by rewrite decide_False by tauto. }
  assert (Hrow : ∀ p r, rows g' !! p = Some r →
                 ∃ r1, rows g1 !! p = Some r1 ∧ node_edges_ r = edges_of p g').
  { intros p r Hp. unfold edges_of. rewrite Hp.
    unfold g' in Hp. simpl in Hp.
    destruct (decide (p = inp)) as [->|Hpi]; [eauto|].
    rewrite lookup_insert_ne in Hp by done.
    destruct (decide (p = out)) as [->|Hpo]; [eauto|].
    rewrite lookup_insert_ne in Hp by done. eauto. }
  assert (Hof1 : ∀ p r1, rows g1 !! p = Some r1 → edges_of p g1 = node_edges_ r1).
  { intros p r1 Hp. unfold edges_of. by rewrite Hp. }
  split.
  - intros p r x Hp Hx. destruct (Hrow p r Hp) as (r1 & Hp1 & Hedges).
    rewrite Hedges, Hof, (Hof1 p r1 Hp1) in Hx. simpl.
    assert (Hcase : x ∈ node_edges_ r1 ∨ (x = edge ∧ (p = out ∨ p = inp))).
    { case_decide as Hd; [|by left].
      apply elem_of_app in Hx as [Hx|Hx]; [by left|].
      apply list_elem_of_singleton in Hx. by right. }
    destruct Hcase as [Hx1|[-> Hd]].
    + destruct (Hi p r1 x Hp1 Hx1) as (ed & Hed & Hend).
      exists ed. split; [|done].
      rewrite lookup_insert_ne; [done|]. intros <-. congruence.
    + exists {| output := out; input := inp |}.
      rewrite lookup_insert_eq. split; [done|]. simpl. destruct Hd; auto.
  - intros p r Hp. destruct (Hrow p r Hp) as (r1 & Hp1 & Hedges).
    rewrite Hedges, Hof, (Hof1 p r1 Hp1).
    case_decide; [|by eapply Ho].
    apply NoDup_app. split; [by eapply Ho|]. split; [|apply NoDup_singleton].
    intros x Hx Hx'. apply list_elem_of_singleton in Hx' as ->.
    by eapply Hold.
  - intros x edx Hx. simpl in Hx. rewrite !Hof.
    destruct (decide (x = edge)) as [->|Hxe].
    + rewrite lookup_insert_eq in Hx. simplify_eq. simpl.
      rewrite !decide_True by auto. rewrite !elem_of_app.
      split; intros _; right; apply list_elem_of_here.
    + rewrite lookup_insert_ne in Hx by done.
      specialize (Hb x edx Hx).
      assert (Happ : ∀ l : list NodeEdgePtr, x ∈ l ++ [edge] ↔ x ∈ l).
      { intros l. rewrite elem_of_app, list_elem_of_singleton. tauto. }
      do 2 case_decide; rewrite ?Happ; exact Hb.
  - intros x edx Hx. simpl in Hx.
    destruct (decide (x = edge)) as [->|Hxe].
    + rewrite lookup_insert_eq in Hx. by simplify_eq.
    + rewrite lookup_insert_ne in Hx by done. by eapply Hl.
Qed.

Lemma graph_calls_registered cs : ∀ g g',
  registered g → graph_calls cs g = Some g' → registered g'.
Proof.
  induction cs as [|c cs IH]; simpl; intros g g' Hreg Hrun.
  - by simplify_eq.
  - destruct (graph_call c g) as [g1|] eqn:Hc; [|done].
    eapply IH; [|exact Hrun].
    destruct c as [a b|e]; simpl in Hc.
    + by eapply ConnectEdge_registered.
    + by eapply DisconnectEdge_registered.
Qed.

Lemma example_graph_edge_free : edge_free example_graph.
Proof.
  split; [done|]. intros p r Hp. unfold example_graph in Hp. simpl in Hp.
  repeat (apply lookup_insert_Some in Hp as [[_ <-]|[_ Hp]]; [done|]).
  by rewrite lookup_empty in Hp.
Qed.

End MoreGraph.

(** X5: ConnectEdge and DisconnectEdge touch nothing but edge vectors.
    After any sequence of calls that does not abort, the graph has the same
    rows, and each row has every member it had (id, name, flags, accepted
    inputs, output type, fields) with only its edge vector possibly
    different; in particular no row changes sides. *)
Theorem X5_graph_calls_keep_rows cs g g' :
  graph_calls cs g = Some g' →
  ∀ p, match rows g !! p with
       | Some r =>
           ∃ r', rows g' !! p = Some r' ∧
                 r' = set_node_edges (node_edges_ r') r ∧
                 IsNodeInput r' = IsNodeInput r ∧
                 IsNodeOutput r' = IsNodeOutput r
       | None => rows g' !! p = None
       end.
Proof.
  intros Hrun p. pose proof (graph_calls_framed cs g g' Hrun p) as H.
  destruct (rows g !! p) as [r|]; [|done].
  destruct H as [l Hl]. exists (set_node_edges l r). by rewrite Hl.
Qed.

Lemma X5_graph_calls_keep_rows_witness :
  ∃ g' r', graph_calls [CallConnectEdge row_B row_A; CallConnectEdge row_C row_A;
                        CallDisconnectEdge 1%nat] example_graph = Some g' ∧
           rows g' !! row_A = Some r' ∧
           r' = set_node_edges (node_edges_ r') input_row.
Proof.
  destruct (graph_calls [CallConnectEdge row_B row_A; CallConnectEdge row_C row_A;
                         CallDisconnectEdge 1%nat] example_graph)
    as [g'|] eqn:Hrun; [|vm_compute in Hrun; discriminate].
  pose proof (X5_graph_calls_keep_rows _ _ _ Hrun row_A) as H.
  change (rows example_graph !! row_A) with (Some input_row) in H.
  destruct H as (r' & Hr' & Heq & _).
  exists g', r'. split; [reflexivity|]. split; [exact Hr'|exact Heq].
Defined.

(** X6: the edge vectors stay consistent, whatever rows are connected.
    Starting from a graph without edges, after any sequence of ConnectEdge
    and DisconnectEdge calls that does not abort: an edge on the vector of a
    row is an allocated edge with that row as its output or input; it is on
    that vector once; an allocated edge is on the vector of its output row
    exactly when it is on the vector of its input row; and no edge has the
    same row as output and input. *)
Theorem X6_edges_registered_on_both_ends cs g g' :
  edge_free g →
  graph_calls cs g = Some g' →
  (∀ p e, e ∈ edges_of p g' →
     ∃ ed, edges g' !! e = Some ed ∧ (output ed = p ∨ input ed = p)) ∧
  (∀ p, NoDup (edges_of p g')) ∧
  (∀ e ed, edges g' !! e = Some ed →
     (e ∈ edges_of (output ed) g' ↔ e ∈ edges_of (input ed) g') ∧
     output ed ≠ input ed).
Proof.
  intros Hfree Hrun.
  destruct (graph_calls_registered cs g g' (edge_free_registered g Hfree) Hrun)
    as [Hi Ho Hb Hl].
  split; [|split].
  - intros p e. unfold edges_of.
    destruct (rows g' !! p) as [r|] eqn:Hp; [by apply Hi|].
    intros H. by apply elem_of_nil in H.
  - intros p. unfold edges_of.
    destruct (rows g' !! p) as [r|] eqn:Hp; [by eapply Ho|constructor].
  - intros e ed Hed. split; [by apply Hb|by eapply Hl].
Qed.

Lemma X6_edges_registered_on_both_ends_witness :
  ∃ g', graph_calls [CallConnectEdge row_A row_U1; CallConnectEdge row_A row_U2;
                     CallConnectEdge row_B row_A] example_graph = Some g' ∧
        (∀ p, NoDup (edges_of p g')) ∧
        (∀ e ed, edges g' !! e = Some ed → output ed ≠ input ed).
Proof.
  destruct (graph_calls [CallConnectEdge row_A row_U1; CallConnectEdge row_A row_U2;
                         CallConnectEdge row_B row_A] example_graph)
    as [g'|] eqn:Hrun; [|vm_compute in Hrun; discriminate].
  destruct (X6_edges_registered_on_both_ends _ _ _ example_graph_edge_free Hrun)
    as (_ & Hnd & Hb).
  exists g'. split; [reflexivity|]. split; [exact Hnd|].
  intros e ed Hed. exact (proj2 (Hb e ed Hed)).
Defined.

(** X7: connecting and then disconnecting is a round trip on the edge
    vectors. On a graph from an edge-free start, when the row that
    ConnectEdge(a, b) treats as the input has no edge, the call registers one
    new edge from the output side to the input side, and DisconnectEdge of
    that edge succeeds and leaves every row exactly as it was before the
    connection. *)
Theorem X7_connect_disconnect_round_trip cs g0 a b g g1 :
  edge_free g0 →
  graph_calls cs g0 = Some g →
  edges_of (input_side a b g) g = [] →
  ConnectEdge a b g = Some g1 →
  ∃ edge g2,
    edges g !! edge = None ∧
    edges g1 !! edge
      = Some {| output := output_side a b g; input := input_side a b g |} ∧
    edges_of (input_side a b g) g1 = [edge] ∧
    edges_of (output_side a b g) g1
      = edges_of (output_side a b g) g ++ [edge] ∧
    DisconnectEdge edge g1 = Some g2 ∧
    rows g2 = rows g.
Proof.
  intros Hfree Hrun Hempty H.
  pose proof (graph_calls_registered cs g0 g (edge_free_registered g0 Hfree) Hrun)
    as [Hi _ _ _].
  apply ConnectEdge_unfold in H
    as (o & i & ri & g1' & ro1 & ri1 & _ & _ & _ & _ & Hne & Hri & Hg1
        & Hro1 & Hri1 & ->).
  set (out := output_side a b g) in *. set (inp := input_side a b g) in *.
  unfold edges_of in Hempty. rewrite Hri in Hempty. rewrite Hempty in Hg1.
  injection Hg1 as <-. assert (ri1 = ri) as -> by congruence.
  set (edge := fresh (dom (edges g))) in *.
  assert (Hfresh : edges g !! edge = None)
    by apply not_elem_of_dom, is_fresh.
  assert (Hno : edge ∉ node_edges_ ro1).
  { intros Hin. destruct (Hi out ro1 edge Hro1 Hin) as (ed & Hed & _).
    congruence. }
  assert (Hout : removeAll edge (node_edges_ ro1 ++ [edge]) = node_edges_ ro1)
    by (by apply removeAll_snoc).
  assert (Hinp : removeAll edge (node_edges_ ri ++ [edge]) = node_edges_ ri).
  { apply removeAll_snoc. rewrite Hempty. apply not_elem_of_nil. }
  eexists edge, _. split; [done|].
  split; [simpl; by rewrite lookup_insert_eq|].
  split; [unfold edges_of; simpl; by rewrite lookup_insert_eq, Hempty|].
  split.
  { unfold edges_of. simpl. rewrite lookup_insert_ne by done.
    by rewrite lookup_insert_eq, Hro1. }
  unfold DisconnectEdge, remove_edge. simpl.
  rewrite lookup_insert_eq. simpl.
  rewrite (lookup_insert_ne _ inp out) by done.
  rewrite lookup_insert_eq. simpl.
  rewrite (lookup_insert_ne _ out inp) by done.
  rewrite lookup_insert_eq. simpl.
  split; [reflexivity|]. simpl.
  rewrite Hout, Hinp.
  apply map_eq. intros p.
  destruct (decide (p = inp)) as [->|Hpi].
  - rewrite lookup_insert_eq, Hri. by destruct ri.
  - rewrite lookup_insert_ne by done.
    destruct (decide (p = out)) as [->|Hpo].
    + rewrite lookup_insert_eq, Hro1. by destruct ro1.
    + by rewrite !lookup_insert_ne by done.
Qed.

Lemma X7_connect_disconnect_round_trip_witness :
  ∃ g1 edge g2,
    ConnectEdge row_C row_A example_graph = Some g1 ∧
    DisconnectEdge edge g1 = Some g2 ∧
    rows g2 = rows example_graph.
Proof.
  destruct (ConnectEdge row_C row_A example_graph) as [g1|] eqn:Hc;
    [|vm_compute in Hc; discriminate].
  destruct (X7_connect_disconnect_round_trip [] example_graph row_C row_A
              example_graph g1 example_graph_edge_free eq_refl eq_refl Hc)
    as (edge & g2 & _ & _ & _ & _ & Hd & Hr).
  exists g1, edge, g2. split; [reflexivity|]. split; [exact Hd|exact Hr].
Defined.

(** X8: DisconnectEdge of an edge that is already disconnected is harmless
    but not silent: after a successful DisconnectEdge, the edge is on the
    vector of neither endpoint, and a second DisconnectEdge of the same edge
    succeeds, changes no row and no edge, and emits EdgesChanged of the
    output row once more. *)
Theorem X8_DisconnectEdge_twice e g g1 :
  DisconnectEdge e g = Some g1 →
  ∃ ed g2,
    edges g !! e = Some ed ∧
    (e ∉ edges_of (output ed) g1) ∧ (e ∉ edges_of (input ed) g1) ∧
    DisconnectEdge e g1 = Some g2 ∧
    rows g2 = rows g1 ∧ edges g2 = edges g1 ∧
    emitted g2 = emitted g1 ++ [EdgesChanged (output ed)].
Proof.
  intros H.
  pose proof (DisconnectEdge_edges_of e g g1 H) as (ed & Hed & He & Hof).
  assert (Hsome : is_Some (DisconnectEdge e g)) by eauto.
  apply DisconnectEdge_is_Some in Hsome as (ed' & Hed' & [ro Ho] & [ri Hi]).
  assert (ed' = ed) as -> by congruence.
  apply DisconnectEdge_rows in H as (ed' & Hed'' & _ & Hr).
  assert (ed' = ed) as -> by congruence.
  assert (Hsome : is_Some (DisconnectEdge e g1)).
  { apply DisconnectEdge_is_Some. exists ed. rewrite He, !Hr, Ho, Hi.
    split; [done|]. split; simpl; eauto. }
  destruct Hsome as [g2 H2]. exists ed, g2.
  split; [done|].
  split; [rewrite Hof, decide_True by auto; rewrite removeAll_elem; tauto|].
  split; [rewrite Hof, decide_True by auto; rewrite removeAll_elem; tauto|].
  split; [done|].
  pose proof (DisconnectEdge_emitted e g1 g2 H2) as (ed' & Hed1 & Hem & He2).
  assert (ed' = ed) as -> by congruence.
  apply DisconnectEdge_rows in H2 as (ed' & Hed2 & _ & Hr2).
  assert (ed' = ed) as -> by congruence.
  split; [|done].
  apply map_eq. intros p. rewrite Hr2, Hr.
  destruct (rows g !! p) as [r|]; simpl; [|done].
  f_equal. unfold disconnected. case_decide; simpl; [|done].
  by rewrite removeAll_idemp.
Qed.

Lemma X8_DisconnectEdge_twice_witness :
  ∃ g1 g2 g3,
    ConnectEdge row_B row_A example_graph = Some g1 ∧
    DisconnectEdge 0%nat g1 = Some g2 ∧
    DisconnectEdge 0%nat g2 = Some g3 ∧
    rows g3 = rows g2.
Proof.
  destruct (ConnectEdge row_B row_A example_graph) as [g1|] eqn:Hc;
    [|vm_compute in Hc; discriminate].
  destruct (DisconnectEdge 0%nat g1) as [g2|] eqn:Hd;
    [|vm_compute in Hc; simplify_eq; vm_compute in Hd; discriminate].
  destruct (X8_DisconnectEdge_twice _ _ _ Hd)
    as (ed & g3 & _ & _ & _ & Hd2 & Hr & _).
  exists g1, g2, g3. split; [reflexivity|]. split; [exact Hd|].
  split; [exact Hd2|exact Hr].
Defined.

Section GraphSuccess.

Implicit Types (g : Graph) (p : NodeIOPtr) (e : NodeEdgePtr) (r : NodeIO).

Lemma framed_is_Some g g' p :
  framed g g' → is_Some (rows g !! p) → is_Some (rows g' !! p).
Proof.
  intros Hf [r Hr]. specialize (Hf p). rewrite Hr in Hf.
  destruct Hf as [l ->]. eauto.
Qed.

Lemma framed_class g g' p r :
  framed g g' → rows g !! p = Some r →
  ∃ r', rows g' !! p = Some r' ∧
        IsNodeInput r' = IsNodeInput r ∧ IsNodeOutput r' = IsNodeOutput r.
Proof.
  intros Hf Hr. specialize (Hf p). rewrite Hr in Hf.
  destruct Hf as [l ->]. eauto.
Qed.

Lemma edge_free_endpoints_exist g : edge_free g → endpoints_exist g.
Proof. intros [He _] e ed Hed. by rewrite He, lookup_empty in Hed. Qed.

Lemma DisconnectEdge_endpoints_exist e g g' :
  endpoints_exist g → DisconnectEdge e g = Some g' → endpoints_exist g'.
Proof.
  intros Hex H x edx Hx.
  pose proof (DisconnectEdge_framed e g g' H) as Hf.
  apply DisconnectEdge_rows in H as (ed & _ & He & _).
  rewrite He in Hx. destruct (Hex x edx Hx) as [Ho Hi].
  split; by eapply framed_is_Some.
Qed.

Lemma ConnectEdge_endpoints_exist a b g g' :
  endpoints_exist g → ConnectEdge a b g = Some g' → endpoints_exist g'.
Proof.
  intros Hex H x edx Hx.
  pose proof (ConnectEdge_framed a b g g' H) as Hf.
  pose proof (ConnectEdge_emitted a b g g' H)
    as (o & i & edge & out & inp & Ha & Hb & _ & Hsw & Hfresh & He & _).
  rewrite He in Hx.
  destruct (decide (x = edge)) as [->|Hne].
  - rewrite lookup_insert_eq in Hx. simplify_eq. simpl.
    destruct (IsNodeOutput i); simplify_eq;
      split; eapply framed_is_Some; eauto.
  - rewrite lookup_insert_ne in Hx by done.
    destruct (Hex x edx Hx) as [Ho Hi].
    split; by eapply framed_is_Some.
Qed.

Lemma graph_calls_endpoints_exist cs : ∀ g g',
  endpoints_exist g → graph_calls cs g = Some g' → endpoints_exist g'.
Proof.
  induction cs as [|c cs IH]; simpl; intros g g' Hex Hrun.
  - by simplify_eq.
  - destruct (graph_call c g) as [g1|] eqn:Hc; [|done].
    eapply IH; [|exact Hrun].
    destruct c as [a b|e]; simpl in Hc.
    + by eapply ConnectEdge_endpoints_exist.
    + by eapply DisconnectEdge_endpoints_exist.
Qed.

(** When [ConnectEdge] goes through. *)
Lemma ConnectEdge_is_Some a b g ra rb :
  registered g → endpoints_exist g →
  rows g !! a = Some ra → rows g !! b = Some rb →
  IsNodeInput ra ≠ IsNodeInput rb →
  is_Some (ConnectEdge a b g).
Proof.
  intros Hreg Hex Ha Hb Hx. unfold ConnectEdge.
  rewrite Ha, Hb. simpl. unfold Q_ASSERT.
  assert (negb (eqb (IsNodeInput ra) (IsNodeInput rb)) = true) as ->
    by (by destruct (IsNodeInput ra), (IsNodeInput rb)).
  assert (Hab : a ≠ b) by (intros ->; congruence).
  assert (Hstep : ∀ out inp ro ri,
    out ≠ inp → rows g !! out = Some ro → rows g !! inp = Some ri →
    is_Some (
      ri ← rows g !! inp;
      g1 ← match node_edges_ ri with
           | first :: _ => DisconnectEdge first g
           | [] => Some g
           end;
      let '(edge, g2) := make_shared out inp g1 in
      g3 ← append_edge out edge g2;
      g4 ← append_edge inp edge g3;
      Some (emit_EdgesChanged out g4))).
  { intros out inp ro ri Hne Ho Hi. rewrite Hi. simpl.
    assert (Hg1 : ∃ g1, match node_edges_ ri with
                        | first :: _ => DisconnectEdge first g
                        | [] => Some g
                        end = Some g1 ∧ framed g g1).
    { destruct (node_edges_ ri) as [|first l] eqn:Hl.
      - exists g. split; [done|apply framed_refl].
      - destruct (reg_incident g Hreg inp ri first Hi) as (ed & Hed & _).
        { rewrite Hl. apply list_elem_of_here. }
        destruct (Hex first ed Hed) as [Hro Hri].
        destruct (proj2 (DisconnectEdge_is_Some first g)) as [g1 Hd]; [eauto|].
        exists g1. split; [done|]. by eapply DisconnectEdge_framed. }
    destruct Hg1 as (g1 & -> & Hf). simpl.
    destruct (framed_is_Some g g1 out Hf) as [ro1 Hro1]; [eauto|].
    destruct (framed_is_Some g g1 inp Hf) as [ri1 Hri1]; [eauto|].
    unfold append_edge. simpl. rewrite Hro1. simpl.
    rewrite lookup_insert_ne by done. rewrite Hri1. simpl. eauto. }
  destruct (IsNodeOutput rb).
  - by apply (Hstep b a rb ra).
  - by apply (Hstep a b ra rb).
Qed.

Lemma edge_free_directed g : edge_free g → directed g.
Proof. intros [He _] e ed Hed. by rewrite He, lookup_empty in Hed. Qed.

Lemma framed_directed g g' :
  framed g g' → edges g' = edges g → directed g → directed g'.
Proof.
  intros Hf He Hd e ed Hed. rewrite He in Hed.
  destruct (Hd e ed Hed) as (ro & ri & Hro & Hri & Oo & Ii).
  destruct (framed_class g g' _ ro Hf Hro) as (ro' & Hro' & _ & Oo').
  destruct (framed_class g g' _ ri Hf Hri) as (ri' & Hri' & Ii' & _).
  exists ro', ri'. by rewrite Hro', Hri', Oo', Ii'.
Qed.

Lemma graph_calls_directed cs : ∀ g g',
  single_input g → directed g → graph_calls cs g = Some g' →
  single_input g' ∧ directed g'.
Proof.
  induction cs as [|c cs IH]; simpl; intros g g' Hinv Hd Hrun.
  - by simplify_eq.
  - destruct (graph_call c g) as [g1|] eqn:Hc; [|done].
    eapply IH; [| |exact Hrun];
      destruct c as [a b|e]; simpl in Hc.
    + by eapply ConnectEdge_single_input.
    + by eapply DisconnectEdge_single_input.
    + pose proof (ConnectEdge_framed a b g g1 Hc) as Hf.
      destruct (ConnectEdge_endpoints a b g g1 Hinv Hc)
        as (edge & out & inp & ro & ri & Hfresh & He & Hro & Hri & Oo & Ii).
      intros x edx Hx. rewrite He in Hx.
      destruct (decide (x = edge)) as [->|Hne].
      * rewrite lookup_insert_eq in Hx. simplify_eq. simpl.
        destruct (framed_class g g1 _ ro Hf Hro) as (ro' & Hro' & _ & Oo').
        destruct (framed_class g g1 _ ri Hf Hri) as (ri' & Hri' & Ii' & _).
        exists ro', ri'. by rewrite Hro', Hri', Oo', Ii'.
      * rewrite lookup_insert_ne in Hx by done.
        destruct (Hd x edx Hx) as (ro0 & ri0 & Hro0 & Hri0 & Oo0 & Ii0).
        destruct (framed_class g g1 _ ro0 Hf Hro0) as (ro' & Hro' & _ & Oo').
        destruct (framed_class g g1 _ ri0 Hf Hri0) as (ri' & Hri' & Ii' & _).
        exists ro', ri'. by rewrite Hro', Hri', Oo', Ii'.
    + pose proof (DisconnectEdge_framed e g g1 Hc) as Hf.
      apply DisconnectEdge_rows in Hc as (ed & _ & He & _).
      by eapply framed_directed.
Qed.

Lemma edge_free_single_input g :
  edge_free g → (∀ p r, rows g !! p = Some r → classified r) →
  single_input g.
Proof.
  intros [He Hr] Hc. split; [done| |].
  - intros p r e Hp Hin. rewrite (Hr p r Hp) in Hin.
    by apply elem_of_nil in Hin.
  - intros p r Hp _. rewrite (Hr p r Hp). simpl. lia.
Qed.

End GraphSuccess.

(** X17: on rows that are all classified the graph is what it is meant to
    be. Starting without edges from rows each of which is an input or an
    output and not both, after any sequence of ConnectEdge and
    DisconnectEdge calls that does not abort, an input row has at most one
    edge, and every allocated edge has an output row as its output and an
    input row as its input. *)
Theorem X17_classified_rows_single_input cs g g' :
  edge_free g →
  (∀ p r, rows g !! p = Some r → IsNodeInput r = negb (IsNodeOutput r)) →
  graph_calls cs g = Some g' →
  (∀ p r, rows g' !! p = Some r → IsNodeInput r = true →
     (length (node_edges_ r) ≤ 1)%nat) ∧
  (∀ e ed, edges g' !! e = Some ed →
     ∃ ro ri, rows g' !! output ed = Some ro ∧ rows g' !! input ed = Some ri ∧
              IsNodeOutput ro = true ∧ IsNodeInput ri = true).
Proof.
  intros Hfree Hclass Hrun.
  destruct (graph_calls_directed cs g g'
              (edge_free_single_input g Hfree Hclass)
              (edge_free_directed g Hfree) Hrun) as [Hinv Hd].
  split; [apply (input_single g' Hinv)|exact Hd].
Qed.

Lemma X17_classified_rows_single_input_witness :
  ∃ g', graph_calls [CallConnectEdge row_B row_A; CallConnectEdge row_A row_C]
          {| rows := <[row_A := input_row]> (<[row_B := output_row]>
                     (<[row_C := output_row]> ∅));
             edges := ∅; emitted := [] |} = Some g' ∧
        ∀ p r, rows g' !! p = Some r → IsNodeInput r = true →
               (length (node_edges_ r) ≤ 1)%nat.
Proof.
  destruct (graph_calls [CallConnectEdge row_B row_A; CallConnectEdge row_A row_C]
          {| rows := <[row_A := input_row]> (<[row_B := output_row]>
                     (<[row_C := output_row]> ∅));
             edges := ∅; emitted := [] |}) as [g'|] eqn:Hrun;
    [|vm_compute in Hrun; discriminate].
  exists g'. split; [reflexivity|].
  refine (proj1 (X17_classified_rows_single_input _ _ _ _ _ Hrun)).
  - split; [done|]. intros p r Hp. simpl in Hp.
    repeat (apply lookup_insert_Some in Hp as [[_ <-]|[_ Hp]]; [done|]).
    by rewrite lookup_empty in Hp.
  - intros p r Hp. simpl in Hp.
    repeat (apply lookup_insert_Some in Hp as [[_ <-]|[_ Hp]]; [done|]).
    by rewrite lookup_empty in Hp.
Defined.

(** X18: what ConnectEdge and DisconnectEdge ask for, and nothing more. On a
    graph reached from an edge-free one, ConnectEdge(a, b) on two rows of
    the graph goes through exactly when one of the two is an input and the
    other is not; the data types the rows accept or produce play no part.
    DisconnectEdge goes through for every edge that was ever made, connected
    or not. *)
Theorem X18_ConnectEdge_succeeds_iff cs g0 g a b ra rb :
  edge_free g0 →
  graph_calls cs g0 = Some g →
  rows g !! a = Some ra → rows g !! b = Some rb →
  (is_Some (ConnectEdge a b g) ↔ IsNodeInput ra ≠ IsNodeInput rb) ∧
  (∀ e, is_Some (edges g !! e) → is_Some (DisconnectEdge e g)).
Proof.
  intros Hfree Hrun Ha Hb.
  pose proof (graph_calls_registered cs g0 g (edge_free_registered g0 Hfree) Hrun)
    as Hreg.
  pose proof (graph_calls_endpoints_exist cs g0 g
                (edge_free_endpoints_exist g0 Hfree) Hrun) as Hex.
  split; [split|].
  - intros [g' H]. apply ConnectEdge_emitted in H
      as (o & i & _ & _ & _ & Ha' & Hb' & Hx & _). congruence.
  - by eapply ConnectEdge_is_Some.
  - intros e [ed Hed]. apply DisconnectEdge_is_Some.
    exists ed. split; [done|]. exact (Hex e ed Hed).
Qed.

Lemma X18_ConnectEdge_succeeds_iff_witness :
  is_Some (ConnectEdge row_B row_A example_graph) ∧
  ¬ is_Some (ConnectEdge row_B row_C example_graph).
Proof.
  split.
  - apply (proj1 (X18_ConnectEdge_succeeds_iff [] example_graph example_graph
                    row_B row_A output_row input_row
                    example_graph_edge_free eq_refl eq_refl eq_refl)).
    vm_compute. congruence.
  - intros H.
    apply (proj1 (X18_ConnectEdge_succeeds_iff [] example_graph example_graph
                    row_B row_C output_row output_row
                    example_graph_edge_free eq_refl eq_refl eq_refl)) in H.
    by apply H.
Defined.

(** ** More on jumping to the neighbouring keyframe *)

Section MoreNavigation.

Import Long.

Implicit Types (r : NodeIO).

(** What the two searches answer, in terms of the converted times. *)
Lemma previous_described r :
  let ph := playhead (parent_clip (parent r)) in
  match GoToPreviousKeyframe r with
  | Some key =>
      key ∈ converted_times r ∧ LONG_MIN < key < ph ∧
      ∀ t, t ∈ converted_times r → t < ph → t ≤ key
  | None => ∀ t, t ∈ converted_times r → ¬ (LONG_MIN < t < ph)
  end.
Proof.
  intros ph. unfold GoToPreviousKeyframe.
  rewrite previous_key_converted. fold ph.
  destruct (previous_fold ph (converted_times r) LONG_MIN)
    as (Hres & Hle & Hmax).
  destruct (Z.eqb_spec
    (fold_left (previous_step ph) (converted_times r) LONG_MIN)
    LONG_MIN) as [Heq|Hne]; simpl.
  - intros t Ht [Hlo Hhi]. specialize (Hmax t Ht Hhi). lia.
  - destruct Hres as [Hres|[Hin Hlt]]; [done|].
    split; [done|]. split; [lia|done].
Qed.

Lemma next_described r :
  let ph := playhead (parent_clip (parent r)) in
  match GoToNextKeyframe r with
  | Some key =>
      key ∈ converted_times r ∧ ph < key < LONG_MAX ∧
      ∀ t, t ∈ converted_times r → ph < t → key ≤ t
  | None => ∀ t, t ∈ converted_times r → ¬ (ph < t < LONG_MAX)
  end.
Proof.
  intros ph. unfold GoToNextKeyframe.
  rewrite next_key_converted. fold ph.
  destruct (next_fold ph (converted_times r) LONG_MAX)
    as (Hres & Hle & Hmin).
  destruct (Z.eqb_spec
    (fold_left (next_step ph) (converted_times r) LONG_MAX)
    LONG_MAX) as [Heq|Hne]; simpl.
  - intros t Ht [Hlo Hhi]. specialize (Hmin t Ht Hlo). lia.
  - destruct Hres as [Hres|[Hin Hlt]]; [done|].
    split; [done|]. split; [lia|done].
Qed.

(** The answers are determined by the converted times on each side of the
    playhead. *)
Lemma previous_determined r r' :
  playhead (parent_clip (parent r)) = playhead (parent_clip (parent r')) →
  (∀ t, t < playhead (parent_clip (parent r)) →
        (t ∈ converted_times r ↔ t ∈ converted_times r')) →
  GoToPreviousKeyframe r = GoToPreviousKeyframe r'.
Proof.
  intros Hph Hsame.
  pose proof (previous_described r) as H. pose proof (previous_described r') as H'.
  simpl in H, H'. rewrite <- Hph in H'.
  destruct (GoToPreviousKeyframe r) as [k|], (GoToPreviousKeyframe r') as [k'|].
  - destruct H as (Hin & Hr & Hmax), H' as (Hin' & Hr' & Hmax').
    f_equal. apply Z.le_antisymm.
    + apply Hmax'; [|lia]. apply Hsame; [lia|done].
    + apply Hmax; [|lia]. apply Hsame; [lia|done].
  - destruct H as (Hin & Hr & _). exfalso.
    apply (H' k); [|done]. apply Hsame; [lia|done].
  - destruct H' as (Hin' & Hr' & _). exfalso.
    apply (H k'); [|done]. apply Hsame; [lia|done].
  - done.
Qed.

Lemma next_determined r r' :
  playhead (parent_clip (parent r)) = playhead (parent_clip (parent r')) →
  (∀ t, playhead (parent_clip (parent r)) < t →
        (t ∈ converted_times r ↔ t ∈ converted_times r')) →
  GoToNextKeyframe r = GoToNextKeyframe r'.
Proof.
  intros Hph Hsame.
  pose proof (next_described r) as H. pose proof (next_described r') as H'.
  simpl in H, H'. rewrite <- Hph in H'.
  destruct (GoToNextKeyframe r) as [k|], (GoToNextKeyframe r') as [k'|].
  - destruct H as (Hin & Hr & Hmin), H' as (Hin' & Hr' & Hmin').
    f_equal. apply Z.le_antisymm.
    + apply Hmin; [|lia]. apply Hsame; [lia|done].
    + apply Hmin'; [|lia]. apply Hsame; [lia|done].
  - destruct H as (Hin & Hr & _). exfalso.
    apply (H' k); [|done]. apply Hsame; [lia|done].
  - destruct H' as (Hin' & Hr' & _). exfalso.
    apply (H k'); [|done]. apply Hsame; [lia|done].
  - done.
Qed.

Lemma converted_times_at_playhead ph r :
  converted_times (row_at_playhead ph r) = converted_times r.
Proof. reflexivity. Qed.

Lemma converted_times_stored r :
  converted_times r
  = map (converted (parent_clip (parent r))) (stored_times r).
Proof.
  unfold converted_times, stored_times.
  induction (fields_ r) as [|f fs IH]; simpl; [done|].
  by rewrite map_app, map_map, IH.
Qed.

End MoreNavigation.

(** X9: the two searches look at nothing but the set of converted keyframe
    times away from the playhead. Two rows with the same playhead whose
    converted times agree, as sets, except possibly at the playhead itself,
    get the same answers from GoToPreviousKeyframe and from
    GoToNextKeyframe: which field holds a keyframe, the order of the
    keyframes, repeated times and keyframes at the playhead make no
    difference. *)
Theorem X9_navigation_by_set_of_times r r' :
  playhead (parent_clip (parent r)) = playhead (parent_clip (parent r')) →
  (∀ t, t ≠ playhead (parent_clip (parent r)) →
        (t ∈ converted_times r ↔ t ∈ converted_times r')) →
  GoToPreviousKeyframe r = GoToPreviousKeyframe r' ∧
  GoToNextKeyframe r = GoToNextKeyframe r'.
Proof.
  intros Hph Hsame. split.
  - apply previous_determined; [done|]. intros t Ht. apply Hsame. lia.
  - apply next_determined; [done|]. intros t Ht. apply Hsame. lia.
Qed.

Lemma X9_navigation_by_set_of_times_witness :
  GoToPreviousKeyframe (row_with_times 10 [[5; 15]; [10]])
  = GoToPreviousKeyframe (row_with_times 10 [[15; 5; 5]]) ∧
  GoToNextKeyframe (row_with_times 10 [[5; 15]; [10]])
  = GoToNextKeyframe (row_with_times 10 [[15; 5; 5]]).
Proof.
  apply X9_navigation_by_set_of_times; [reflexivity|].
  intros t Ht.
  change (converted_times (row_with_times 10 [[5; 15]; [10]]))
    with ([Long.wrap (5 + Long.wrap (0 - 0)); Long.wrap (15 + Long.wrap (0 - 0));
           Long.wrap (10 + Long.wrap (0 - 0))]).
  change (converted_times (row_with_times 10 [[15; 5; 5]]))
    with ([Long.wrap (15 + Long.wrap (0 - 0)); Long.wrap (5 + Long.wrap (0 - 0));
           Long.wrap (5 + Long.wrap (0 - 0))]).
  change (playhead (parent_clip (parent (row_with_times 10 [[5; 15]; [10]]))))
    with 10 in Ht.
  replace (Long.wrap (5 + Long.wrap (0 - 0))) with 5 by reflexivity.
  replace (Long.wrap (15 + Long.wrap (0 - 0))) with 15 by reflexivity.
  replace (Long.wrap (10 + Long.wrap (0 - 0))) with 10 by reflexivity.
  rewrite !elem_of_cons, !elem_of_nil. lia.
Defined.

(** X10: from a keyframe, jumping back and then forward returns to it. When
    a keyframe's converted time is the playhead, the sequence frame
    GoToPreviousKeyframe asks for is one from which GoToNextKeyframe asks for
    the original playhead again (unless the playhead is LONG_MAX), and the
    other way round (unless the playhead is LONG_MIN). *)
Theorem X10_back_and_forth r key :
  let ph := playhead (parent_clip (parent r)) in
  ph ∈ converted_times r →
  (GoToPreviousKeyframe r = Some key → ph < Long.LONG_MAX →
   GoToNextKeyframe (row_at_playhead key r) = Some ph) ∧
  (GoToNextKeyframe r = Some key → Long.LONG_MIN < ph →
   GoToPreviousKeyframe (row_at_playhead key r) = Some ph).
Proof.
  intros ph Hon. split.
  - intros Hprev Hmax.
    pose proof (previous_described r) as H. simpl in H. rewrite Hprev in H.
    fold ph in H. destruct H as (Hin & Hr & Hbest).
    pose proof (next_described (row_at_playhead key r)) as H'.
    rewrite converted_times_at_playhead in H'. simpl in H'.
    destruct (GoToNextKeyframe (row_at_playhead key r)) as [k'|].
    + destruct H' as (Hin' & Hr' & Hmin). f_equal.
      apply Z.le_antisymm; [apply Hmin; [done|lia]|].
      destruct (Z.le_gt_cases ph k') as [|Hlt]; [done|].
      specialize (Hbest k' Hin' ltac:(lia)). lia.
    + exfalso. apply (H' ph Hon). lia.
  - intros Hnext Hmin.
    pose proof (next_described r) as H. simpl in H. rewrite Hnext in H.
    fold ph in H. destruct H as (Hin & Hr & Hbest).
    pose proof (previous_described (row_at_playhead key r)) as H'.
    rewrite converted_times_at_playhead in H'. simpl in H'.
    destruct (GoToPreviousKeyframe (row_at_playhead key r)) as [k'|].
    + destruct H' as (Hin' & Hr' & Hmax). f_equal.
      apply Z.le_antisymm; [|apply Hmax; [done|lia]].
      destruct (Z.le_gt_cases k' ph) as [|Hlt]; [done|].
      specialize (Hbest k' Hin' ltac:(lia)). lia.
    + exfalso. apply (H' ph Hon). lia.
Qed.

Lemma X10_back_and_forth_witness :
  GoToPreviousKeyframe (row_with_times 10 [[5; 15]; [10]]) = Some 5 ∧
  GoToNextKeyframe (row_at_playhead 5 (row_with_times 10 [[5; 15]; [10]]))
  = Some 10.
Proof.
  split; [reflexivity|].
  apply (proj1 (X10_back_and_forth (row_with_times 10 [[5; 15]; [10]]) 5
                  ltac:(vm_compute; apply list_elem_of_further,
                        list_elem_of_further, list_elem_of_here)));
    [reflexivity | vm_compute; reflexivity].
Defined.

Section MovedClip.

Import Long.

Variables (r : NodeIO) (d : Z).

Let c := parent_clip (parent r).
Let off := timeline_in c - clip_in c.

Hypothesis offset_fits : LONG_MIN ≤ off ≤ LONG_MAX.
Hypothesis moved_offset_fits : LONG_MIN ≤ off + d ≤ LONG_MAX.
Hypothesis times_fit : ∀ t, t ∈ stored_times r →
  LONG_MIN < t + off < LONG_MAX ∧ LONG_MIN < t + off + d < LONG_MAX.

Lemma converted_fits t :
  t ∈ stored_times r → converted c t = t + off.
Proof.
  intros Ht. unfold converted, add, sub.
  rewrite (wrap_small (timeline_in c - clip_in c)) by (fold off; lia).
  apply wrap_small. fold off. destruct (times_fit t Ht). lia.
Qed.

Lemma converted_moved_fits t :
  t ∈ stored_times r →
  converted (parent_clip (parent (moved_by d r))) t = t + off + d.
Proof.
  intros Ht. unfold converted, add, sub. simpl. fold c.
  replace (timeline_in c + d - clip_in c) with (off + d) by (unfold off; lia).
  rewrite (wrap_small (off + d)) by lia.
  rewrite wrap_small; [lia|]. destruct (times_fit t Ht). lia.
Qed.

Lemma converted_times_fit t :
  t ∈ converted_times r →
  LONG_MIN < t < LONG_MAX ∧ LONG_MIN < t + d < LONG_MAX.
Proof.
  rewrite converted_times_stored. intros Ht.
  apply list_elem_of_In, in_map_iff in Ht as (s & <- & Hs).
  apply list_elem_of_In in Hs. fold c. rewrite converted_fits by done.
  by apply times_fit.
Qed.

Lemma converted_times_moved t :
  t ∈ converted_times (moved_by d r) ↔ t - d ∈ converted_times r.
Proof.
  rewrite !converted_times_stored.
  change (stored_times (moved_by d r)) with (stored_times r). fold c.
  split; intros Ht.
  - apply list_elem_of_In, in_map_iff in Ht as (s & <- & Hs).
    apply list_elem_of_In in Hs. rewrite converted_moved_fits by done.
    apply list_elem_of_In, in_map_iff. exists s.
    split; [|by apply list_elem_of_In].
    rewrite converted_fits by done. lia.
  - apply list_elem_of_In, in_map_iff in Ht as (s & Heq & Hs).
    apply list_elem_of_In in Hs. rewrite converted_fits in Heq by done.
    apply list_elem_of_In, in_map_iff. exists s.
    split; [|by apply list_elem_of_In].
    rewrite converted_moved_fits by done. lia.
Qed.

Lemma previous_moved :
  GoToPreviousKeyframe (moved_by d r) = (λ k, k + d) <$> GoToPreviousKeyframe r.
Proof.
  pose proof (previous_described r) as H.
  pose proof (previous_described (moved_by d r)) as H'.
  simpl in H, H'. fold c in H, H'.
  destruct (GoToPreviousKeyframe r) as [k|],
           (GoToPreviousKeyframe (moved_by d r)) as [k'|]; simpl.
  - destruct H as (Hin & Hr & Hmax), H' as (Hin' & Hr' & Hmax').
    f_equal. apply converted_times_moved in Hin'.
    specialize (Hmax (k' - d) Hin' ltac:(lia)).
    specialize (Hmax' (k + d)). rewrite converted_times_moved in Hmax'.
    replace (k + d - d) with k in Hmax' by lia.
    specialize (Hmax' Hin ltac:(lia)). lia.
  - destruct H as (Hin & Hr & _). exfalso.
    apply (H' (k + d)).
    + apply converted_times_moved. by replace (k + d - d) with k by lia.
    + destruct (converted_times_fit k Hin). lia.
  - destruct H' as (Hin' & Hr' & _). exfalso.
    apply converted_times_moved in Hin'.
    apply (H (k' - d) Hin'). destruct (converted_times_fit _ Hin'). lia.
  - done.
Qed.

Lemma next_moved :
  GoToNextKeyframe (moved_by d r) = (λ k, k + d) <$> GoToNextKeyframe r.
Proof.
  pose proof (next_described r) as H.
  pose proof (next_described (moved_by d r)) as H'.
  simpl in H, H'. fold c in H, H'.
  destruct (GoToNextKeyframe r) as [k|],
           (GoToNextKeyframe (moved_by d r)) as [k'|]; simpl.
  - destruct H as (Hin & Hr & Hmin), H' as (Hin' & Hr' & Hmin').
    f_equal. apply converted_times_moved in Hin'.
    specialize (Hmin (k' - d) Hin' ltac:(lia)).
    specialize (Hmin' (k + d)). rewrite converted_times_moved in Hmin'.
    replace (k + d - d) with k in Hmin' by lia.
    specialize (Hmin' Hin ltac:(lia)). lia.
  - destruct H as (Hin & Hr & _). exfalso.
    apply (H' (k + d)).
    + apply converted_times_moved. by replace (k + d - d) with k by lia.
    + destruct (converted_times_fit k Hin). lia.
  - destruct H' as (Hin' & Hr' & _). exfalso.
    apply converted_times_moved in Hin'.
    apply (H (k' - d) Hin'). destruct (converted_times_fit _ Hin'). lia.
  - done.
Qed.

End MovedClip.

(** X11: the jump targets move with the clip. When the clip is moved by d
    frames on the timeline and the playhead with it, the offset of the clip
    (timeline_in - clip_in) is within LONG_MIN and LONG_MAX before and after
    the move, and the sequence frame of every keyframe is strictly between
    LONG_MIN and LONG_MAX before and after the move, GoToPreviousKeyframe and
    GoToNextKeyframe ask for the frames they asked for before, plus d, and
    ask for nothing where they asked for nothing. *)
Theorem X11_navigation_moves_with_clip (r : NodeIO) (d : Z) :
  let off := timeline_in (parent_clip (parent r))
             - clip_in (parent_clip (parent r)) in
  Long.LONG_MIN ≤ off ≤ Long.LONG_MAX →
  Long.LONG_MIN ≤ off + d ≤ Long.LONG_MAX →
  (∀ t, t ∈ stored_times r →
     Long.LONG_MIN < t + off < Long.LONG_MAX ∧
     Long.LONG_MIN < t + off + d < Long.LONG_MAX) →
  GoToPreviousKeyframe (moved_by d r)
    = (λ k, k + d) <$> GoToPreviousKeyframe r ∧
  GoToNextKeyframe (moved_by d r)
    = (λ k, k + d) <$> GoToNextKeyframe r.
Proof.
  intros off H1 H2 H3. split.
  - by apply previous_moved.
  - by apply next_moved.
Qed.

Lemma X11_navigation_moves_with_clip_witness :
  GoToPreviousKeyframe (moved_by 100 (row_with_times 10 [[5; 15]; [10]]))
    = Some 105 ∧
  GoToNextKeyframe (moved_by 100 (row_with_times 10 [[5; 15]; [10]]))
    = Some 115.
Proof.
  assert (H : ∀ t, t ∈ stored_times (row_with_times 10 [[5; 15]; [10]]) →
            Long.LONG_MIN < t + (0 - 0) < Long.LONG_MAX ∧
            Long.LONG_MIN < t + (0 - 0) + 100 < Long.LONG_MAX).
  { intros t Ht.
    change (stored_times (row_with_times 10 [[5; 15]; [10]]))
      with [5; 15; 10] in Ht.
    rewrite !elem_of_cons, elem_of_nil in Ht.
    unfold Long.LONG_MIN, Long.LONG_MAX. lia. }
  exact (X11_navigation_moves_with_clip (row_with_times 10 [[5; 15]; [10]]) 100
           ltac:(unfold Long.LONG_MIN, Long.LONG_MAX; simpl; lia)
           ltac:(unfold Long.LONG_MIN, Long.LONG_MAX; simpl; lia) H).
Defined.

(** ** More on the keyframe methods *)

Section MoreToggle.

Variable interpolate : EffectKeyframe → EffectKeyframe → Z → QVariant.

Implicit Types (w : World) (x y : nat * nat) (sorted found : list (nat * nat)).

Lemma insert_sorted_perm x sorted : insert_sorted x sorted ≡ₚ x :: sorted.
Proof.
  induction sorted as [|y sorted IH]; simpl; [done|].
  destruct (y.2 <? x.2)%nat; [done|].
  rewrite IH. apply Permutation_swap.
Qed.

Lemma insert_sorted_sorted x sorted :
  StronglySorted index_ge sorted →
  StronglySorted index_ge (insert_sorted x sorted).
Proof.
  induction 1 as [|y sorted Hs IH Hall]; simpl.
  - repeat constructor.
  - destruct (Nat.ltb_spec y.2 x.2) as [Hlt|Hge].
    + constructor; [by constructor|].
      constructor; [unfold index_ge; lia|].
      eapply Forall_impl; [exact Hall|]. unfold index_ge. intros; lia.
    + constructor; [exact IH|].
      rewrite insert_sorted_perm. constructor; [done|exact Hall].
Qed.

Lemma filter_index_none i sorted :
  Forall (λ z, z.2 ≠ i) sorted → filter (λ z, z.2 = i) sorted = [].
Proof.
  induction 1 as [|z sorted Hz _ IH]; [done|].
  by rewrite filter_cons, decide_False, IH by done.
Qed.

(** Entries with the same keyframe index stay in the order they came. *)
Lemma insert_sorted_stable i x sorted :
  StronglySorted index_ge sorted →
  filter (λ y, y.2 = i) (insert_sorted x sorted)
  = filter (λ y, y.2 = i) sorted ++ (if decide (x.2 = i) then [x] else []).
Proof.
  induction 1 as [|y sorted Hs IH Hall]; simpl.
  - rewrite filter_cons, filter_nil. by case_decide.
  - destruct (Nat.ltb_spec y.2 x.2) as [Hlt|Hge].
    + rewrite (filter_cons _ x). destruct (decide (x.2 = i)) as [Hx|Hx].
      * rewrite (filter_index_none i (y :: sorted)); [done|].
        constructor; [lia|].
        eapply Forall_impl; [exact Hall|]. unfold index_ge. intros; lia.
      * by rewrite app_nil_r.
    + rewrite !(filter_cons _ y).
      destruct (decide (y.2 = i)); rewrite IH; reflexivity.
Qed.

Lemma sort_loop_perm found : ∀ sorted,
  fold_left (λ sorted x, insert_sorted x sorted) found sorted
  ≡ₚ sorted ++ found.
Proof.
  induction found as [|x found IH]; intros sorted; simpl.
  - by rewrite app_nil_r.
  - rewrite IH, insert_sorted_perm.
    by rewrite (Permutation_middle sorted found x).
Qed.

Lemma sort_loop_sorted found : ∀ sorted,
  StronglySorted index_ge sorted →
  StronglySorted index_ge
    (fold_left (λ sorted x, insert_sorted x sorted) found sorted).
Proof.
  induction found as [|x found IH]; intros sorted Hs; simpl; [done|].
  by apply IH, insert_sorted_sorted.
Qed.

Lemma sort_loop_stable i found : ∀ sorted,
  StronglySorted index_ge sorted →
  filter (λ y, y.2 = i)
    (fold_left (λ sorted x, insert_sorted x sorted) found sorted)
  = filter (λ y, y.2 = i) sorted ++ filter (λ y, y.2 = i) found.
Proof.
  induction found as [|x found IH]; intros sorted Hs; simpl.
  - by rewrite filter_nil, app_nil_r.
  - rewrite IH by (by apply insert_sorted_sorted).
    rewrite insert_sorted_stable by done.
    rewrite (filter_cons _ x). rewrite <- app_assoc.
    by case_decide.
Qed.

Lemma data_changes_length keyframing now fs : ∀ i,
  length (data_changes interpolate keyframing now i fs) = length fs.
Proof.
  induction fs as [|f fs IH]; intros i; simpl; [done|]. by rewrite IH.
Qed.

Lemma conversions_length enabled keyframing now fs : ∀ i,
  length (conversions interpolate enabled keyframing now i fs) = length fs.
Proof.
  induction fs as [|f fs IH]; intros i; simpl; [done|]. by rewrite IH.
Qed.

(** What [ToggleKeyframe] always does. *)
Lemma ToggleKeyframe_pushes w :
  ∃ w' ca,
    ToggleKeyframe interpolate w = Some w' ∧
    undo_stack w' = undo_stack w ++ [ca] ∧
    signals w' = signals w ∧
    length (fields_ (row w')) = length (fields_ (row w)) ∧
    keyframing_ (row w') = keyframing_ (row w) ∧
    (ca = [] ↔ fields_ (row w) = []).
Proof.
  destruct (found_from (parent_clip (parent (row w))) 0 (fields_ (row w)))
    as [|x found] eqn:Hf.
  - rewrite (ToggleKeyframe_create interpolate w Hf).
    eexists _, _. split; [done|]. simpl.
    split; [done|]. split; [done|]. split; [by rewrite length_map|].
    split; [done|].
    split; intros H.
    + apply (f_equal length) in H. rewrite data_changes_length in H.
      by destruct (fields_ (row w)).
    + by rewrite H.
  - assert (Hne : found_from (parent_clip (parent (row w))) 0 (fields_ (row w))
                  ≠ []) by (by rewrite Hf).
    rewrite (ToggleKeyframe_delete interpolate w Hne).
    eexists _, _. split; [done|]. simpl.
    split; [done|]. split; [done|]. split; [by rewrite length_map|].
    split; [done|].
    split; intros H.
    + exfalso. apply (f_equal length) in H. rewrite length_map in H.
      unfold sort_reverse in H. rewrite sort_loop_perm, Hf in H. done.
    + rewrite H in Hf. done.
Qed.

(** *** The number of fields *)

Lemma redo_length cmd w w' :
  redo cmd w = Some w' →
  length (fields_ (row w')) = length (fields_ (row w)).
Proof.
  destruct cmd as [b|j i|j old new|j before after]; simpl; intros H.
  - simplify_eq. by destruct (SetKeyframingInternal_fields b w) as (-> & _).
  - destruct (fields_ (row w) !! j) as [f|]; simplify_eq/=.
    destruct (removeAt i (keyframes f)); simplify_eq/=.
    by rewrite length_insert.
  - destruct (fields_ (row w) !! j) as [f|]; simplify_eq/=.
    by rewrite length_insert.
  - destruct (fields_ (row w) !! j) as [f|]; simplify_eq/=.
    by rewrite length_insert.
Qed.

Lemma SetKeyframingEnabled_length enabled answer_yes w w' :
  SetKeyframingEnabled interpolate enabled answer_yes w = Some w' →
  length (fields_ (row w')) = length (fields_ (row w)).
Proof.
  intros H.
  destruct (decide (enabled = keyframing_ (row w))) as [He|He].
  { rewrite SetKeyframingEnabled_same in H by done. by simplify_eq. }
  destruct enabled, (keyframing_ (row w)) eqn:Hk; try done.
  - rewrite SetKeyframingEnabled_enable in H by done. simplify_eq. simpl.
    destruct (SetKeyframingInternal_fields true
      (with_row (set_fields (map (prepared_field interpolate true false
                                    (Now (parent (row w)))) (fields_ (row w)))
                            (row w)) w)) as (-> & _).
    simpl. by rewrite length_map.
  - destruct answer_yes.
    + rewrite SetKeyframingEnabled_disable in H by done. simplify_eq. simpl.
      destruct (SetKeyframingInternal_fields false
        (with_row (set_fields (map (prepared_field interpolate false true
                                      (Now (parent (row w)))) (fields_ (row w)))
                              (row w)) w)) as (-> & _).
      simpl. by rewrite length_map.
    + rewrite SetKeyframingEnabled_refused in H by done. simplify_eq.
      by destruct (SetKeyframingInternal_fields true w) as (-> & _).
Qed.

Lemma row_call_length c w w' :
  row_call interpolate c w = Some w' →
  length (fields_ (row w'))
  = (length (fields_ (row w)) + added_fields [c])%nat.
Proof.
  destruct c as [f|b|t v|b|enabled answer_yes|]; simpl; intros H.
  - simplify_eq. simpl. by rewrite length_app.
  - simplify_eq. simpl. rewrite length_map. lia.
  - unfold SetValueAt, Q_ASSERT in H. case_bool_decide; simplify_eq/=.
    destruct (fields_ (row w) !! 0%nat); simplify_eq/=.
    rewrite length_insert. lia.
  - simplify_eq.
    destruct (SetKeyframingInternal_fields b w) as (-> & _). lia.
  - apply SetKeyframingEnabled_length in H. lia.
  - destruct (ToggleKeyframe_pushes w) as (w1 & ca & Ht & _ & _ & Hl & _).
    assert (w1 = w') as -> by congruence. lia.
Qed.

Lemma row_calls_length cs : ∀ w w',
  row_calls interpolate cs w = Some w' →
  length (fields_ (row w'))
  = (length (fields_ (row w)) + added_fields cs)%nat.
Proof.
  induction cs as [|c cs IH]; simpl; intros w w' H.
  - simplify_eq. lia.
  - destruct (row_call interpolate c w) as [w1|] eqn:H1; [|done].
    rewrite (IH _ _ H), (row_call_length _ _ _ H1).
    destruct c; simpl; lia.
Qed.

End MoreToggle.

(** X12: the sorting loop of ToggleKeyframe is a stable sort by descending
    keyframe index. Its result holds the same entries as were found, the
    keyframe index never grows along it, and entries with the same index
    (which then belong to different fields) keep the order in which they
    were found. *)
Theorem X12_sort_reverse_stable_descending (found : list (nat * nat)) :
  sort_reverse found ≡ₚ found ∧
  StronglySorted index_ge (sort_reverse found) ∧
  ∀ i, filter (λ x, x.2 = i) (sort_reverse found)
       = filter (λ x, x.2 = i) found.
Proof.
  unfold sort_reverse. split; [|split].
  - by rewrite sort_loop_perm.
  - apply sort_loop_sorted. constructor.
  - intros i. rewrite sort_loop_stable by constructor. by rewrite filter_nil.
Qed.

(** X13: every ToggleKeyframe is one undo step. The call goes through,
    pushes exactly one transaction onto the journal, and leaves the number
    of fields and the keyframing flag as they are. The transaction is empty
    exactly when the row has no field. *)
Theorem X13_ToggleKeyframe_one_transaction
    (interpolate : EffectKeyframe → EffectKeyframe → Z → QVariant) (w : World) :
  ∃ w' ca,
    ToggleKeyframe interpolate w = Some w' ∧
    undo_stack w' = undo_stack w ++ [ca] ∧
    FieldCount (row w') = FieldCount (row w) ∧
    IsKeyframing (row w') = IsKeyframing (row w) ∧
    (ca = [] ↔ FieldCount (row w) = 0%nat).
Proof.
  destruct (ToggleKeyframe_pushes interpolate w)
    as (w' & ca & Ht & Hu & Hs & Hl & Hk & He).
  exists w', ca. unfold FieldCount, IsKeyframing.
  repeat split; try done.
  - intros H. apply He in H. by rewrite H.
  - intros H. apply He. by destruct (fields_ (row w)).
Qed.

(** X14: only AddField changes the number of fields. After any sequence of
    AddField, SetEnabled, SetValueAt, SetKeyframingInternal,
    SetKeyframingEnabled and ToggleKeyframe calls that does not abort,
    FieldCount is what it was plus the number of AddField calls: no method
    drops or duplicates a field. *)
Theorem X14_FieldCount_counts_AddField
    (interpolate : EffectKeyframe → EffectKeyframe → Z → QVariant)
    (cs : list RowCall) (w w' : World) :
  row_calls interpolate cs w = Some w' →
  FieldCount (row w') = (FieldCount (row w) + added_fields cs)%nat.
Proof. apply row_calls_length. Qed.

Lemma X14_FieldCount_counts_AddField_witness :
  ∃ w', row_calls hold
          [CallAddField (field_with_times [10]); CallSetKeyframingEnabled true false;
           CallToggleKeyframe; CallSetEnabled false]
          (one_field_world example_effect true) = Some w' ∧
        FieldCount (row w') = 2%nat.
Proof.
  destruct (row_calls hold
          [CallAddField (field_with_times [10]); CallSetKeyframingEnabled true false;
           CallToggleKeyframe; CallSetEnabled false]
          (one_field_world example_effect true)) as [w'|] eqn:Hrun;
    [|vm_compute in Hrun; discriminate].
  exists w'. split; [reflexivity|].
  exact (X14_FieldCount_counts_AddField hold _ _ _ Hrun).
Defined.

(** X15: SetKeyframingEnabled is at most one undo step, with the flag
    change at a fixed end of it. The call goes through and keeps the number
    of fields. It pushes nothing when the requested state is the current one
    or when disabling is answered with No. Otherwise it pushes exactly one
    transaction, in which SetIsKeyframing is the first command when enabling
    and the last command when disabling. *)
Theorem X15_SetKeyframingEnabled_journal
    (interpolate : EffectKeyframe → EffectKeyframe → Z → QVariant)
    (enabled answer_yes : bool) (w : World) :
  ∃ w',
    SetKeyframingEnabled interpolate enabled answer_yes w = Some w' ∧
    FieldCount (row w') = FieldCount (row w) ∧
    (enabled = IsKeyframing (row w) ∨ (enabled = false ∧ answer_yes = false) →
     undo_stack w' = undo_stack w) ∧
    (enabled ≠ IsKeyframing (row w) → enabled = true ∨ answer_yes = true →
     ∃ ca, undo_stack w' = undo_stack w ++ [ca] ∧
           if enabled then head ca = Some (SetIsKeyframing true)
           else last ca = Some (SetIsKeyframing false)).
Proof.
  unfold IsKeyframing, FieldCount.
  destruct (SetKeyframingEnabled interpolate enabled answer_yes w)
    as [w'|] eqn:H.
  2:{ exfalso.
      destruct (decide (enabled = keyframing_ (row w))) as [He|He].
      { by rewrite SetKeyframingEnabled_same in H. }
      destruct enabled, (keyframing_ (row w)) eqn:Hk; try done.
      - by rewrite SetKeyframingEnabled_enable in H.
      - destruct answer_yes.
        + by rewrite SetKeyframingEnabled_disable in H.
        + by rewrite SetKeyframingEnabled_refused in H. }
  exists w'. split; [done|].
  split; [by eapply SetKeyframingEnabled_length|].
  destruct (decide (enabled = keyframing_ (row w))) as [He|He].
  { rewrite SetKeyframingEnabled_same in H by done. simplify_eq.
    split; [done|]. intros Hne. done. }
  destruct enabled, (keyframing_ (row w)) eqn:Hk; try done.
  - rewrite SetKeyframingEnabled_enable in H by done. simplify_eq. simpl.
    split; [intros [?|[? _]]; done|]. intros _ _.
    eexists. split; [done|]. done.
  - destruct answer_yes.
    + rewrite SetKeyframingEnabled_disable in H by done. simplify_eq. simpl.
      split; [intros [?|[_ ?]]; done|]. intros _ _.
      eexists. split; [done|]. by rewrite last_snoc.
    + rewrite SetKeyframingEnabled_refused in H by done. simplify_eq.
      destruct (SetKeyframingInternal_fields true w) as (_ & -> & _).
      split; [done|]. intros _ [?|?]; done.
Qed.

Lemma X15_SetKeyframingEnabled_journal_witness :
  ∃ w', SetKeyframingEnabled hold true false (one_field_world example_effect true)
          = Some w' ∧
        ∃ ca, undo_stack w' = [ca] ∧ head ca = Some (SetIsKeyframing true).
Proof.
  destruct (X15_SetKeyframingEnabled_journal hold true false
              (one_field_world example_effect true))
    as (w' & Hw & _ & _ & Hpush).
  exists w'. split; [exact Hw|].
  destruct (Hpush ltac:(vm_compute; congruence) ltac:(by left))
    as (ca & Hu & Hh).
  exists ca. split; [exact Hu|exact Hh].
Defined.
